(** * Fiddle: simulated smFRET traces -- helpers, parameter collection, export

    A shallow embedding of [lib/utils.py], of the parts of [main.py] that
    enable the input boxes, collect the parameters, issue the generation
    call, preview the result and export it, and of [ui/ui_build.py],
    together with the properties of these functions.

    Conventions of the embedding:
    - a Python call that may raise returns a [result]: [Ok v] or [Raise e];
    - Python [int] is [Z] (or [nat] for lengths and positions), Python
      [float] is an exact rational [Qc] (rounding of doubles is not modelled);
    - Python [str] is [string], restricted to ASCII;
    - [None]-or-number is [option Z]. *)

From Stdlib Require Import ZArith QArith Qcanon Qround Ascii String List Lia Lqa.
From Stdlib Require Import Sorted.
From stdpp Require Import base decidable option list numbers strings pretty gmap.

Set Default Proof Using "Type".

(** ** Python results and exceptions *)

Module Py.

Inductive exn : Type :=
| TypeError
| ValueError
| KeyError
| IndexError
| ConfigurationError.

Inductive result (A : Type) : Type :=
| Ok (a : A)
| Raise (e : exn).
Arguments Ok {A} a.
Arguments Raise {A} e.

Global Instance exn_eq_dec : EqDecision exn.
Proof. solve_decision. Defined.

Global Instance result_eq_dec {A : Type} `{EqDecision A} : EqDecision (result A).
Proof. solve_decision. Defined.

Definition bind {A B : Type} (r : result A) (k : A → result B) : result B :=
  match r with
  | Ok a => k a
  | Raise e => Raise e
  end.

(** [[f(x) for x in xs]] with a body that may raise: the first exception
    aborts the comprehension. *)
Fixpoint traverse {A B : Type} (f : A → result B) (xs : list A)
  : result (list B) :=
  match xs with
  | [] => Ok []
  | x :: xs' =>
      bind (f x) (λ y, bind (traverse f xs') (λ ys, Ok (y :: ys)))
  end.

(** [a < b] on values that are [None] or an integer: ordering [None]
    against anything is a [TypeError] in Python 3. *)
Definition lt (a b : option Z) : result bool :=
  match a, b with
  | Some x, Some y => Ok (x <? y)%Z
  | _, _ => Raise TypeError
  end.

(** The loop of the builtin [min]: the running minimum is replaced by an
    item when [item < minimum]. *)
Fixpoint min_loop (cur : option Z) (rest : list (option Z))
  : result (option Z) :=
  match rest with
  | [] => Ok cur
  | item :: rest' =>
      bind (lt item cur) (λ b, min_loop (if b then item else cur) rest')
  end.

(** The builtin [min] on one iterable: an empty one is a [ValueError]. *)
Definition min (ls : list (option Z)) : result (option Z) :=
  match ls with
  | [] => Raise ValueError
  | x :: rest => min_loop x rest
  end.

(** *** Strings: the pieces of [re] and [float] that [numstring_to_ls] uses

    Strings are sequences of ASCII characters here. *)

Definition is_digit (c : ascii) : bool :=
  (48 <=? nat_of_ascii c) && (nat_of_ascii c <=? 57).

(** [\s] on ASCII text, as [str.isspace]: tab to carriage return, the four
    separators FS to US, and the blank. *)
Definition is_space (c : ascii) : bool :=
  let n := nat_of_ascii c in
  ((9 <=? n) && (n <=? 13)) || ((28 <=? n) && (n <=? 32)).

(** The longest prefix whose characters satisfy [p], and what follows it:
    a greedy [p*]. *)
Fixpoint span (p : ascii → bool) (s : list ascii) : list ascii * list ascii :=
  match s with
  | c :: s' =>
      if p c then let '(pre, rest) := span p s' in (c :: pre, rest)
      else ([], s)
  | [] => ([], [])
  end.

Definition dot : ascii := "."%char.

(** [(\.\d+)?] at the head of [s]: the captured text (empty when the group
    does not take part) and the rest. *)
Definition match_fraction (s : list ascii) : list ascii * list ascii :=
  match s with
  | c :: s' =>
      if Ascii.eqb c dot then
        match span is_digit s' with
        | ([], _) => ([], s)
        | (ds, rest) => (c :: ds, rest)
        end
      else ([], s)
  | [] => ([], [])
  end.

(** [\d+(\.\d+)?\s*] anchored at the head of [s]: the text of group 1 and
    the rest after the match, or [None] when [s] does not start with a
    digit. Each piece after [\d+] may match the empty string, so the
    greedy attempt is the match. *)
Definition match_number (s : list ascii) : option (list ascii * list ascii) :=
  match span is_digit s with
  | ([], _) => None
  | (_, r1) =>
      let '(grp, r2) := match_fraction r1 in
      let '(_, r3) := span is_space r2 in
      Some (grp, r3)
  end.

(** [re.findall] for this pattern: scan from the left, resume after a
    match, move one character on where there is none; with one group in
    the pattern the result lists the text of that group. [fuel] bounds
    the number of scan steps. *)
Fixpoint findall_fuel (fuel : nat) (s : list ascii) : list (list ascii) :=
  match fuel with
  | O => []
  | S fuel' =>
      match s with
      | [] => []
      | _ :: s' =>
          match match_number s with
          | Some (grp, rest) => grp :: findall_fuel fuel' rest
          | None => findall_fuel fuel' s'
          end
      end
  end.

(** Every step consumes a character, so the length of the text is fuel
    enough (lemma [findall_fuel_enough]). *)
Definition findall (s : list ascii) : list (list ascii) :=
  findall_fuel (length s) s.

Definition digit_value (c : ascii) : Z := Z.of_nat (nat_of_ascii c) - 48.

(** The number a run of decimal digits denotes. *)
Definition digits_value (ds : list ascii) : Z :=
  fold_left (λ acc c, 10 * acc + digit_value c)%Z ds 0%Z.

(** The value of the decimal [ip.fp]. *)
Definition decimal (ip fp : list ascii) : Qc :=
  let scale := (10 ^ Z.of_nat (length fp))%Z in
  Q2Qc (Qmake (digits_value ip * scale + digits_value fp) (Z.to_pos scale)).

(** [float(s)] for an unsigned decimal literal without exponent:
    [12], [12.], [.5], [12.5]; the empty string and a lone dot are a
    [ValueError]. Signs, exponents, blanks, underscores, [inf] and [nan]
    are outside this model (it answers [ValueError] there); no string
    that [numstring_to_ls] passes to [float] has them. The result is the
    exact value of the literal; the double that Python returns is the one
    nearest to it. *)
Definition float (s : list ascii) : result Qc :=
  let '(ip, r) := span is_digit s in
  match r with
  | [] => if ip is [] then Raise ValueError else Ok (decimal ip [])
  | c :: r' =>
      if Ascii.eqb c dot then
        let '(fp, r'') := span is_digit r' in
        match r'', ip, fp with
        | [], [], [] => Raise ValueError
        | [], _, _ => Ok (decimal ip fp)
        | _, _, _ => Raise ValueError
        end
      else Raise ValueError
  end.

End Py.

Export Py (exn(..), result(..)).

(** ** lib/utils.py *)

Module Utils.

(** *** [min_none] *)

(** [try: return min(ls)  except TypeError: return None] *)
Definition min_none (ls : list (option Z)) : result (option Z) :=
  match Py.min ls with
  | Raise TypeError => Ok None
  | r => r
  end.

(** What the docstring of [min_none] promises: "Returns minimum value of
    list, and None if all elements are None". *)
Definition min_none_documented (ls : list (option Z)) : option Z :=
  match omap id ls with
  | [] => None
  | x :: xs => Some (foldr Z.min x xs)
  end.

(** *** [count_adjacent_values] *)

Section CountAdjacent.
Context {A : Type} `{EqDecision A}.

(** [itertools.groupby] without a key function: [k] is the key of the
    group being collected and [g] its members so far. *)
Fixpoint groupby_from (k : A) (g : list A) (l : list A)
  : list (A * list A) :=
  match l with
  | [] => [(k, g)]
  | x :: l' =>
      if decide (x = k) then groupby_from k (g ++ [x]) l'
      else (k, g) :: groupby_from x [x] l'
  end.

Definition groupby (l : list A) : list (A * list A) :=
  match l with
  | [] => []
  | x :: l' => groupby_from x [x] l'
  end.

(** The slice [arr[lo:hi]] for [0 <= lo <= hi]. *)
Definition slice (arr : list A) (lo hi : nat) : list A :=
  take (hi - lo) (drop lo arr).

(** One turn of the loop [for v, l in same]. *)
Definition count_step (arr : list A)
    (st : nat * list nat * list nat) (vl : A * nat)
  : nat * list nat * list nat :=
  let '(n, starts, lengths) := st in
  let '(v, l) := vl in
  let _len := length (slice arr n (n + l)) in
  let _idx := n in
  (n + l, starts ++ [_idx], lengths ++ [_len]).

Definition count_adjacent_values (arr : list A) : list nat * list nat :=
  let same := map (λ gl : A * list A, (gl.1, length gl.2)) (groupby arr) in
  let '(_, starts, lengths) := fold_left (count_step arr) same (0, [], []) in
  (starts, lengths).

End CountAdjacent.

(** *** [numstring_to_ls] *)

(** [num_s = re.findall(r'\d+(\.\d+)?\s*', s)]
    [return [float(s) for s in num_s]] *)
Definition numstring_to_ls (s : string) : result (list Qc) :=
  let num_s := Py.findall (list_ascii_of_string s) in
  Py.traverse Py.float num_s.

(** *** [plot_category] *)

Definition cls : gmap Z string :=
  list_to_map
    [(0, "bleached"); (1, "aggregate"); (2, "noisy"); (3, "scramble");
     (4, "1-state"); (5, "2-state"); (6, "3-state"); (7, "4-state");
     (8, "5-state")]%Z.

Definition colors : gmap Z string :=
  list_to_map
    [(0, "darkgrey"); (1, "red"); (2, "blue"); (3, "purple");
     (4, "orange"); (5, "lightgreen"); (6, "green");
     (7, "mediumseagreen"); (8, "darkolivegreen")]%Z.

(** The argument [y]: categorical labels (a 1-D array) or one-hot coded
    labels (a 2-D array, one row per frame). Entries are integers, on
    which [astype(int)] changes nothing. *)
Inductive labels : Type :=
| Categorical (y : list Z)
| OneHot (y : list (list Z)).

(** [argmax] of one row: the first position of the largest entry; numpy
    refuses an empty row with a [ValueError]. *)
Fixpoint argmax_from (best : Z) (besti : nat) (i : nat) (row : list Z) : nat :=
  match row with
  | [] => besti
  | x :: row' =>
      if (best <? x)%Z then argmax_from x i (S i) row'
      else argmax_from best besti (S i) row'
  end.

Definition argmax (row : list Z) : result Z :=
  match row with
  | [] => Raise ValueError
  | x :: row' => Ok (Z.of_nat (argmax_from x 0 1 row'))
  end.

(** [y_ = y.argmax(axis=1) if len(y.shape) != 1 else y] *)
Definition class_labels (y : labels) : result (list Z) :=
  match y with
  | Categorical y => Ok y
  | OneHot rows => Py.traverse argmax rows
  end.

(** What [plot_category] draws on [ax]: the shaded spans and the one
    legend entry. The labels are read as an array, by position. *)
Record span := Span { xmin : nat; xmax : nat; span_alpha : Qc; facecolor : string }.
Record drawing := Drawing {
  spans : list span;
  legend_label : string;
  legend_color : string
}.

(** [d[k]] on a dict and [a[i]] on an array. *)
Definition getitem {V : Type} (d : gmap Z V) (k : Z) : result V :=
  match d !! k with
  | Some v => Ok v
  | None => Raise KeyError
  end.

Definition index {V : Type} (a : list V) (i : nat) : result V :=
  match a !! i with
  | Some v => Ok v
  | None => Raise IndexError
  end.

Definition plot_category (y : labels) (alpha : Qc) : result drawing :=
  Py.bind (class_labels y) (λ y_,
  if decide (size colors < size (list_to_set y_ : gset Z)) then Raise ValueError
  else
    let '(adjs, lns) := count_adjacent_values y_ in
    let position := seq 0 (length y_) in
    Py.bind (Py.traverse (λ il : nat * nat,
               let '(idx, ln) := il in
               Py.bind (index y_ idx) (λ label,
               Py.bind (index position idx) (λ x,
               Py.bind (getitem colors label) (λ c,
               Ok (Span x (x + ln) alpha c)))))
             (zip adjs lns)) (λ sp,
    Py.bind (index y_ 0) (λ y0,
    Py.bind (getitem cls y0) (λ l,
    Py.bind (getitem colors y0) (λ c,
    Ok (Drawing sp l c)))))).

(** *** [random_seed_mp] *)

(** The state of numpy's process-wide generator: seeding fixes the whole
    stream, so a state is the seed and how many numbers have been drawn. *)
Record rng := Rng { seed : Z; drawn : nat }.

(** [np.random.seed(seed)]: the seed must fit 32 bits. *)
Definition np_random_seed (seed_val : Z) : result rng :=
  if decide (0 ≤ seed_val < 2 ^ 32)%Z then Ok (Rng seed_val 0)
  else Raise ValueError.

(** [int.from_bytes(bs, byteorder="little")] *)
Definition int_from_bytes_little (bs : list Byte.byte) : Z :=
  foldr (λ b acc, Z.of_N (Byte.to_N b) + 256 * acc)%Z 0%Z bs.

(** What [random_seed_mp] touches: the generator and the standard output. *)
Record process := Process { np_random : rng; stdout : list string }.

(** [urandom4] is what [os.urandom(4)] returns on this call. *)
Definition random_seed_mp (verbose : bool) (urandom4 : list Byte.byte)
    (p : process) : result process :=
  let seed_val := int_from_bytes_little urandom4 in
  Py.bind (np_random_seed seed_val) (λ g,
  if verbose then
    Ok (Process g (stdout p ++ ["Random seed value: " +:+ pretty seed_val]))
  else Ok (Process g (stdout p))).

End Utils.

(** ** lib/algorithms.py, as far as the specification describes it *)

Module Algorithms.

(** A parameter that is a single number or a pair [(low, high)]. *)
Inductive scalar_or_range : Type :=
| Fixed (v : Qc)
| Range (lo hi : Qc).

(** The state means: the text ["random"] or a list of numbers. *)
Inductive fret_means : Type :=
| RandomMeans
| FixedMeans (means : list Qc).

(** The keyword arguments of [generate_traces], as [set_traces] passes
    them. The progress bar is represented by its loop length. *)
Record arguments := Arguments {
  n_traces : Z;
  aa_mismatch : scalar_or_range;
  state_means : fret_means;
  random_k_states_max : Z;
  max_aggregate_size : Z;
  aggregation_prob : Qc;
  scramble_prob : Qc;
  trace_length : Z;
  trans_prob : scalar_or_range;
  blink_prob : Qc;
  bleed_through : scalar_or_range;
  noise : scalar_or_range;
  D_lifetime : option Z;
  A_lifetime : option Z;
  au_scaling_factor : scalar_or_range;
  discard_unbleached : bool;
  null_fret_value : Qc;
  min_state_diff : Qc;
  acceptable_noise : Qc;
  progressbar_callback : option Qc;
  callback_every : option Z
}.

(** One row of the result table. *)
Record row := Row {
  name : nat;
  frame : nat;
  DD : Qc;
  DA : Qc;
  AA : Qc;
  E : Qc;
  E_true : Qc;
  S : Qc;
  label : Z;
  bleaches_at : option Z;
  fb : option Z
}.

Definition is_probability (q : Qc) : bool :=
  bool_decide (0 ≤ q)%Qc && bool_decide (q ≤ 1)%Qc.

Definition range_ordered (p : scalar_or_range) : bool :=
  match p with
  | Fixed _ => true
  | Range lo hi => bool_decide (lo ≤ hi)%Qc
  end.

Definition range_of_probabilities (p : scalar_or_range) : bool :=
  match p with
  | Fixed v => is_probability v
  | Range lo hi => is_probability lo && is_probability hi
  end.

Definition lifetime_ok (t : option Z) : bool :=
  match t with
  | Some x => bool_decide (0 ≤ x)%Z
  | None => true
  end.

(** Modelled from the spec: the configuration check of [generate_traces],
    which is not among the sources. "Input constraint: low <= high,
    max_random_states >= 2; violating inputs fail with a
    ConfigurationError", and "any invalid parameter combination (e.g.
    negative lifetime, probability outside [0,1], empty state-mean list)
    fails fast with a ConfigurationError before any sampling starts". *)
Definition configuration_ok (a : arguments) : bool :=
  range_ordered (aa_mismatch a) && range_ordered (trans_prob a) &&
  range_ordered (bleed_through a) && range_ordered (noise a) &&
  range_ordered (au_scaling_factor a) &&
  bool_decide (2 ≤ random_k_states_max a)%Z &&
  is_probability (aggregation_prob a) && is_probability (scramble_prob a) &&
  is_probability (blink_prob a) && range_of_probabilities (trans_prob a) &&
  (if state_means a is FixedMeans [] then false else true) &&
  lifetime_ok (D_lifetime a) && lifetime_ok (A_lifetime a).

Section Generator.

(** The sampling machinery behind a valid call: its formulas are not in the
    sources, and the specification fixes only that it is "a pure function
    of its parameters plus a random seed": a function of the arguments and
    the state of the generator, returning the table and the new state. *)
Variable sample : arguments → Utils.rng → list row * Utils.rng.

(** Modelled from the spec: [generate_traces], which is not among the
    sources: the configuration is checked "before any sampling starts",
    and "no partial results are returned on configuration failure". *)
Definition generate_traces (a : arguments) (g : Utils.rng)
  : result (list row) * Utils.rng :=
  if configuration_ok a then
    let '(t, g') := sample a g in (Ok t, g')
  else (Raise ConfigurationError, g).

End Generator.

End Algorithms.

(** ** main.py *)

Module Main.
Import Algorithms.

(** *** The widgets and the collected inputs *)

(** The state of the widgets that the window reads: numbers for spin
    boxes, [bool] for check boxes, the text of the state-means field. For
    the examples box, whose entries read like [3x3], the field holds
    [int(currentText().split("x")[0])]. *)
Record ui := Ui {
  examplesComboBox : Z;
  inputNumberOfTraces : Z;
  inputTraceLength : Z;
  inputScrambleProbability : Qc;
  inputAggregateProbability : Qc;
  inputMaxAggregateSize : Z;
  checkBoxRandomState : bool;
  inputFretStateMeans : string;
  inputMaxRandomStates : Z;
  checkBoxDlifetime : bool;
  inputDonorMeanLifetime : Z;
  checkBoxALifetime : bool;
  inputAcceptorMeanLifetime : Z;
  inputBlinkingProbability : Qc;
  checkBoxTransitionProbability : bool;
  inputTransitionProbabilityLo : Qc;
  inputTransitionProbabilityHi : Qc;
  checkBoxNoise : bool;
  inputNoiseLo : Qc;
  inputNoiseHi : Qc;
  checkBoxMismatch : bool;
  inputMismatchLo : Qc;
  inputMismatchHi : Qc;
  checkBoxBleedthrough : bool;
  inputBleedthroughLo : Qc;
  inputBleedthroughHi : Qc;
  checkBoxScaler : bool;
  inputScalerLo : Qc;
  inputScalerHi : Qc
}.

(** [class Inputs] *)
Record Inputs := MkInputs {
  n_examples : Z;
  n_traces : Z;
  trace_len : Z;
  max_random_states : Z;
  donor_lifetime : option Z;
  acceptor_lifetime : option Z;
  max_aggregate_size : Z;
  aggregate_prob : Qc;
  scramble_prob : Qc;
  blinking_prob : Qc;
  transition_prob : scalar_or_range;
  scaling_factor : scalar_or_range;
  aa_mismatch : scalar_or_range;
  bleed_through : scalar_or_range;
  noise : scalar_or_range;
  fret_means : fret_means
}.

(** The pattern of the five scalar-or-range parameters: the [Lo] box alone
    when the check box is ticked, the pair of boxes otherwise. *)
Definition lo_or_pair (checked : bool) (lo hi : Qc) : scalar_or_range :=
  if checked then Fixed lo else Range lo hi.

(** [values_from_gui]: the attributes are assigned one after the other, so
    when [numstring_to_ls] raises, those before the state means have their
    new values and the others keep their old ones. *)
Definition values_from_gui (u : ui) (old : Inputs) : Inputs * result unit :=
  let n_examples' := (examplesComboBox u ^ 2)%Z in
  let means :=
    if checkBoxRandomState u then Ok RandomMeans
    else Py.bind (Utils.numstring_to_ls (inputFretStateMeans u))
           (λ ls, Ok (FixedMeans ls)) in
  match means with
  | Raise e =>
      (MkInputs n_examples' (inputNumberOfTraces u) (inputTraceLength u)
         (max_random_states old) (donor_lifetime old) (acceptor_lifetime old)
         (inputMaxAggregateSize u) (inputAggregateProbability u)
         (inputScrambleProbability u) (blinking_prob old)
         (transition_prob old) (scaling_factor old) (aa_mismatch old)
         (bleed_through old) (noise old) (fret_means old),
       Raise e)
  | Ok fm =>
      (MkInputs n_examples' (inputNumberOfTraces u) (inputTraceLength u)
         (inputMaxRandomStates u)
         (if checkBoxDlifetime u then None else Some (inputDonorMeanLifetime u))
         (if checkBoxALifetime u then None
          else Some (inputAcceptorMeanLifetime u))
         (inputMaxAggregateSize u) (inputAggregateProbability u)
         (inputScrambleProbability u) (inputBlinkingProbability u)
         (lo_or_pair (checkBoxTransitionProbability u)
            (inputTransitionProbabilityLo u) (inputTransitionProbabilityHi u))
         (lo_or_pair (checkBoxScaler u) (inputScalerLo u) (inputScalerHi u))
         (lo_or_pair (checkBoxMismatch u) (inputMismatchLo u) (inputMismatchHi u))
         (lo_or_pair (checkBoxBleedthrough u)
            (inputBleedthroughLo u) (inputBleedthroughHi u))
         (lo_or_pair (checkBoxNoise u) (inputNoiseLo u) (inputNoiseHi u))
         fm,
       Ok ())
  end.

(** *** The window *)

(** One preview panel: the horizontal line drawn for each true FRET state
    (up to the bleach frame), the span shaded after bleaching, the label
    categories and the right end of the time axis. *)
Record subplot := Subplot {
  fret_state_lines : list (option Z * Qc);
  bleached_span : option (Z * nat);
  categories : Utils.drawing;
  xlim : nat
}.

Record window := Window {
  widgets : ui;
  inputs : Inputs;
  traces : list row;
  figure : list subplot
}.

Definition with_inputs (w : window) (i : Inputs) : window :=
  Window (widgets w) i (traces w) (figure w).

Definition with_traces (w : window) (t : list row) : window :=
  Window (widgets w) (inputs w) t (figure w).

Definition with_figure (w : window) (f : list subplot) : window :=
  Window (widgets w) (inputs w) (traces w) f.

(** *** [set_traces] *)

(** More than 50 traces get a progress bar updated every 5 traces. *)
Definition update_freq (n : Z) : option Z :=
  if decide (50 < n)%Z then Some 5%Z else None.

Definition progressbar (n : Z) : option Qc :=
  if decide (50 < n)%Z then Some (Qc_of_Z n / Qc_of_Z 5)%Qc else None.

(** The keyword arguments of the call in [set_traces]. *)
Definition set_traces_arguments (i : Inputs) (n : Z) : arguments :=
  {| Algorithms.n_traces := n;
     Algorithms.aa_mismatch := aa_mismatch i;
     state_means := fret_means i;
     random_k_states_max := max_random_states i;
     Algorithms.max_aggregate_size := max_aggregate_size i;
     aggregation_prob := aggregate_prob i;
     Algorithms.scramble_prob := scramble_prob i;
     trace_length := trace_len i;
     trans_prob := transition_prob i;
     blink_prob := blinking_prob i;
     Algorithms.bleed_through := bleed_through i;
     Algorithms.noise := noise i;
     D_lifetime := donor_lifetime i;
     A_lifetime := acceptor_lifetime i;
     au_scaling_factor := scaling_factor i;
     discard_unbleached := false;
     null_fret_value := (- 1)%Qc;
     min_state_diff := Q2Qc (2 # 10);
     acceptable_noise := Q2Qc (25 # 100);
     progressbar_callback := progressbar n;
     callback_every := update_freq n |}.

Section Application.

(** [lib.algorithms.generate_traces], whatever it computes. *)
Variable generate_traces :
  arguments → Utils.rng → result (list row) * Utils.rng.

(** [set_traces]: an exception of the call leaves [self.traces] as it was. *)
Definition set_traces (w : window) (n : Z) (g : Utils.rng)
  : window * Utils.rng * result unit :=
  let '(r, g') := generate_traces (set_traces_arguments (inputs w) n) g in
  match r with
  | Ok t => (with_traces w t, g', Ok ())
  | Raise e => (w, g', Raise e)
  end.

(** *** [refresh_plots] *)

(** [np.unique]: the distinct values in increasing order. *)
Fixpoint insert_unique (x : Qc) (l : list Qc) : list Qc :=
  match l with
  | [] => [x]
  | y :: l' =>
      if decide (x = y) then l
      else if decide (x < y)%Qc then x :: l
      else y :: insert_unique x l'
  end.

Definition np_unique (l : list Qc) : list Qc := foldr insert_unique [] l.

(** [fret_states = np.unique(trace["E_true"])]
    [fret_states = fret_states[fret_states != -1]] *)
Definition fret_states (trace : list row) : list Qc :=
  filter (λ x, x ≠ (- 1)%Qc) (np_unique (E_true <$> trace)).

(** The body of the loop over the panels, for [self.traces["name"] == i]. *)
Definition preview (t : list row) (i : nat) : result subplot :=
  let trace := filter (λ r, name r = i) t in
  Py.bind (Utils.index (bleaches_at <$> trace) 0) (λ bleach,
  let tmax := foldr Nat.max 0 (frame <$> trace) in
  let states := fret_states trace in
  Py.bind (Utils.plot_category (Utils.Categorical (label <$> trace))
             (Q2Qc (4 # 10))) (λ cat,
  Ok (Subplot ((λ state, (bleach, state)) <$> states)
        (match bleach with Some b => Some (b, tmax) | None => None end)
        cat tmax))).

(** The loop [for i in range(n_subplots)]: the panels drawn so far, and the
    exception that ended the loop, if any. *)
Fixpoint preview_loop (t : list row) (panels : list nat) (fig : list subplot)
  : list subplot * result unit :=
  match panels with
  | [] => (fig, Ok ())
  | i :: panels' =>
      match preview t i with
      | Ok sp => preview_loop t panels' (fig ++ [sp])
      | Raise e => (fig, Raise e)
      end
  end.

Definition at_least_examples (i : Inputs) : Inputs :=
  if decide (n_traces i < n_examples i)%Z then
    MkInputs (n_examples i) (n_examples i) (trace_len i) (max_random_states i)
      (donor_lifetime i) (acceptor_lifetime i) (max_aggregate_size i)
      (aggregate_prob i) (scramble_prob i) (blinking_prob i)
      (transition_prob i) (scaling_factor i) (aa_mismatch i)
      (bleed_through i) (noise i) (fret_means i)
  else i.

Definition refresh_plots (w : window) (g : Utils.rng)
  : window * Utils.rng * result unit :=
  let '(i, r) := values_from_gui (widgets w) (inputs w) in
  match r with
  | Raise e => (with_inputs w i, g, Raise e)
  | Ok _ =>
      let w1 := with_inputs w (at_least_examples i) in
      let '(w2, g', r) := set_traces w1 (n_examples (inputs w1)) g in
      match r with
      | Raise e => (w2, g', Raise e)
      | Ok _ =>
          let n_subplots := Z.to_nat (n_examples (inputs w2)) in
          let '(fig, r) := preview_loop (traces w2) (seq 0 n_subplots) [] in
          (with_figure w2 fig, g', r)
      end
  end.

End Application.

(** *** [export_traces_to_ascii] *)

Definition nl : string := String (ascii_of_nat 10) "".
Definition tab : string := String (ascii_of_nat 9) "".

(** A [str.format] template with numbered fields. *)
Inductive piece : Type :=
| Lit (s : string)
| Field (n : nat).

Fixpoint format (template : list piece) (args : list string) : result string :=
  match template with
  | [] => Ok ""
  | Lit s :: template' =>
      Py.bind (format template' args) (λ rest, Ok (s +:+ rest))
  | Field n :: template' =>
      Py.bind (Utils.index args n) (λ a,
      Py.bind (format template' args) (λ rest, Ok (a +:+ rest)))
  end.

(** [str] of an integer or [None]. *)
Definition str_int (n : Z) : string := pretty n.

Definition str_optional (v : option Z) : string :=
  match v with
  | Some n => str_int n
  | None => "None"
  end.

(** [os.path.join(a, b)] for a relative [b]. *)
Definition ends_with_slash (a : string) : bool :=
  match last (list_ascii_of_string a) with
  | Some c => Ascii.eqb c "/"%char
  | None => true
  end.

Definition os_path_join (a b : string) : string :=
  if ends_with_slash a then a +:+ b else a +:+ "/" +:+ b.

(** [pandas]' [groupby] on a key per row: groups in increasing key order,
    rows in their order of appearance. *)
Fixpoint add_to_group {R : Type} (k : Z) (r : R) (gs : list (Z * list R))
  : list (Z * list R) :=
  match gs with
  | [] => [(k, [r])]
  | (k', rs) :: gs' =>
      if decide (k = k') then (k', rs ++ [r]) :: gs'
      else if decide (k < k')%Z then (k, [r]) :: gs
      else (k', rs) :: add_to_group k r gs'
  end.

Definition groupby {R : Type} (keys : list Z) (rows : list R)
  : list (Z * list R) :=
  fold_left (λ gs kr, add_to_group kr.1 kr.2 gs) (zip keys rows) [].

(** [np.arange(0, len(df), 1) // trace_length]; numpy's integer division
    by zero gives zero, as [Z.div] does. *)
Definition positional_index (len : nat) (trace_length : Z) : list Z :=
  (λ p, Z.of_nat p / trace_length)%Z <$> seq 0 len.

Definition export_columns : list string :=
  ["D-Dexc-bg"; "A-Dexc-bg"; "A-Aexc-bg"; "D-Dexc-rw"; "A-Dexc-rw";
   "A-Aexc-rw"; "S"; "E"].

Definition file_template : list piece :=
  [Field 0; Lit nl; Field 1; Lit nl; Field 2; Lit nl; Field 3; Lit nl;
   Field 4; Lit nl; Lit nl; Field 5].

Section Exporter.

Variable generate_traces :
  arguments → Utils.rng → result (list row) * Utils.rng.

(** How [to_csv] writes a number. *)
Variable repr : Qc → string.

(** [.round(4)] on one number, as pandas computes it on the doubles of the
    frame: the library's function, taken as it is. *)
Variable round4 : Qc → Qc.

(** The frame built for one trace, already rounded: a row of values under
    [export_columns]; [bg] is the row's entry of [np.zeros(len(trace))]. *)
Definition export_frame (trace : list row) : list (list Qc) :=
  let bg := replicate (length trace) 0%Qc in
  (λ br : Qc * row,
     round4 <$> [br.1; br.1; br.1; DD br.2; DA br.2; AA br.2; S br.2; E br.2])
  <$> zip bg trace.

(** [df.to_csv(index=False, sep="\t")]: the column names, then a line per
    row. *)
Definition to_csv (columns : list string) (rows : list (list Qc)) : string :=
  String.concat tab columns +:+ nl +:+
  String.concat "" ((λ r, String.concat tab (repr <$> r) +:+ nl) <$> rows).

(** The text written for the group [idx]; [date] is what
    [time.strftime("%Y-%m-%d, %H:%M")] returns. *)
Definition export_text (idx : Z) (trace : list row) (date : string)
  : result string :=
  let df := export_frame trace in
  let date_txt := "Date: " +:+ date in
  let mov_txt := "Movie filename: " +:+ "None" in
  let id_txt := "FRET pair #" +:+ str_int idx in
  Py.bind (Utils.index (fb <$> trace) 0) (λ fb0,
  let bl_txt := "Bleaches at " +:+ str_optional fb0 in
  let exp_txt := "Simulated trace exported by Fiddler" in
  format file_template
    [exp_txt; date_txt; mov_txt; id_txt; bl_txt; to_csv export_columns df]).

(** The loop over the groups. [strftime k] is the result of the [k]-th call
    of [time.strftime] during the export: two calls per file, the first for
    the file name, the second for the date line. The disk maps paths to
    contents; writing replaces what a path held. *)
Fixpoint export_loop (outdir : string) (strftime : nat → string) (k : nat)
    (groups : list (Z * list row)) (disk : gmap string string)
  : gmap string string * result unit :=
  match groups with
  | [] => (disk, Ok ())
  | (idx, trace) :: groups' =>
      let path :=
        os_path_join outdir
          ("trace_" +:+ str_int idx +:+ "_" +:+ strftime k +:+ ".txt") in
      match export_text idx trace (strftime (k + 1)) with
      | Ok text =>
          export_loop outdir strftime (k + 2) groups' (<[path := text]> disk)
      | Raise e => (disk, Raise e)
      end
  end.

(** [outdir] is the folder picked in the dialog, [None] when the dialog
    is dismissed. *)
Definition export_traces_to_ascii (outdir : option string)
    (strftime : nat → string) (w : window) (g : Utils.rng)
    (disk : gmap string string)
  : window * Utils.rng * gmap string string * result unit :=
  let '(w1, g', r) :=
    set_traces generate_traces w (inputNumberOfTraces (widgets w)) g in
  match r with
  | Raise e => (w1, g', disk, Raise e)
  | Ok _ =>
      let df := traces w1 in
      let index := positional_index (length df) (inputTraceLength (widgets w1)) in
      match outdir with
      | Some dir =>
          let '(disk', r) := export_loop dir strftime 0 (groupby index df) disk in
          (w1, g', disk', r)
      | None => (w1, g', disk, Ok ())
      end
  end.

End Exporter.

(** *** [refresh_ui] *)

(** Which of the input boxes that [refresh_ui] governs accept input. *)
Record enabled := Enabled {
  enDonorMeanLifetime : bool;
  enAcceptorMeanLifetime : bool;
  enTransitionProbabilityHi : bool;
  enFretStateMeans : bool;
  enNoiseHi : bool;
  enMismatchHi : bool;
  enScalerHi : bool;
  enBleedthroughHi : bool;
  enMaxRandomStates : bool
}.

(** [inputBox.setDisabled(checkBox.isChecked())] for the eight pairs, then
    [inputMaxRandomStates.setEnabled(checkBoxRandomState.isChecked())]. *)
Definition refresh_ui (u : ui) : enabled :=
  {| enDonorMeanLifetime := negb (checkBoxDlifetime u);
     enAcceptorMeanLifetime := negb (checkBoxALifetime u);
     enTransitionProbabilityHi := negb (checkBoxTransitionProbability u);
     enFretStateMeans := negb (checkBoxRandomState u);
     enNoiseHi := negb (checkBoxNoise u);
     enMismatchHi := negb (checkBoxMismatch u);
     enScalerHi := negb (checkBoxScaler u);
     enBleedthroughHi := negb (checkBoxBleedthrough u);
     enMaxRandomStates := checkBoxRandomState u |}.

End Main.

(** ** ui/ui_build.py *)

Module UiBuild.

(** [s.rstrip(chars)]: the text without its trailing characters that occur
    in [chars]. *)
Fixpoint rstrip (chars : list ascii) (s : string) : string :=
  match s with
  | "" => ""
  | String c s' =>
      match rstrip chars s' with
      | "" => if bool_decide (c ∈ chars) then "" else String c ""
      | r => String c r
      end
  end.

(** What the script does to the outside: a line printed, a command handed
    to [os.system]. *)
Inductive event : Type :=
| Print (line : string)
| System (command : string).

(** ["exec python3 -m PyQt5.uic.pyuic {0}.ui -o {0}.py -x".format(
    filename.rstrip(".ui"))] *)
Definition convert_command (filename : string) : string :=
  let stem := rstrip (list_ascii_of_string ".ui") filename in
  "exec python3 -m PyQt5.uic.pyuic " +:+ stem +:+ ".ui -o " +:+ stem +:+ ".py -x".

(** [generatePyFromUi]: [ui_files] is what [glob.glob("*.ui")] returns and
    [exists] what [os.path.exists] answers. *)
Definition generatePyFromUi (verbose : bool) (ui_files : list string)
    (exists_ : string → bool) : list event :=
  flat_map (λ filename,
    if exists_ filename then
      (if verbose then [Print (filename +:+ " was converted")] else []) ++
      [System (convert_command filename)]
    else []) ui_files.

End UiBuild.

(** ** Notions of the specification *)

Module Spec.

(** *** Frame labels

    Modelled from the spec: the generator ([lib.algorithms]) that assigns
    the labels is not part of the sources; its data model names the
    categories "bleached, aggregate, noisy, scramble, or state-index 1…K
    for K-state traces". *)
Inductive category : Type :=
| Bleached
| Aggregate
| Noisy
| Scramble
| State (k : nat).

(** The integer code of a category: 0 to 3 for the four special ones,
    [3 + k] for [k] states. *)
Definition category_code (c : category) : Z :=
  match c with
  | Bleached => 0
  | Aggregate => 1
  | Noisy => 2
  | Scramble => 3
  | State k => 3 + Z.of_nat k
  end.

Definition category_name (c : category) : string :=
  match c with
  | Bleached => "bleached"
  | Aggregate => "aggregate"
  | Noisy => "noisy"
  | Scramble => "scramble"
  | State k => pretty k +:+ "-state"
  end.

(** The preview has names and colours for up to five states. *)
Definition previewable (c : category) : Prop :=
  match c with
  | State k => 1 ≤ k ≤ 5
  | _ => True
  end.

(** The categories of a [K]-state trace: the four special ones and the
    state indices 1 to [K]. *)
Definition category_of (K : nat) (c : category) : Prop :=
  match c with
  | State k => 1 ≤ k ≤ K
  | _ => True
  end.

(** Modelled from the spec: the generator ([lib.algorithms]) that fills
    the [label] column is not part of the sources; its data model says of
    every frame of a [K]-state trace that the label is "one of: bleached,
    aggregate, noisy, scramble, or state-index 1…K". In the table the
    label is the integer code of the category. *)
Definition labelled (K : nat) (t : list Algorithms.row) : Prop :=
  Forall (λ r, ∃ c, category_of K c ∧ Algorithms.label r = category_code c) t.

(** *** Texts of numbers with integer part 0

    A literal [ip.fp] is written with digits on both sides of the point.
    An input text is a digit-free lead followed by literals, each followed
    by a digit-free separator that is non-empty unless the text ends
    there. Any character that is not a digit separates, a sign included:
    the function reads numbers "regardless of separators". *)
Record literal := Literal { int_part : list ascii; frac_part : list ascii }.

Definition literal_text (l : literal) : list ascii :=
  int_part l ++ Py.dot :: frac_part l.

Definition digits (ds : list ascii) : Prop :=
  ds ≠ [] ∧ Forall (λ c, Py.is_digit c = true) ds.

Definition digit_free (s : list ascii) : Prop :=
  Forall (λ c, Py.is_digit c = false) s.

Definition well_written (l : literal) : Prop :=
  digits (int_part l) ∧ digits (frac_part l).

Definition integer_part_zero (l : literal) : Prop :=
  Forall (λ c, c = "0"%char) (int_part l).

Fixpoint input_text (items : list (literal * list ascii)) : list ascii :=
  match items with
  | [] => []
  | (l, sep) :: items' => literal_text l ++ sep ++ input_text items'
  end.

Fixpoint separated (items : list (literal * list ascii)) : Prop :=
  match items with
  | [] => True
  | (_, sep) :: items' =>
      digit_free sep ∧ (sep ≠ [] ∨ items' = []) ∧ separated items'
  end.

(** The value a literal is written to have. *)
Definition written_value (l : literal) : Qc :=
  Py.decimal (int_part l) (frac_part l).

(** *** Generation policy and invalid parameters *)

(** The policy constants of the application. *)
Definition pinned (a : Algorithms.arguments) : Prop :=
  Algorithms.discard_unbleached a = false ∧
  Algorithms.null_fret_value a = (- 1)%Qc ∧
  Algorithms.min_state_diff a = Q2Qc (1 # 5) ∧
  Algorithms.acceptable_noise a = Q2Qc (1 # 4).

Definition reversed (p : Algorithms.scalar_or_range) : Prop :=
  match p with
  | Algorithms.Fixed _ => False
  | Algorithms.Range lo hi => (hi < lo)%Qc
  end.

Definition not_probability (q : Qc) : Prop := (q < 0)%Qc ∨ (1 < q)%Qc.

Definition not_probabilities (p : Algorithms.scalar_or_range) : Prop :=
  match p with
  | Algorithms.Fixed v => not_probability v
  | Algorithms.Range lo hi => not_probability lo ∨ not_probability hi
  end.

(** "A range parameter with low > high, max_random_states < 2, a
    probability outside [0,1], or an empty state-mean list." *)
Definition invalid (a : Algorithms.arguments) : Prop :=
  (reversed (Algorithms.aa_mismatch a) ∨ reversed (Algorithms.trans_prob a) ∨
   reversed (Algorithms.bleed_through a) ∨ reversed (Algorithms.noise a) ∨
   reversed (Algorithms.au_scaling_factor a)) ∨
  (Algorithms.random_k_states_max a < 2)%Z ∨
  (not_probability (Algorithms.aggregation_prob a) ∨
   not_probability (Algorithms.scramble_prob a) ∨
   not_probability (Algorithms.blink_prob a) ∨
   not_probabilities (Algorithms.trans_prob a)) ∨
  Algorithms.state_means a = Algorithms.FixedMeans [].

(** *** Result tables

    "Trace-major, frame-minor ordering", "grouped by name with frame
    ascending and contiguous per trace", "each trace has exactly
    trace_length frames": the table is the traces one after the other, the
    [i]-th of them carrying the name [i] and the frames 0 to
    [trace_length - 1] in order. *)
Definition trace_major (trace_length : nat) (t : list Algorithms.row)
    (blocks : list (list Algorithms.row)) : Prop :=
  t = concat blocks ∧
  ∀ i b, blocks !! i = Some b →
    Forall (λ r, Algorithms.name r = i) b ∧
    Algorithms.frame <$> b = seq 0 trace_length.

(** *** Lines of a text *)

Definition newline : ascii := ascii_of_nat 10.

(** The pieces of a text between its newline characters, as
    [str.split("\n")] gives them. *)
Fixpoint split_lines (s : string) : list string :=
  match s with
  | "" => [""]
  | String c s' =>
      if Ascii.eqb c newline then "" :: split_lines s'
      else match split_lines s' with
           | l :: ls => String c l :: ls
           | [] => [String c ""]
           end
  end.

(** A text without a newline character. *)
Fixpoint one_line (s : string) : Prop :=
  match s with
  | "" => True
  | String c s' => c ≠ newline ∧ one_line s'
  end.

(** *** Runs of equal values *)

Section Runs.
Context {A : Type}.

(** Groups as [itertools.groupby] yields them: every group is non-empty
    and constant, and neighbouring groups have different keys. *)
Inductive runs_from : A → list (A * list A) → Prop :=
| runs_last k g :
    g ≠ [] → Forall (λ x, x = k) g → runs_from k [(k, g)]
| runs_more k g k' gs :
    g ≠ [] → Forall (λ x, x = k) g → k ≠ k' → runs_from k' gs →
    runs_from k ((k, g) :: gs).

(** Start positions of consecutive runs of the given lengths. *)
Fixpoint prefix_sums (n : nat) (ls : list nat) : list nat :=
  match ls with
  | [] => []
  | l :: ls' => n :: prefix_sums (n + l) ls'
  end.

Definition lens (gs : list (A * list A)) : list nat :=
  map (λ gl : A * list A, length gl.2) gs.

End Runs.

(** *** Keys, lines and paths of the export *)

(** The keys of a table made of blocks, the first of them numbered [i0]:
    every row of a block carries the number of the block. *)
Definition block_keys {R : Type} (i0 : nat) (blocks : list (list R)) : list Z :=
  concat (imap (λ i b, replicate (length b) (Z.of_nat (i0 + i))) blocks).

Section Files.
Import Algorithms Main.
Context (repr : Qc → string) (round4 : Qc → Qc).
Context (dir : string) (strftime : nat → string).

(** The line of the table for one frame. *)
Definition row_line (r : row) : string :=
  String.concat tab
    (repr <$> [0%Qc; 0%Qc; 0%Qc; round4 (DD r); round4 (DA r); round4 (AA r);
               round4 (S r); round4 (E r)]).

(** The path of the file of trace [n], the [n]-th file of an export. *)
Definition trace_path (n : nat) : string :=
  os_path_join dir
    ("trace_" +:+ str_int (Z.of_nat n) +:+ "_" +:+ strftime (2 * n) +:+ ".txt").

(** The path of the [j]-th file of an export, written for the group whose
    key is [idx]: its stamp is the answer to the call [2 * j] of
    [time.strftime]. *)
Definition file_path (j : nat) (idx : Z) : string :=
  os_path_join dir
    ("trace_" +:+ str_int idx +:+ "_" +:+ strftime (2 * j) +:+ ".txt").

End Files.

(** *** Floats

    What is used of the rounding of a decimal to the nearest double, which
    [float] performs and this embedding leaves out: it keeps the order,
    and 0 and 1 are doubles. *)
Definition rounding (rnd : Qc → Qc) : Prop :=
  (∀ x y, (x ≤ y)%Qc → (rnd x ≤ rnd y)%Qc) ∧
  rnd 0%Qc = 0%Qc ∧ rnd 1%Qc = 1%Qc.

(** *** Run-length coding *)

(** The array that a list of runs, each a value and its length, stands
    for. *)
Definition decode {A : Type} (runs : list (A * nat)) : list A :=
  flat_map (λ vl : A * nat, replicate vl.2 vl.1) runs.

(** *** Label codes and one-hot rows *)

(** The codes that have a name and a colour. *)
Definition known_label (v : Z) : Prop := (0 ≤ v ≤ 8)%Z.

Global Instance known_label_dec (v : Z) : Decision (known_label v).
Proof. unfold known_label. apply _. Defined.

(** The one-hot row of width [n] for the class [k]. *)
Definition one_hot (n k : nat) : list Z := <[k := 1%Z]> (replicate n 0%Z).

(** *** Pieces of a table *)

(** [blocks] are pieces of [L] rows each, the last one possibly shorter
    but not empty. *)
Fixpoint chunked {R : Type} (L : nat) (blocks : list (list R)) : Prop :=
  match blocks with
  | [] => True
  | b :: blocks' =>
      match blocks' with
      | [] => 0 < length b ≤ L
      | _ :: _ => length b = L ∧ chunked L blocks'
      end
  end.

(** *** Boxes that take part in the input *)

Section Widgets.
Import Main.

(** Two states of the widgets that differ at most in what the boxes hold
    that [refresh_ui] disables there, [inputMaxRandomStates] apart. *)
Definition same_enabled_input (u1 u2 : ui) : Prop :=
  let e := refresh_ui u1 in
  (examplesComboBox u1 = examplesComboBox u2 ∧
   inputNumberOfTraces u1 = inputNumberOfTraces u2 ∧
   inputTraceLength u1 = inputTraceLength u2 ∧
   inputScrambleProbability u1 = inputScrambleProbability u2 ∧
   inputAggregateProbability u1 = inputAggregateProbability u2 ∧
   inputMaxAggregateSize u1 = inputMaxAggregateSize u2 ∧
   inputBlinkingProbability u1 = inputBlinkingProbability u2 ∧
   inputMaxRandomStates u1 = inputMaxRandomStates u2) ∧
  (checkBoxRandomState u1 = checkBoxRandomState u2 ∧
   checkBoxDlifetime u1 = checkBoxDlifetime u2 ∧
   checkBoxALifetime u1 = checkBoxALifetime u2 ∧
   checkBoxTransitionProbability u1 = checkBoxTransitionProbability u2 ∧
   checkBoxNoise u1 = checkBoxNoise u2 ∧
   checkBoxMismatch u1 = checkBoxMismatch u2 ∧
   checkBoxBleedthrough u1 = checkBoxBleedthrough u2 ∧
   checkBoxScaler u1 = checkBoxScaler u2) ∧
  (inputTransitionProbabilityLo u1 = inputTransitionProbabilityLo u2 ∧
   inputNoiseLo u1 = inputNoiseLo u2 ∧
   inputMismatchLo u1 = inputMismatchLo u2 ∧
   inputBleedthroughLo u1 = inputBleedthroughLo u2 ∧
   inputScalerLo u1 = inputScalerLo u2) ∧
  (enDonorMeanLifetime e = true →
     inputDonorMeanLifetime u1 = inputDonorMeanLifetime u2) ∧
  (enAcceptorMeanLifetime e = true →
     inputAcceptorMeanLifetime u1 = inputAcceptorMeanLifetime u2) ∧
  (enTransitionProbabilityHi e = true →
     inputTransitionProbabilityHi u1 = inputTransitionProbabilityHi u2) ∧
  (enFretStateMeans e = true →
     inputFretStateMeans u1 = inputFretStateMeans u2) ∧
  (enNoiseHi e = true → inputNoiseHi u1 = inputNoiseHi u2) ∧
  (enMismatchHi e = true → inputMismatchHi u1 = inputMismatchHi u2) ∧
  (enScalerHi e = true → inputScalerHi u1 = inputScalerHi u2) ∧
  (enBleedthroughHi e = true →
     inputBleedthroughHi u1 = inputBleedthroughHi u2).

End Widgets.

(** *** Names of interface files *)

(** The last character of a text. *)
Definition last_char (s : string) : option ascii :=
  last (list_ascii_of_string s).

(** The text does not end in a point, a [u] or an [i]. *)
Definition clean_end (s : string) : Prop :=
  match last_char s with
  | Some c => c ∉ list_ascii_of_string ".ui"
  | None => True
  end.

(** The command that converts the interface file [stem.ui] into
    [stem.py]. *)
Definition command_for (stem : string) : string :=
  "exec python3 -m PyQt5.uic.pyuic " +:+ stem +:+ ".ui -o " +:+ stem +:+ ".py -x".

(** The commands run and the lines printed, each in their order. *)
Definition commands (evs : list UiBuild.event) : list string :=
  omap (λ e, match e with
             | UiBuild.System c => Some c
             | UiBuild.Print _ => None
             end) evs.

Definition printed (evs : list UiBuild.event) : list string :=
  omap (λ e, match e with
             | UiBuild.Print l => Some l
             | UiBuild.System _ => None
             end) evs.

End Spec.

(** ** Sample data *)

Module Examples.
Import Algorithms Main.

(** A window as the user may have set it: two fixed states, a noise range,
    no bleaching. *)
Definition ui0 : ui :=
  {| examplesComboBox := 2;
     inputNumberOfTraces := 4;
     inputTraceLength := 3;
     inputScrambleProbability := 0%Qc;
     inputAggregateProbability := 0%Qc;
     inputMaxAggregateSize := 2;
     checkBoxRandomState := false;
     inputFretStateMeans := "0.2 0.8";
     inputMaxRandomStates := 4;
     checkBoxDlifetime := true;
     inputDonorMeanLifetime := 400;
     checkBoxALifetime := true;
     inputAcceptorMeanLifetime := 200;
     inputBlinkingProbability := 0%Qc;
     checkBoxTransitionProbability := true;
     inputTransitionProbabilityLo := 0%Qc;
     inputTransitionProbabilityHi := Q2Qc (1 # 10);
     checkBoxNoise := false;
     inputNoiseLo := Q2Qc (1 # 100);
     inputNoiseHi := Q2Qc (3 # 10);
     checkBoxMismatch := true;
     inputMismatchLo := 0%Qc;
     inputMismatchHi := 0%Qc;
     checkBoxBleedthrough := true;
     inputBleedthroughLo := 0%Qc;
     inputBleedthroughHi := 0%Qc;
     checkBoxScaler := true;
     inputScalerLo := 1%Qc;
     inputScalerHi := 1%Qc |}.

(** The same window with the two noise boxes exchanged. *)
Definition ui_reversed_noise : ui :=
  {| examplesComboBox := 2;
     inputNumberOfTraces := 4;
     inputTraceLength := 3;
     inputScrambleProbability := 0%Qc;
     inputAggregateProbability := 0%Qc;
     inputMaxAggregateSize := 2;
     checkBoxRandomState := false;
     inputFretStateMeans := "0.2 0.8";
     inputMaxRandomStates := 4;
     checkBoxDlifetime := true;
     inputDonorMeanLifetime := 400;
     checkBoxALifetime := true;
     inputAcceptorMeanLifetime := 200;
     inputBlinkingProbability := 0%Qc;
     checkBoxTransitionProbability := true;
     inputTransitionProbabilityLo := 0%Qc;
     inputTransitionProbabilityHi := Q2Qc (1 # 10);
     checkBoxNoise := false;
     inputNoiseLo := Q2Qc (3 # 10);
     inputNoiseHi := Q2Qc (1 # 100);
     checkBoxMismatch := true;
     inputMismatchLo := 0%Qc;
     inputMismatchHi := 0%Qc;
     checkBoxBleedthrough := true;
     inputBleedthroughLo := 0%Qc;
     inputBleedthroughHi := 0%Qc;
     checkBoxScaler := true;
     inputScalerLo := 1%Qc;
     inputScalerHi := 1%Qc |}.

(** The inputs before the first [values_from_gui]. *)
Definition blank : Inputs :=
  MkInputs 0 0 0 0 None None 0 0%Qc 0%Qc 0%Qc (Fixed 0%Qc) (Fixed 0%Qc)
    (Fixed 0%Qc) (Fixed 0%Qc) (Fixed 0%Qc) RandomMeans.

Definition window_of (u : ui) : window :=
  Window u (values_from_gui u blank).1 [] [].

(** A sampling machinery that returns no rows and draws nothing. *)
Definition no_rows : arguments → Utils.rng → list row * Utils.rng :=
  λ _ g, ([], g).

(** A frame of trace [i] with the intensities [dd], [da], [aa]. *)
Definition row_of (i f : nat) (dd da aa : Qc) : row :=
  Row i f dd da aa (da / (dd + da))%Qc (Q2Qc (1 # 2))
    ((dd + da) / (dd + da + aa))%Qc 5 None None.

(** Two traces of three frames each, trace after trace. *)
Definition table0 : list row :=
  [row_of 0 0 (Q2Qc (10 # 1)) (Q2Qc (10 # 1)) (Q2Qc (20 # 1));
   row_of 0 1 (Q2Qc (12 # 1)) (Q2Qc (8 # 1)) (Q2Qc (20 # 1));
   row_of 0 2 (Q2Qc (11 # 1)) (Q2Qc (9 # 1)) (Q2Qc (21 # 1));
   row_of 1 0 (Q2Qc (5 # 1)) (Q2Qc (15 # 1)) (Q2Qc (20 # 1));
   row_of 1 1 (Q2Qc (4 # 1)) (Q2Qc (16 # 1)) (Q2Qc (19 # 1));
   row_of 1 2 (Q2Qc (6 # 1)) (Q2Qc (14 # 1)) (Q2Qc (20 # 1))].

(** A stand-in for the way [to_csv] writes a number: numerator, a slash,
    denominator. *)
Definition repr_fraction (q : Qc) : string :=
  pretty (Qnum q) +:+ "/" +:+ pretty (Z.pos (Qden q)).

(** Rounding to the nearest integer, halves to the even neighbour. *)
Definition round_half_even (q : Qc) : Z :=
  let f := Qfloor q in
  let r := (q - Qc_of_Z f)%Qc in
  if decide (r < Q2Qc (1 # 2))%Qc then f
  else if decide (Q2Qc (1 # 2) < r)%Qc then (f + 1)%Z
  else if Z.even f then f else (f + 1)%Z.

(** A stand-in for [.round(4)]: the nearest whole number of
    ten-thousandths of the exact value. *)
Definition round4 (q : Qc) : Qc :=
  (Qc_of_Z (round_half_even (q * Qc_of_Z 10000)) / Qc_of_Z 10000)%Qc.

(** A coarse rounding: what lies between 0.9 and 1 goes to 1. *)
Definition snap (q : Qc) : Qc :=
  if decide (Q2Qc (9 # 10) < q ∧ q < 1)%Qc then 1%Qc else q.

(** A clock that stands still: the stamp for the file name on even calls,
    the date for the header on odd ones. *)
Definition clock (k : nat) : string :=
  if Nat.even k then "20240101_1200" else "2024-01-01, 12:00".

(** A generator that returns the sample table. *)
Definition sample_table : arguments → Utils.rng → result (list row) * Utils.rng :=
  λ _ g, (Ok table0, g).

(** The widgets [u] with another entry of the examples box. *)
Definition with_examples (k : Z) (u : ui) : ui :=
  {| examplesComboBox := k;
     inputNumberOfTraces := inputNumberOfTraces u;
     inputTraceLength := inputTraceLength u;
     inputScrambleProbability := inputScrambleProbability u;
     inputAggregateProbability := inputAggregateProbability u;
     inputMaxAggregateSize := inputMaxAggregateSize u;
     checkBoxRandomState := checkBoxRandomState u;
     inputFretStateMeans := inputFretStateMeans u;
     inputMaxRandomStates := inputMaxRandomStates u;
     checkBoxDlifetime := checkBoxDlifetime u;
     inputDonorMeanLifetime := inputDonorMeanLifetime u;
     checkBoxALifetime := checkBoxALifetime u;
     inputAcceptorMeanLifetime := inputAcceptorMeanLifetime u;
     inputBlinkingProbability := inputBlinkingProbability u;
     checkBoxTransitionProbability := checkBoxTransitionProbability u;
     inputTransitionProbabilityLo := inputTransitionProbabilityLo u;
     inputTransitionProbabilityHi := inputTransitionProbabilityHi u;
     checkBoxNoise := checkBoxNoise u;
     inputNoiseLo := inputNoiseLo u;
     inputNoiseHi := inputNoiseHi u;
     checkBoxMismatch := checkBoxMismatch u;
     inputMismatchLo := inputMismatchLo u;
     inputMismatchHi := inputMismatchHi u;
     checkBoxBleedthrough := checkBoxBleedthrough u;
     inputBleedthroughLo := inputBleedthroughLo u;
     inputBleedthroughHi := inputBleedthroughHi u;
     checkBoxScaler := checkBoxScaler u;
     inputScalerLo := inputScalerLo u;
     inputScalerHi := inputScalerHi u |}.

(** The widgets [u] with another text in the field of the state means. *)
Definition with_means (txt : string) (u : ui) : ui :=
  {| examplesComboBox := examplesComboBox u;
     inputNumberOfTraces := inputNumberOfTraces u;
     inputTraceLength := inputTraceLength u;
     inputScrambleProbability := inputScrambleProbability u;
     inputAggregateProbability := inputAggregateProbability u;
     inputMaxAggregateSize := inputMaxAggregateSize u;
     checkBoxRandomState := checkBoxRandomState u;
     inputFretStateMeans := txt;
     inputMaxRandomStates := inputMaxRandomStates u;
     checkBoxDlifetime := checkBoxDlifetime u;
     inputDonorMeanLifetime := inputDonorMeanLifetime u;
     checkBoxALifetime := checkBoxALifetime u;
     inputAcceptorMeanLifetime := inputAcceptorMeanLifetime u;
     inputBlinkingProbability := inputBlinkingProbability u;
     checkBoxTransitionProbability := checkBoxTransitionProbability u;
     inputTransitionProbabilityLo := inputTransitionProbabilityLo u;
     inputTransitionProbabilityHi := inputTransitionProbabilityHi u;
     checkBoxNoise := checkBoxNoise u;
     inputNoiseLo := inputNoiseLo u;
     inputNoiseHi := inputNoiseHi u;
     checkBoxMismatch := checkBoxMismatch u;
     inputMismatchLo := inputMismatchLo u;
     inputMismatchHi := inputMismatchHi u;
     checkBoxBleedthrough := checkBoxBleedthrough u;
     inputBleedthroughLo := inputBleedthroughLo u;
     inputBleedthroughHi := inputBleedthroughHi u;
     checkBoxScaler := checkBoxScaler u;
     inputScalerLo := inputScalerLo u;
     inputScalerHi := inputScalerHi u |}.

(** The widgets [u] with other numbers in the two lifetime boxes and in
    the upper boxes of the transition probability, the mismatch, the
    scaling factor and the bleed-through. *)
Definition with_upper_boxes (life : Z) (hi : Qc) (u : ui) : ui :=
  {| examplesComboBox := examplesComboBox u;
     inputNumberOfTraces := inputNumberOfTraces u;
     inputTraceLength := inputTraceLength u;
     inputScrambleProbability := inputScrambleProbability u;
     inputAggregateProbability := inputAggregateProbability u;
     inputMaxAggregateSize := inputMaxAggregateSize u;
     checkBoxRandomState := checkBoxRandomState u;
     inputFretStateMeans := inputFretStateMeans u;
     inputMaxRandomStates := inputMaxRandomStates u;
     checkBoxDlifetime := checkBoxDlifetime u;
     inputDonorMeanLifetime := life;
     checkBoxALifetime := checkBoxALifetime u;
     inputAcceptorMeanLifetime := life;
     inputBlinkingProbability := inputBlinkingProbability u;
     checkBoxTransitionProbability := checkBoxTransitionProbability u;
     inputTransitionProbabilityLo := inputTransitionProbabilityLo u;
     inputTransitionProbabilityHi := hi;
     checkBoxNoise := checkBoxNoise u;
     inputNoiseLo := inputNoiseLo u;
     inputNoiseHi := inputNoiseHi u;
     checkBoxMismatch := checkBoxMismatch u;
     inputMismatchLo := inputMismatchLo u;
     inputMismatchHi := hi;
     checkBoxBleedthrough := checkBoxBleedthrough u;
     inputBleedthroughLo := inputBleedthroughLo u;
     inputBleedthroughHi := hi;
     checkBoxScaler := checkBoxScaler u;
     inputScalerLo := inputScalerLo u;
     inputScalerHi := hi |}.

(** The widgets [u] with other numbers of traces and of frames. *)
Definition with_sizes (n len : Z) (u : ui) : ui :=
  {| examplesComboBox := examplesComboBox u;
     inputNumberOfTraces := n;
     inputTraceLength := len;
     inputScrambleProbability := inputScrambleProbability u;
     inputAggregateProbability := inputAggregateProbability u;
     inputMaxAggregateSize := inputMaxAggregateSize u;
     checkBoxRandomState := checkBoxRandomState u;
     inputFretStateMeans := inputFretStateMeans u;
     inputMaxRandomStates := inputMaxRandomStates u;
     checkBoxDlifetime := checkBoxDlifetime u;
     inputDonorMeanLifetime := inputDonorMeanLifetime u;
     checkBoxALifetime := checkBoxALifetime u;
     inputAcceptorMeanLifetime := inputAcceptorMeanLifetime u;
     inputBlinkingProbability := inputBlinkingProbability u;
     checkBoxTransitionProbability := checkBoxTransitionProbability u;
     inputTransitionProbabilityLo := inputTransitionProbabilityLo u;
     inputTransitionProbabilityHi := inputTransitionProbabilityHi u;
     checkBoxNoise := checkBoxNoise u;
     inputNoiseLo := inputNoiseLo u;
     inputNoiseHi := inputNoiseHi u;
     checkBoxMismatch := checkBoxMismatch u;
     inputMismatchLo := inputMismatchLo u;
     inputMismatchHi := inputMismatchHi u;
     checkBoxBleedthrough := checkBoxBleedthrough u;
     inputBleedthroughLo := inputBleedthroughLo u;
     inputBleedthroughHi := inputBleedthroughHi u;
     checkBoxScaler := checkBoxScaler u;
     inputScalerLo := inputScalerLo u;
     inputScalerHi := inputScalerHi u |}.

End Examples.

(** * Properties *)

(** ** [min_none] *)

Example min_none_both : Utils.min_none [Some 7; Some 3]%Z = Ok (Some 3%Z).
Proof. reflexivity. Qed.

Example min_none_empty : Utils.min_none [] = Raise ValueError.
Proof. reflexivity. Qed.

(** On the two per-channel bleach frames, [min_none] is the smaller frame
    when both channels bleach, and [None] as soon as one of them is [None]. *)
Lemma min_none_pair (d a : option Z) :
  Utils.min_none [d; a] =
  Ok (match d, a with
      | Some x, Some y => Some (Z.min x y)
      | _, _ => None
      end).
Proof.
  destruct d as [x|], a as [y|]; try reflexivity.
  unfold Utils.min_none; simpl.
  destruct (Z.ltb_spec y x); do 2 f_equal; lia.
Qed.

(** C1. A trace whose donor bleaches at frame 5 and whose acceptor never
    bleaches gets [None] from [min_none], in either order of the channels,
    while the documented behaviour ("None if all elements are None") and
    the specification ("the earlier of the two channel bleach times sets
    [_bleaches_at]") give frame 5: the earlier bleach time is returned only
    when both channels bleach (lemma [min_none_pair]). *)
Theorem min_none_one_channel_bleaches :
  Utils.min_none [Some 5%Z; None] = Ok None ∧
  Utils.min_none [None; Some 5%Z] = Ok None ∧
  Utils.min_none_documented [Some 5%Z; None] = Some 5%Z ∧
  Utils.min_none_documented [None; Some 5%Z] = Some 5%Z.
Proof. repeat split. Qed.

(** ** [count_adjacent_values] *)

Example count_adjacent_values_ex :
  Utils.count_adjacent_values [4; 4; 0; 0; 0; 5]%Z = ([0; 2; 5], [2; 3; 1]).
Proof. reflexivity. Qed.

Section CountAdjacentFacts.
Context {A : Type} `{EqDecision A}.
Import Utils Spec.

Lemma runs_from_head (k k' : A) g gs :
  runs_from k ((k', g) :: gs) → k = k' ∧ g ≠ [] ∧ Forall (λ x, x = k') g.
Proof. by inversion 1; subst. Qed.

Lemma groupby_from_runs (l : list A) : ∀ k g,
  g ≠ [] → Forall (λ x, x = k) g →
  runs_from k (groupby_from k g l) ∧
  concat (map snd (groupby_from k g l)) = g ++ l.
Proof.
  induction l as [|x l IH]; intros k g Hne Hall; simpl.
  - split; [by constructor | by rewrite app_nil_r].
  - destruct (decide (x = k)) as [->|Hx].
    + destruct (IH k (g ++ [k])) as [Hr Hc].
      * by destruct g.
      * apply Forall_app; split; [done | by constructor].
      * split; [done |]. by rewrite Hc, <- app_assoc.
    + destruct (IH x [x]) as [Hr Hc]; [done | by constructor |].
      split; [by apply (runs_more k g x) |]. simpl. by rewrite Hc.
Qed.

Lemma groupby_runs (x : A) (l : list A) :
  runs_from x (groupby (x :: l)) ∧ concat (map snd (groupby (x :: l))) = x :: l.
Proof. apply (groupby_from_runs l x [x]); [done | by constructor]. Qed.

Lemma prefix_sums_snoc ls : ∀ n l,
  prefix_sums n (ls ++ [l]) = prefix_sums n ls ++ [n + sum_list ls].
Proof.
  induction ls as [|l0 ls IH]; intros n l; simpl.
  - f_equal. lia.
  - rewrite IH. do 3 f_equal. lia.
Qed.

Lemma length_prefix_sums ls : ∀ n, length (prefix_sums n ls) = length ls.
Proof. induction ls; intros; simpl; auto. Qed.

Lemma sum_lens_concat (gs : list (A * list A)) :
  sum_list (lens gs) = length (concat (map snd gs)).
Proof.
  unfold lens.
  induction gs as [|[k g] gs IH]; simpl; [done |].
  rewrite length_app. by f_equal.
Qed.

(** The loop never slices past the end of the array, so it records the
    group lengths themselves and their running sums. *)
Lemma fold_count_step (arr : list A) (gs : list (A * list A)) : ∀ n starts lengths,
  n + sum_list (lens gs) ≤ length arr →
  fold_left (count_step arr) (map (λ gl : A * list A, (gl.1, length gl.2)) gs)
    (n, starts, lengths) =
  (n + sum_list (lens gs), starts ++ prefix_sums n (lens gs), lengths ++ lens gs).
Proof.
  induction gs as [|[k g] gs IH]; intros n starts lengths Hle; simpl in *.
  - by rewrite Nat.add_0_r, !app_nil_r.
  - unfold slice. rewrite length_take, length_drop.
    replace (n + length g - n) with (length g) by lia.
    rewrite Nat.min_l by lia.
    rewrite IH by lia.
    by rewrite <- !app_assoc, Nat.add_assoc.
Qed.

Lemma count_adjacent_values_groups (arr : list A) :
  count_adjacent_values arr =
  (prefix_sums 0 (lens (groupby arr)), lens (groupby arr)).
Proof.
  unfold count_adjacent_values.
  rewrite fold_count_step; [done |].
  rewrite sum_lens_concat. destruct arr as [|x l]; [done |].
  by rewrite (proj2 (groupby_runs x l)).
Qed.

(** The [i]-th run: where it starts, what it holds, and where the next one
    starts. [pre] is the part of the array before the first group. *)
Lemma runs_lookup (gs : list (A * list A)) : ∀ k0 (pre : list A) i s,
  runs_from k0 gs →
  prefix_sums (length pre) (lens gs) !! i = Some s →
  ∃ k l,
    lens gs !! i = Some l ∧ 0 < l ∧
    (∀ j, j < l → (pre ++ concat (map snd gs)) !! (s + j) = Some k) ∧
    (∀ s', prefix_sums (length pre) (lens gs) !! S i = Some s' →
       s' = s + l ∧ (pre ++ concat (map snd gs)) !! s' ≠ Some k).
Proof.
  induction gs as [|[k g] gs IH]; intros k0 pre i s Hr Hs; [inversion Hr |].
  destruct (runs_from_head _ _ _ _ Hr) as (_ & Hne & Hall).
  assert (Hin : ∀ j, j < length g →
          (pre ++ concat (map snd ((k, g) :: gs))) !! (length pre + j) = Some k).
  { intros j Hj. simpl. rewrite lookup_app_r by lia.
    replace (length pre + j - length pre) with j by lia.
    rewrite lookup_app_l by done.
    destruct (lookup_lt_is_Some_2 g j Hj) as [x Hx]. rewrite Hx.
    f_equal. eapply Forall_lookup_1 in Hall; eauto. }
  destruct i as [|i]; simpl in Hs.
  - injection Hs as <-. exists k, (length g).
    split; [done |]. split; [destruct g; [done | simpl; lia] |].
    split; [done |]. intros s' Hs'.
    destruct gs as [|[k' g'] gs]; simpl in Hs'; [done |].
    injection Hs' as <-. split; [done |].
    inversion Hr as [| ? ? ? ? _ _ Hkk' Hr']; subst.
    destruct (runs_from_head _ _ _ _ Hr') as (-> & Hne' & Hall'). simpl.
    rewrite lookup_app_r by lia.
    replace (length pre + length g - length pre) with (length g) by lia.
    rewrite lookup_app_r by lia. rewrite Nat.sub_diag.
    destruct g' as [|y g']; [done |]. simpl.
    inversion Hall'; subst. congruence.
  - inversion Hr; subst; [done |].
    match goal with Hr' : runs_from _ gs |- _ =>
      destruct (IH _ (pre ++ g) i s Hr') as (k1 & l & Hl & Hpos & Hrun & Hnext) end.
    { by rewrite length_app. }
    exists k1, l. split; [done |]. split; [done |].
    simpl. rewrite !length_app in *. rewrite <- !app_assoc in *. split; [done |].
    intros s' Hs'. by apply Hnext.
Qed.

End CountAdjacentFacts.

(** C9. For a non-empty array, [count_adjacent_values] returns as many
    starts as lengths; the first run starts at 0, every next run starts
    where the previous one ends, the lengths add up to the length of the
    array, every run is non-empty and holds one value throughout, and the
    runs are maximal: the element that starts the next run differs. *)
Theorem count_adjacent_values_partition {A : Type} `{EqDecision A}
    (arr : list A) (starts lengths : list nat) :
  arr ≠ [] →
  Utils.count_adjacent_values arr = (starts, lengths) →
  length starts = length lengths ∧
  starts !! 0 = Some 0 ∧
  (∀ i s l s', starts !! i = Some s → lengths !! i = Some l →
     starts !! S i = Some s' → s' = s + l) ∧
  sum_list lengths = length arr ∧
  (∀ i s l, starts !! i = Some s → lengths !! i = Some l →
     0 < l ∧ ∃ v, ∀ j, j < l → arr !! (s + j) = Some v) ∧
  (∀ i s s', starts !! i = Some s → starts !! S i = Some s' →
     arr !! s ≠ arr !! s').
Proof.
  intros Hne Hcav. rewrite count_adjacent_values_groups in Hcav.
  injection Hcav as <- <-.
  destruct arr as [|x l0]; [done |]. clear Hne.
  destruct (groupby_runs x l0) as [Hr Hc].
  set (gs := Utils.groupby (x :: l0)) in *.
  assert (Hlook := λ i s, runs_lookup gs x [] i s Hr).
  simpl in Hlook. rewrite Hc in Hlook.
  split; [apply length_prefix_sums |].
  split; [inversion Hr; done |].
  split.
  { intros i s l s' Hs Hl Hs'.
    destruct (Hlook i s Hs) as (k & l' & Hl' & _ & _ & Hnext).
    rewrite Hl in Hl'. injection Hl' as <-. by apply Hnext. }
  split; [by rewrite sum_lens_concat, Hc |].
  split.
  { intros i s l Hs Hl.
    destruct (Hlook i s Hs) as (k & l' & Hl' & Hpos & Hrun & _).
    rewrite Hl in Hl'. injection Hl' as <-. split; [done |]. by exists k. }
  intros i s s' Hs Hs'.
  destruct (Hlook i s Hs) as (k & l & _ & Hpos & Hrun & Hnext).
  destruct (Hnext s' Hs') as [_ Hdiff].
  specialize (Hrun 0 Hpos). rewrite Nat.add_0_r in Hrun. congruence.
Qed.

(** The array [4 4 0 0 0 5] has three runs. *)
Lemma count_adjacent_values_partition_witness :
  let arr := [4; 4; 0; 0; 0; 5]%Z in
  length [0; 2; 5] = length [2; 3; 1] ∧
  [0; 2; 5] !! 0 = Some 0 ∧
  (∀ i s l s', [0; 2; 5] !! i = Some s → [2; 3; 1] !! i = Some l →
     [0; 2; 5] !! S i = Some s' → s' = s + l) ∧
  sum_list [2; 3; 1] = length arr ∧
  (∀ i s l, [0; 2; 5] !! i = Some s → [2; 3; 1] !! i = Some l →
     0 < l ∧ ∃ v, ∀ j, j < l → arr !! (s + j) = Some v) ∧
  (∀ i s s', [0; 2; 5] !! i = Some s → [0; 2; 5] !! S i = Some s' →
     arr !! s ≠ arr !! s').
Proof.
  apply (count_adjacent_values_partition [4; 4; 0; 0; 0; 5]%Z); [done | reflexivity].
Defined.

(** ** [plot_category] *)

Example plot_category_ex :
  Utils.plot_category (Utils.Categorical [5; 5; 0; 0]%Z) 1%Qc =
  Ok (Utils.Drawing [Utils.Span 0 2 1%Qc "lightgreen"; Utils.Span 2 4 1%Qc "darkgrey"]
        "2-state" "lightgreen").
Proof. compute_done. Qed.

Lemma cls_lookup_is_Some (n : Z) : is_Some (Utils.cls !! n) ↔ (0 ≤ n ≤ 8)%Z.
Proof.
  split.
  - intros [name Hn]. unfold Utils.cls in Hn. simpl in Hn.
    repeat (apply lookup_insert_Some in Hn as [[<- _]|[_ Hn]]; [lia |]).
    by rewrite lookup_empty in Hn.
  - intros Hn.
    assert (n = 0 ∨ n = 1 ∨ n = 2 ∨ n = 3 ∨ n = 4 ∨ n = 5 ∨ n = 6 ∨
            n = 7 ∨ n = 8)%Z as Hcases by lia.
    repeat (destruct Hcases as [->|Hcases]; [by eexists |]).
    subst. by eexists.
Qed.

(** ** [numstring_to_ls] *)

Example numstring_to_ls_ex1 :
  Utils.numstring_to_ls "0.2 0.8" = Ok [Q2Qc (1 # 5); Q2Qc (4 # 5)].
Proof. compute_done. Qed.

Example numstring_to_ls_ex2 : Utils.numstring_to_ls "12.5" = Ok [Q2Qc (1 # 2)].
Proof. compute_done. Qed.

Example numstring_to_ls_ex3 : Utils.numstring_to_ls "2" = Raise ValueError.
Proof. reflexivity. Qed.

Section FindallFacts.
Import Py.

Lemma span_app p s pre rest : span p s = (pre, rest) → s = pre ++ rest.
Proof.
  revert pre rest. induction s as [|c s IH]; intros pre rest; simpl.
  - by intros [= <- <-].
  - destruct (p c); [| by intros [= <- <-]].
    destruct (span p s) as [pre' rest']. intros [= <- <-].
    simpl. f_equal. by apply IH.
Qed.

(** A greedy run stops exactly where the characters stop satisfying [p]. *)
Lemma span_run p ds rest :
  Forall (λ c, p c = true) ds →
  (∀ c rest', rest = c :: rest' → p c = false) →
  span p (ds ++ rest) = (ds, rest).
Proof.
  intros Hds Hrest. induction Hds as [|c ds Hc _ IH]; simpl.
  - destruct rest as [|c rest']; simpl; [done |]. by rewrite (Hrest c rest').
  - by rewrite Hc, IH.
Qed.

Lemma span_none p c s : p c = false → span p (c :: s) = ([], c :: s).
Proof. intros Hc. simpl. by rewrite Hc. Qed.

Lemma match_fraction_shorter s grp rest :
  match_fraction s = (grp, rest) → length rest ≤ length s.
Proof.
  destruct s as [|c s]; simpl; [by intros [= <- <-] |].
  destruct (Ascii.eqb c dot); [| by intros [= <- <-]].
  destruct (span is_digit s) as [ds r] eqn:Hspan.
  apply span_app in Hspan as ->.
  destruct ds; intros [= <- <-]; simpl; rewrite ?length_app; simpl; lia.
Qed.

(** A match is never empty. *)
Lemma match_number_shorter s grp rest :
  match_number s = Some (grp, rest) → length rest < length s.
Proof.
  unfold match_number.
  destruct (span is_digit s) as [ds r1] eqn:Hspan.
  apply span_app in Hspan as ->.
  destruct ds as [|d ds]; [done |].
  destruct (match_fraction r1) as [g r2] eqn:Hfrac.
  apply match_fraction_shorter in Hfrac.
  destruct (span is_space r2) as [ws r3] eqn:Hws.
  apply span_app in Hws as ->.
  intros [= <- <-]. rewrite !length_app in *. simpl. lia.
Qed.

(** More fuel than the length of the text changes nothing. *)
Lemma findall_fuel_enough fuel : ∀ s,
  length s ≤ fuel → findall_fuel fuel s = findall s.
Proof.
  unfold findall.
  induction fuel as [fuel IH] using lt_wf_ind. intros s Hlen.
  destruct s as [|c s]; [by destruct fuel |].
  destruct fuel as [|fuel]; [simpl in Hlen; lia |].
  simpl in *. destruct (match_number (c :: s)) as [[grp rest]|] eqn:Hm.
  - apply match_number_shorter in Hm. simpl in Hm.
    f_equal. rewrite (IH fuel), (IH (length s)); auto; lia.
  - rewrite (IH fuel); auto; lia.
Qed.

Lemma findall_match s grp rest :
  match_number s = Some (grp, rest) → findall s = grp :: findall rest.
Proof.
  intros Hm. pose proof (match_number_shorter _ _ _ Hm) as Hlen.
  destruct s as [|c s]; [done |].
  unfold findall at 1. simpl in *. rewrite Hm.
  f_equal. apply findall_fuel_enough. lia.
Qed.

Lemma findall_skip_char c s :
  is_digit c = false → findall (c :: s) = findall s.
Proof.
  intros Hc. unfold findall at 1. simpl.
  unfold match_number. rewrite span_none by done.
  by apply findall_fuel_enough.
Qed.

(** Text without digits contributes no match. *)
Lemma findall_skip pre s :
  Forall (λ c, is_digit c = false) pre → findall (pre ++ s) = findall s.
Proof.
  induction 1 as [|c pre Hc _ IH]; [done |].
  simpl. by rewrite findall_skip_char.
Qed.

Lemma is_space_not_digit c : is_space c = true → is_digit c = false.
Proof.
  unfold is_space, is_digit. intros Hs.
  apply andb_false_iff. apply orb_true_iff in Hs.
  rewrite !andb_true_iff, !Nat.leb_le in Hs. rewrite !Nat.leb_gt. lia.
Qed.

Lemma span_all p s pre rest :
  span p s = (pre, rest) → Forall (λ c, p c = true) pre.
Proof.
  revert pre rest. induction s as [|c s IH]; intros pre rest; simpl.
  - by intros [= <- <-].
  - destruct (p c) eqn:Hc; [| by intros [= <- <-]].
    destruct (span p s) as [pre' rest']. intros [= <- <-].
    constructor; [done |]. by eapply IH.
Qed.

(** One literal followed by its separator: the match reports the fraction
    with its point, whatever the integer part is. *)
Lemma findall_literal ip fp sep rest :
  Spec.digits ip → Spec.digits fp → Spec.digit_free sep →
  sep ≠ [] ∨ rest = [] →
  findall (ip ++ dot :: fp ++ sep ++ rest) = (dot :: fp) :: findall rest.
Proof.
  intros [Hip_ne Hip] [Hfp_ne Hfp] Hsep Hlast.
  assert (Hhead : ∀ c r, sep ++ rest = c :: r → is_digit c = false).
  { intros c r Heq. destruct sep as [|c' sep'].
    - destruct Hlast as [? | ->]; done.
    - injection Heq as -> _. by inversion Hsep. }
  destruct (span is_space (sep ++ rest)) as [ws r3] eqn:Hws.
  rewrite (findall_match _ (dot :: fp) r3).
  - f_equal. rewrite <- (findall_skip sep rest) by done.
    rewrite (span_app _ _ _ _ Hws). symmetry. apply findall_skip.
    eapply Forall_impl; [by eapply span_all |]. apply is_space_not_digit.
  - unfold match_number.
    rewrite (span_run is_digit ip) by (done || by intros ? ? [= <- _]).
    destruct ip as [|d ip]; [done |].
    unfold match_fraction. rewrite Ascii.eqb_refl.
    rewrite (span_run is_digit fp) by done.
    destruct fp as [|f fp]; [done |]. by rewrite Hws.
Qed.

Lemma float_fraction fp :
  Spec.digits fp → float (dot :: fp) = Ok (decimal [] fp).
Proof.
  intros [Hne Hfp]. unfold float.
  rewrite span_none by done. rewrite Ascii.eqb_refl.
  rewrite <- (app_nil_r fp) at 1. rewrite (span_run is_digit fp) by done.
  by destruct fp.
Qed.

(** [float] reads a whole literal as the value it is written to have. *)
Lemma float_literal l :
  Spec.well_written l → float (Spec.literal_text l) = Ok (Spec.written_value l).
Proof.
  destruct l as [ip fp]. intros [[Hip_ne Hip] [Hfp_ne Hfp]].
  unfold float, Spec.literal_text, Spec.written_value. simpl.
  rewrite (span_run is_digit ip) by (done || by intros ? ? [= <- _]).
  rewrite Ascii.eqb_refl.
  rewrite <- (app_nil_r fp) at 1. rewrite (span_run is_digit fp) by done.
  by destruct ip, fp.
Qed.

Lemma digits_value_zeros ip :
  Forall (λ c, c = "0"%char) ip → digits_value ip = 0%Z.
Proof.
  unfold digits_value. induction 1 as [|c ip -> _ IH]; [done |]. simpl. apply IH.
Qed.

Lemma decimal_integer_part_zero l :
  Spec.integer_part_zero l →
  decimal [] (Spec.frac_part l) = Spec.written_value l.
Proof.
  intros Hz. unfold Spec.written_value, decimal.
  by rewrite (digits_value_zeros _ Hz).
Qed.

Lemma numstring_to_ls_items items : ∀ pre,
  Spec.digit_free pre → Spec.separated items →
  Forall (λ l, Spec.well_written l ∧ Spec.integer_part_zero l) items.*1 →
  traverse float (findall (pre ++ Spec.input_text items))
  = Ok (Spec.written_value <$> items.*1).
Proof.
  induction items as [|[[ip fp] sep] items IH]; intros pre Hpre Hsep Hall.
  - simpl. rewrite app_nil_r.
    rewrite <- (app_nil_r pre), findall_skip by done. done.
  - rewrite findall_skip by done. simpl in *.
    destruct Hsep as (Hfree & Hlast & Hsep).
    inversion Hall as [|? ? [[Hip Hfp] Hz] Hall']; subst. simpl in *.
    unfold Spec.literal_text. simpl. rewrite <- app_assoc. simpl.
    rewrite findall_literal; try done.
    + simpl. rewrite float_fraction by done. simpl.
      specialize (IH [] (List.Forall_nil _) Hsep Hall'). simpl in IH.
      rewrite IH. simpl.
      by rewrite <- (decimal_integer_part_zero (Spec.Literal ip fp)).
    + destruct Hlast as [? | ->]; [by left | by right].
Qed.

End FindallFacts.



(** ** The generation call *)

Section GenerationFacts.
Import Algorithms Main.

Lemma set_traces_arguments_pinned (i : Inputs) (n : Z) :
  Spec.pinned (set_traces_arguments i n).
Proof.
  repeat split; simpl; apply Qc_is_canon; reflexivity.
Qed.

Lemma set_traces_ext gen1 gen2 (w : window) (n : Z) (g : Utils.rng) :
  (∀ a g, Spec.pinned a → gen1 a g = gen2 a g) →
  set_traces gen1 w n g = set_traces gen2 w n g.
Proof.
  intros Hgen. unfold set_traces.
  by rewrite Hgen by apply set_traces_arguments_pinned.
Qed.

Lemma elem_of_insert_unique (x y : Qc) (l : list Qc) :
  x ∈ insert_unique y l ↔ x = y ∨ x ∈ l.
Proof.
  induction l as [|z l IH]; simpl.
  - rewrite !elem_of_cons. tauto.
  - repeat case_decide; subst; rewrite !elem_of_cons, ?IH; tauto.
Qed.

Lemma elem_of_np_unique (x : Qc) (l : list Qc) : x ∈ np_unique l ↔ x ∈ l.
Proof.
  unfold np_unique. induction l as [|y l IH]; simpl; [done |].
  rewrite elem_of_insert_unique, IH, elem_of_cons. tauto.
Qed.

Lemma elem_of_fret_states (x : Qc) (trace : list row) :
  x ∈ fret_states trace ↔ x ∈ E_true <$> trace ∧ x ≠ (- 1)%Qc.
Proof.
  unfold fret_states. rewrite list_elem_of_filter, elem_of_np_unique. tauto.
Qed.

End GenerationFacts.

(** C10. The arguments that [set_traces] passes have
    [discard_unbleached=False], [null_fret_value=-1], [min_state_diff=0.2]
    and [acceptable_noise=0.25]; the two handlers that generate traces,
    [refresh_plots] and [export_traces_to_ascii], use the generator only on
    such arguments (two generators that agree there give the same runs), so
    they never ask it to discard unbleached traces; and the true FRET states
    of a preview panel are the values of [E_true] other than the
    [null_fret_value] of the call. *)
Theorem generation_policy_pinned :
  (∀ i n, Spec.pinned (Main.set_traces_arguments i n)) ∧
  (∀ gen1 gen2,
     (∀ a g, Spec.pinned a → gen1 a g = gen2 a g) →
     (∀ w g, Main.refresh_plots gen1 w g = Main.refresh_plots gen2 w g) ∧
     (∀ repr round4 outdir strftime w g disk,
        Main.export_traces_to_ascii gen1 repr round4 outdir strftime w g disk =
        Main.export_traces_to_ascii gen2 repr round4 outdir strftime w g disk)) ∧
  (∀ i n trace x,
     x ∈ Main.fret_states trace ↔
     x ∈ Algorithms.E_true <$> trace ∧
     x ≠ Algorithms.null_fret_value (Main.set_traces_arguments i n)).
Proof.
  split; [exact set_traces_arguments_pinned |]. split.
  - intros gen1 gen2 Hgen. split.
    + intros w g. unfold Main.refresh_plots.
      destruct (Main.values_from_gui _ _) as [i [[]|e]]; [| done].
      by rewrite (set_traces_ext gen1 gen2).
    + intros repr round4 outdir strftime w g disk. unfold Main.export_traces_to_ascii.
      by rewrite (set_traces_ext gen1 gen2).
  - intros i n trace x. apply elem_of_fret_states.
Qed.

(** Two generators that differ only when asked to discard unbleached
    traces are indistinguishable to [refresh_plots]. *)
Lemma generation_policy_pinned_witness :
  let gen1 : Algorithms.arguments → Utils.rng →
             result (list Algorithms.row) * Utils.rng :=
    λ a g, (Ok [], g) in
  let gen2 : Algorithms.arguments → Utils.rng →
             result (list Algorithms.row) * Utils.rng :=
    λ a g, if Algorithms.discard_unbleached a then (Raise ValueError, g)
           else (Ok [], g) in
  let w := Examples.window_of Examples.ui0 in
  let g := Utils.Rng 7 0 in
  Main.refresh_plots gen1 w g = Main.refresh_plots gen2 w g.
Proof.
  intros gen1 gen2 w g.
  destruct generation_policy_pinned as (_ & Hext & _).
  apply (Hext gen1 gen2).
  intros a g' (Hd & _). unfold gen1, gen2. by rewrite Hd.
Defined.

(** ** Invalid parameters *)

Section ConfigurationFacts.
Import Algorithms.

Lemma reversed_not_ordered p : Spec.reversed p → range_ordered p = false.
Proof.
  destruct p as [v|lo hi]; simpl; [done |]. intros Hlt.
  apply bool_decide_eq_false. by apply Qclt_not_le.
Qed.

Lemma not_probability_false q : Spec.not_probability q → is_probability q = false.
Proof.
  unfold is_probability. intros [Hneg|Hbig]; apply andb_false_iff.
  - left. apply bool_decide_eq_false. by apply Qclt_not_le.
  - right. apply bool_decide_eq_false. by apply Qclt_not_le.
Qed.

Lemma not_probabilities_false p :
  Spec.not_probabilities p → range_of_probabilities p = false.
Proof.
  destruct p as [v|lo hi]; simpl; [apply not_probability_false |].
  intros [H|H]; rewrite (not_probability_false _ H); by rewrite ?andb_false_r.
Qed.

Lemma invalid_not_ok a : Spec.invalid a → configuration_ok a = false.
Proof.
  unfold configuration_ok.
  intros [Hrev|[Hk|[Hprob|Hmeans]]].
  - destruct Hrev as [H|[H|[H|[H|H]]]];
      rewrite (reversed_not_ordered _ H); by rewrite ?andb_false_r.
  - rewrite (bool_decide_eq_false_2 (2 ≤ random_k_states_max a)%Z) by lia.
    by rewrite ?andb_false_r.
  - destruct Hprob as [H|[H|[H|H]]];
      [rewrite (not_probability_false _ H); by rewrite ?andb_false_r .. |].
    rewrite (not_probabilities_false _ H). by rewrite ?andb_false_r.
  - rewrite Hmeans. by rewrite ?andb_false_r.
Qed.

End ConfigurationFacts.

(** C3. A call with a reversed range, with [max_random_states] below 2,
    with an aggregation, scramble, blinking or transition probability
    outside [0,1], or with an empty list of state means fails with
    [ConfigurationError] whatever the sampling machinery is, with the random
    generator untouched and no table returned; raised through [set_traces],
    the error leaves the traces of the window as they were. *)
Theorem invalid_configuration_fails
    (sample : Algorithms.arguments → Utils.rng →
              list Algorithms.row * Utils.rng)
    (a : Algorithms.arguments) (g : Utils.rng) :
  Spec.invalid a →
  Algorithms.generate_traces sample a g = (Raise ConfigurationError, g) ∧
  ∀ w n, Main.set_traces_arguments (Main.inputs w) n = a →
    Main.set_traces (Algorithms.generate_traces sample) w n g
    = (w, g, Raise ConfigurationError).
Proof.
  intros Hinv.
  assert (Hgen : Algorithms.generate_traces sample a g
                 = (Raise ConfigurationError, g)).
  { unfold Algorithms.generate_traces. by rewrite invalid_not_ok. }
  split; [done |]. intros w n Ha. unfold Main.set_traces. by rewrite Ha, Hgen.
Qed.

(** The window whose noise boxes read 0.3 and 0.01: the range is reversed. *)
Lemma invalid_configuration_fails_witness :
  let w := Examples.window_of Examples.ui_reversed_noise in
  let g := Utils.Rng 7 0 in
  Main.set_traces (Algorithms.generate_traces Examples.no_rows) w 4 g
  = (w, g, Raise ConfigurationError).
Proof.
  intros w g.
  apply (invalid_configuration_fails Examples.no_rows
           (Main.set_traces_arguments (Main.inputs w) 4) g); [| reflexivity].
  left. do 3 right. left. reflexivity.
Defined.

(** ** [random_seed_mp] *)

Section SeedFacts.
Import Utils.

Lemma int_from_bytes_little_bounds (bs : list Byte.byte) :
  (0 ≤ int_from_bytes_little bs < 256 ^ Z.of_nat (length bs))%Z.
Proof.
  induction bs as [|b bs IH]; simpl; [lia |].
  pose proof (Byte.to_N_bounded b) as Hb.
  rewrite Nat2Z.inj_succ, Z.pow_succ_r by lia. lia.
Qed.

Lemma np_random_seed_Ok seed_val g :
  np_random_seed seed_val = Ok g ↔
  (0 ≤ seed_val < 2 ^ 32)%Z ∧ g = Rng seed_val 0.
Proof.
  unfold np_random_seed. case_decide; split.
  - by intros [= <-].
  - by intros [_ ->].
  - done.
  - by intros [? _].
Qed.

Lemma random_seed_mp_Ok verbose bs p p' :
  random_seed_mp verbose bs p = Ok p' →
  np_random p' = Rng (int_from_bytes_little bs) 0 ∧
  stdout p' =
    stdout p ++
    (if verbose
     then ["Random seed value: " +:+ pretty (int_from_bytes_little bs)]
     else []).
Proof.
  unfold random_seed_mp.
  destruct (np_random_seed _) as [g|e] eqn:Hseed; simpl; [| done].
  apply np_random_seed_Ok in Hseed as [_ ->].
  destruct verbose; intros [= <-]; simpl; by rewrite ?app_nil_r.
Qed.

Lemma seed_line_inj (s1 s2 : Z) :
  "Random seed value: " +:+ pretty s1 = "Random seed value: " +:+ pretty s2 →
  s1 = s2.
Proof. simpl. intros [= Heq]. by apply (inj pretty). Qed.

End SeedFacts.

(** ** Grouping the table for the export *)

Section GroupbyFacts.
Import Main Spec.
Context {R : Type}.
Implicit Types (acc : list (Z * list R)) (b rs : list R) (k : Z).

Local Abbreviation add := (λ gs (kr : Z * R), add_to_group kr.1 kr.2 gs).

Lemma add_to_group_new acc k r :
  Forall (λ g, g.1 < k)%Z acc → add_to_group k r acc = acc ++ [(k, [r])].
Proof.
  induction 1 as [|[k' rs'] acc Hk _ IH]; simpl in *; [done |].
  rewrite decide_False, decide_False by lia. by rewrite IH.
Qed.

Lemma add_to_group_last acc k rs r :
  Forall (λ g, g.1 < k)%Z acc →
  add_to_group k r (acc ++ [(k, rs)]) = acc ++ [(k, rs ++ [r])].
Proof.
  induction 1 as [|[k' rs'] acc Hk _ IH]; simpl in *.
  - by rewrite decide_True.
  - rewrite decide_False, decide_False by lia. by rewrite IH.
Qed.

Lemma fold_block_open b : ∀ acc k rs,
  Forall (λ g, g.1 < k)%Z acc →
  fold_left add (zip (replicate (length b) k) b) (acc ++ [(k, rs)])
  = acc ++ [(k, rs ++ b)].
Proof.
  induction b as [|r b IH]; intros acc k rs Hacc; simpl.
  - by rewrite app_nil_r.
  - rewrite add_to_group_last by done. rewrite IH by done.
    by rewrite <- app_assoc.
Qed.

(** The rows of one trace, all under a key larger than the keys so far, end
    up as one new group at the end. *)
Lemma fold_block b acc k :
  b ≠ [] → Forall (λ g, g.1 < k)%Z acc →
  fold_left add (zip (replicate (length b) k) b) acc = acc ++ [(k, b)].
Proof.
  intros Hb Hacc. destruct b as [|r b]; [done |]. simpl.
  rewrite add_to_group_new by done. by rewrite fold_block_open.
Qed.

Lemma block_keys_cons i0 b blocks :
  block_keys i0 (b :: blocks)
  = replicate (length b) (Z.of_nat i0) ++ block_keys (S i0) blocks.
Proof.
  unfold block_keys. rewrite imap_cons. simpl. rewrite Nat.add_0_r.
  do 2 f_equal. apply imap_ext. intros i x _. simpl. f_equal. lia.
Qed.

Lemma fold_blocks blocks : ∀ i0 acc,
  Forall (λ g, g.1 < Z.of_nat i0)%Z acc →
  Forall (λ b, b ≠ []) blocks →
  fold_left add (zip (block_keys i0 blocks) (concat blocks)) acc
  = acc ++ imap (λ i b, (Z.of_nat (i0 + i), b)) blocks.
Proof.
  induction blocks as [|b blocks IH]; intros i0 acc Hacc Hne.
  - simpl. by rewrite app_nil_r.
  - inversion Hne as [|? ? Hb Hne']; subst.
    rewrite block_keys_cons. simpl concat.
    rewrite zip_with_app by apply length_replicate.
    rewrite fold_left_app, fold_block by done.
    rewrite IH; [| | done].
    + rewrite imap_cons, <- app_assoc. simpl. rewrite Nat.add_0_r.
      do 2 f_equal. apply imap_ext. intros i x _. simpl. do 2 f_equal. lia.
    + apply Forall_app. split.
      * eapply Forall_impl; [exact Hacc |]. intros g Hg. simpl in *. lia.
      * constructor; [simpl; lia | constructor].
Qed.

(** The positions of a table made of blocks of [L] rows, divided by [L],
    number the blocks. *)
Lemma positional_index_blocks (L : nat) blocks : ∀ i0,
  0 < L → Forall (λ b, length b = L) blocks →
  (λ p, (Z.of_nat (i0 * L + p) / Z.of_nat L)%Z)
    <$> seq 0 (length (concat blocks))
  = block_keys i0 blocks.
Proof.
  induction blocks as [|b blocks IH]; intros i0 HL Hlen; [done |].
  inversion Hlen as [|? ? Hb Hlen']; subst.
  rewrite block_keys_cons. simpl concat. rewrite length_app.
  rewrite seq_app, fmap_app. f_equal.
  - apply list_eq. intros j. rewrite list_lookup_fmap.
    destruct (decide (j < length b)) as [Hj|Hj].
    + rewrite lookup_seq_lt, lookup_replicate_2 by done. simpl. f_equal.
      rewrite Nat2Z.inj_add, Nat2Z.inj_mul, Z.add_comm, Z.div_add by lia.
      rewrite Z.div_small by lia. lia.
    + rewrite lookup_seq_ge by lia. simpl. symmetry.
      apply lookup_replicate_None. lia.
  - rewrite <- IH by done. simpl.
    replace (seq (length b) (length (concat blocks)))
      with (Nat.add (length b) <$> seq 0 (length (concat blocks)))
      by (rewrite fmap_add_seq; f_equal; lia).
    rewrite <- list_fmap_compose.
    apply list_fmap_ext. intros _ p _. simpl. do 2 f_equal. lia.
Qed.

End GroupbyFacts.

Section TraceMajorFacts.
Import Algorithms Main Spec.

Lemma name_keys_blocks (blocks : list (list row)) : ∀ i0,
  (∀ i b, blocks !! i = Some b → Forall (λ r, name r = i0 + i) b) →
  (λ r, Z.of_nat (name r)) <$> concat blocks = block_keys i0 blocks.
Proof.
  induction blocks as [|b blocks IH]; intros i0 Hnames; [done |].
  rewrite block_keys_cons. simpl concat. rewrite fmap_app. f_equal.
  - specialize (Hnames 0 b eq_refl). rewrite Nat.add_0_r in Hnames.
    clear IH. induction Hnames as [|r b Hr _ IH]; simpl; [done |].
    f_equal; [by rewrite Hr | exact IH].
  - apply IH. intros i b' Hb'. specialize (Hnames (Datatypes.S i) b' Hb').
    by rewrite Nat.add_succ_r in Hnames.
Qed.

Lemma filter_other_block (b : list row) (i j : nat) :
  Forall (λ r, name r = j) b → i ≠ j → filter (λ r, name r = i) b = [].
Proof.
  intros Hb Hij. induction Hb as [|r b Hr _ IH]; [done |].
  rewrite filter_cons, decide_False by congruence. done.
Qed.

Lemma filter_other_blocks (blocks : list (list row)) (i : nat) :
  (∀ j b, blocks !! j = Some b → ∃ k, k ≠ i ∧ Forall (λ r, name r = k) b) →
  filter (λ r, name r = i) (concat blocks) = [].
Proof.
  induction blocks as [|b blocks IH]; intros Hnames; [done |].
  simpl concat. rewrite filter_app.
  destruct (Hnames 0 b eq_refl) as (k & Hk & Hb).
  rewrite (filter_other_block b i k) by done. simpl.
  apply IH. intros j b' Hb'. by apply (Hnames (Datatypes.S j)).
Qed.

Lemma filter_own_block (b : list row) (i : nat) :
  Forall (λ r, name r = i) b → filter (λ r, name r = i) b = b.
Proof.
  induction 1 as [|r b Hr _ IH]; [done |].
  rewrite filter_cons, decide_True by done. by rewrite IH.
Qed.

(** The rows named [i] are the [i]-th block. *)
Lemma filter_name_blocks (blocks : list (list row)) : ∀ i0 i b,
  (∀ j b', blocks !! j = Some b' → Forall (λ r, name r = i0 + j) b') →
  blocks !! i = Some b →
  filter (λ r, name r = i0 + i) (concat blocks) = b.
Proof.
  induction blocks as [|b0 blocks IH]; intros i0 i b Hnames Hb; [done |].
  simpl concat. rewrite filter_app.
  assert (Hrest : ∀ j b', blocks !! j = Some b' →
          Forall (λ r, name r = Datatypes.S i0 + j) b').
  { intros j b' Hb'. specialize (Hnames (Datatypes.S j) b' Hb').
    by rewrite Nat.add_succ_r in Hnames. }
  pose proof (Hnames 0 b0 eq_refl) as Hb0. rewrite Nat.add_0_r in Hb0.
  destruct i as [|i]; simpl in Hb.
  - injection Hb as ->. rewrite Nat.add_0_r, filter_own_block by done.
    rewrite <- (app_nil_r b) at 2. f_equal.
    apply filter_other_blocks. intros j b' Hb'.
    exists (Datatypes.S i0 + j). split; [lia | by apply Hrest].
  - rewrite (filter_other_block b0 (i0 + Datatypes.S i) i0) by (done || lia).
    simpl. rewrite Nat.add_succ_r. by apply (IH (Datatypes.S i0)).
Qed.

End TraceMajorFacts.

(** ** The exported text *)

Section LineFacts.
Import Spec.

Lemma split_lines_line (l rest : string) :
  one_line l → split_lines (l +:+ Main.nl +:+ rest) = l :: split_lines rest.
Proof.
  induction l as [|c l IH]; simpl; [done |]. intros [Hc Hl].
  rewrite (proj2 (Ascii.eqb_neq c newline) Hc). by rewrite IH.
Qed.

Lemma split_lines_blank (rest : string) :
  split_lines (Main.nl +:+ rest) = "" :: split_lines rest.
Proof. exact (split_lines_line "" rest I). Qed.

Lemma split_lines_last (l : string) : one_line l → split_lines l = [l].
Proof.
  induction l as [|c l IH]; simpl; [done |]. intros [Hc Hl].
  rewrite (proj2 (Ascii.eqb_neq c newline) Hc). by rewrite IH.
Qed.

Lemma one_line_app (a b : string) :
  one_line a → one_line b → one_line (a +:+ b).
Proof. induction a as [|c a IH]; simpl; [done |]. intros [??] ?. auto. Qed.

Lemma one_line_concat (sep : string) (l : list string) :
  one_line sep → Forall one_line l → one_line (String.concat sep l).
Proof.
  intros Hsep Hl. induction Hl as [|x l Hx Hl IH]; simpl; [done |].
  destruct l; [done |]. auto using one_line_app.
Qed.

Lemma one_line_pretty_N_char (x : N) : pretty_N_char x ≠ newline.
Proof. unfold pretty_N_char. by repeat case_match. Qed.

Lemma one_line_pretty_N_go (x : N) : ∀ s,
  one_line s → one_line (pretty_N_go x s).
Proof.
  induction (N.lt_wf_0 x) as [x _ IH]. intros s Hs.
  destruct (decide (x = 0)%N) as [->|Hx]; [by rewrite pretty_N_go_0 |].
  rewrite pretty_N_go_step by lia.
  apply IH; [apply N.div_lt; lia |].
  split; [apply one_line_pretty_N_char | done].
Qed.

Lemma one_line_pretty_N (x : N) : one_line (pretty x).
Proof.
  unfold pretty, pretty_N. case_decide; [done |].
  by apply one_line_pretty_N_go.
Qed.

Lemma one_line_str_int (n : Z) : one_line (Main.str_int n).
Proof.
  unfold Main.str_int, pretty, pretty_Z.
  destruct n as [|n|n]; simpl; [done | apply one_line_pretty_N |].
  split; [done | apply one_line_pretty_N].
Qed.

Lemma one_line_str_optional (v : option Z) : one_line (Main.str_optional v).
Proof.
  destruct v as [n|]; simpl; [apply one_line_str_int |].
  repeat split; done.
Qed.

Lemma string_app_cons (c : ascii) (a b : string) :
  String c a +:+ b = String c (a +:+ b).
Proof. reflexivity. Qed.

Lemma string_app_nil_r (s : string) : s +:+ "" = s.
Proof.
  induction s as [|c s IH]; [done |]. by rewrite string_app_cons, IH.
Qed.

Lemma string_app_assoc (a b c : string) : (a +:+ b) +:+ c = a +:+ b +:+ c.
Proof.
  induction a as [|x a IH]; [done |]. by rewrite !string_app_cons, IH.
Qed.

Lemma string_length_app (a b : string) :
  String.length (a +:+ b) = String.length a + String.length b.
Proof.
  induction a as [|x a IH]; [done |]. rewrite string_app_cons. simpl.
  by rewrite IH.
Qed.

Lemma concat_empty_cons (x : string) (xs : list string) :
  String.concat "" (x :: xs) = x +:+ String.concat "" xs.
Proof. destruct xs; [by rewrite string_app_nil_r | done]. Qed.

(** The body of a csv text: a line per row and the empty piece after the
    last newline. *)
Lemma split_lines_rows (ls : list string) :
  Forall one_line ls →
  split_lines (String.concat "" ((λ l, l +:+ Main.nl) <$> ls)) = ls ++ [""].
Proof.
  induction 1 as [|l ls Hl Hls IH]; [done |].
  rewrite fmap_cons, concat_empty_cons, string_app_assoc.
  rewrite split_lines_line by done. by rewrite IH.
Qed.

End LineFacts.

Section RoundingFacts.
Import Examples.

Local Ltac qc_to_q :=
  unfold Qcle, Qclt, Qcdiv, Qcinv, Qcminus, Qcplus, Qcmult, Qcopp, Q2Qc,
    Qc_of_Z in *;
  simpl in *; rewrite ?Qred_correct in *.

(** The nearest integer is at most one half away. *)
Lemma round_half_even_close (q : Qc) :
  (Qc_of_Z (round_half_even q) - Q2Qc (1 # 2) ≤ q
   ≤ Qc_of_Z (round_half_even q) + Q2Qc (1 # 2))%Qc.
Proof.
  unfold round_half_even.
  pose proof (Qfloor_le q) as Hlo. pose proof (Qlt_floor q) as Hhi.
  rewrite inject_Z_plus in Hhi. change (inject_Z 1) with 1%Q in Hhi.
  set (f := Qfloor q) in *.
  repeat case_decide; [| | destruct (Z.even f)]; qc_to_q;
    rewrite ?inject_Z_plus; change (inject_Z 1) with 1%Q; lra.
Qed.

(** [round4] yields a whole number of ten-thousandths, at most half a
    ten-thousandth away from its argument. *)
Lemma round4_close (q : Qc) :
  (round4 q * Qc_of_Z 10000 = Qc_of_Z (round_half_even (q * Qc_of_Z 10000)))%Qc ∧
  (q - Q2Qc (1 # 20000) ≤ round4 q ≤ q + Q2Qc (1 # 20000))%Qc.
Proof.
  unfold round4.
  pose proof (round_half_even_close (q * Qc_of_Z 10000)) as Hn.
  set (n := round_half_even (q * Qc_of_Z 10000)) in *. clearbody n.
  split.
  - apply Qc_is_canon. qc_to_q. field.
  - qc_to_q. change (inject_Z 10000) with (10000 # 1)%Q in *.
    change (/ (10000 # 1))%Q with (1 # 10000)%Q. lra.
Qed.

Lemma round4_zero : round4 0%Qc = 0%Qc.
Proof. by apply Qc_is_canon. Qed.

End RoundingFacts.

Section ExportFacts.
Import Algorithms Main Spec.
Context (repr : Qc → string) (round4 : Qc → Qc).

Lemma export_frame_rows (trace : list row) :
  export_frame round4 trace =
  (λ r, round4 <$> [0%Qc; 0%Qc; 0%Qc; DD r; DA r; AA r; S r; E r]) <$> trace.
Proof.
  unfold export_frame. induction trace as [|r trace IH]; [done |].
  simpl length. simpl replicate. simpl zip_with. rewrite !fmap_cons. f_equal.
  exact IH.
Qed.

Lemma to_csv_rows (trace : list row) :
  round4 0%Qc = 0%Qc →
  to_csv repr export_columns (export_frame round4 trace) =
  String.concat tab export_columns +:+ nl +:+
  String.concat "" ((λ l, l +:+ nl) <$> (row_line repr round4 <$> trace)).
Proof.
  intros Hzero. unfold to_csv. rewrite export_frame_rows.
  rewrite <- !list_fmap_compose. do 3 f_equal.
  apply list_fmap_ext. intros _ r _. unfold row_line. simpl.
  by rewrite !Hzero.
Qed.

(** The text of a non-empty trace, piece by piece. *)
Lemma export_text_pieces (idx : Z) (r0 : row) (rest : list row) (date : string) :
  export_text repr round4 idx (r0 :: rest) date =
  Ok ("Simulated trace exported by Fiddler" +:+ nl +:+
      ("Date: " +:+ date) +:+ nl +:+
      "Movie filename: None" +:+ nl +:+
      ("FRET pair #" +:+ str_int idx) +:+ nl +:+
      ("Bleaches at " +:+ str_optional (fb r0)) +:+ nl +:+
      nl +:+
      to_csv repr export_columns (export_frame round4 (r0 :: rest)) +:+ "").
Proof. reflexivity. Qed.

End ExportFacts.

Lemma one_line_check (s : string) :
  forallb (λ c, negb (Ascii.eqb c Spec.newline)) (list_ascii_of_string s) = true →
  Spec.one_line s.
Proof.
  induction s as [|c s IH]; simpl; [done |].
  intros [Hc Hs]%andb_true_iff. split; [| by apply IH].
  apply Ascii.eqb_neq. by apply negb_true_iff.
Qed.

(** The lines of the text of a non-empty trace. *)
Lemma export_text_lines (repr : Qc → string) (round4 : Qc → Qc) (idx : Z)
    (r0 : Algorithms.row) (rest : list Algorithms.row) (date : string) :
  (∀ q, Spec.one_line (repr q)) → Spec.one_line date →
  round4 0%Qc = 0%Qc →
  ∃ text,
    Main.export_text repr round4 idx (r0 :: rest) date = Ok text ∧
    Spec.split_lines text =
      ["Simulated trace exported by Fiddler";
       "Date: " +:+ date;
       "Movie filename: None";
       "FRET pair #" +:+ Main.str_int idx;
       "Bleaches at " +:+ Main.str_optional (Algorithms.fb r0);
       "";
       String.concat Main.tab
         ["D-Dexc-bg"; "A-Dexc-bg"; "A-Aexc-bg"; "D-Dexc-rw"; "A-Dexc-rw";
          "A-Aexc-rw"; "S"; "E"]] ++
      (Spec.row_line repr round4 <$> r0 :: rest) ++ [""].
Proof.
  intros Hrepr Hdate Hzero. eexists. split; [apply export_text_pieces |].
  assert (Hrows : Forall Spec.one_line (Spec.row_line repr round4 <$> r0 :: rest)).
  { apply Forall_fmap, Forall_true. intros r.
    apply one_line_concat; [by apply one_line_check |].
    apply Forall_fmap, Forall_true. intros q. apply Hrepr. }
  rewrite string_app_nil_r, to_csv_rows by done.
  rewrite split_lines_line by (by apply one_line_check).
  rewrite split_lines_line
    by (apply one_line_app; [by apply one_line_check | done]).
  rewrite split_lines_line by (by apply one_line_check).
  rewrite split_lines_line
    by (apply one_line_app; [by apply one_line_check | apply one_line_str_int]).
  rewrite split_lines_line
    by (apply one_line_app;
        [by apply one_line_check | apply one_line_str_optional]).
  rewrite split_lines_blank.
  rewrite split_lines_line by (by apply one_line_check).
  rewrite split_lines_rows by done. reflexivity.
Qed.

Section ExportLoopFacts.
Import Algorithms Main Spec.
Context (repr : Qc → string) (round4 : Qc → Qc).
Context (dir : string) (strftime : nat → string).

Local Abbreviation trace_path := (Spec.trace_path dir strftime).
Local Abbreviation file_path := (Spec.file_path dir strftime).

Lemma string_app_inj_length (a b x y : string) :
  a +:+ x = b +:+ y → String.length x = String.length y → a = b.
Proof.
  revert b. induction a as [|c a IH]; intros [|d b] Heq Hlen; [done | | |].
  - change (x = String d (b +:+ y)) in Heq. subst x. simpl in Hlen.
    rewrite string_length_app in Hlen. lia.
  - change (String c (a +:+ x) = y) in Heq. subst y. simpl in Hlen.
    rewrite string_length_app in Hlen. lia.
  - rewrite !string_app_cons in Heq. injection Heq as -> Heq.
    f_equal. by apply IH.
Qed.

Lemma os_path_join_inj (a b : string) :
  os_path_join dir a = os_path_join dir b → a = b.
Proof.
  unfold os_path_join. destruct (ends_with_slash dir); intros Heq.
  - by apply (inj (String.append dir)) in Heq.
  - apply (inj (String.append dir)) in Heq.
    by apply (inj (String.append "/")) in Heq.
Qed.

(** Two file names whose stamps have one length are the same only for
    the same key. *)
Lemma file_path_inj (j j' : nat) (idx idx' : Z) :
  String.length (strftime (2 * j)) = String.length (strftime (2 * j')) →
  file_path j idx = file_path j' idx' → idx = idx'.
Proof.
  intros Hlen Heq. apply os_path_join_inj in Heq.
  apply (inj (String.append "trace_")) in Heq.
  apply string_app_inj_length in Heq.
  - unfold str_int in Heq. by apply (inj pretty) in Heq.
  - rewrite !string_length_app. by rewrite Hlen.
Qed.

(** File-name stamps of one length keep the paths of different traces
    apart. *)
Lemma trace_path_inj (m n : nat) :
  (∀ j k, String.length (strftime (2 * j)) = String.length (strftime (2 * k))) →
  trace_path m = trace_path n → m = n.
Proof.
  intros Hlen Heq.
  apply (file_path_inj m n (Z.of_nat m) (Z.of_nat n) (Hlen m n)) in Heq. lia.
Qed.

Lemma export_loop_cons k idx trace groups disk text :
  export_text repr round4 idx trace (strftime (k + 1)) = Ok text →
  export_loop repr round4 dir strftime k ((idx, trace) :: groups) disk =
  export_loop repr round4 dir strftime (k + 2) groups
    (<[os_path_join dir
         ("trace_" +:+ str_int idx +:+ "_" +:+ strftime k +:+ ".txt")
       := text]> disk).
Proof. intros Htext. simpl. by rewrite Htext. Qed.

Lemma export_loop_blocks (blocks : list (list row)) : ∀ i0 disk,
  Forall (λ b, b ≠ []) blocks →
  ∃ disk',
    export_loop repr round4 dir strftime (2 * i0)
      (imap (λ i b, (Z.of_nat (i0 + i), b)) blocks) disk = (disk', Ok ()) ∧
    (∀ q, (∀ i, i < length blocks → q ≠ trace_path (i0 + i)) →
       disk' !! q = disk !! q) ∧
    ((∀ m n, trace_path m = trace_path n → m = n) →
     ∀ i b, blocks !! i = Some b →
       ∃ text,
         export_text repr round4 (Z.of_nat (i0 + i)) b (strftime (2 * (i0 + i) + 1))
         = Ok text ∧
         disk' !! trace_path (i0 + i) = Some text).
Proof.
  induction blocks as [|b blocks IH]; intros i0 disk Hne.
  - exists disk. split; [done |]. split; [done |]. by intros _ i b.
  - inversion Hne as [|? ? Hb Hne']; subst.
    destruct b as [|r0 rest]; [done |].
    pose proof (export_text_pieces repr round4 (Z.of_nat (i0 + 0)) r0 rest
                  (strftime (2 * i0 + 1))) as Htext.
    set (text0 := _ +:+ _) in Htext.
    rewrite imap_cons, (export_loop_cons _ _ _ _ _ text0 Htext).
    rewrite Nat.add_0_r in *. fold (trace_path i0).
    destruct (IH (Datatypes.S i0) (<[trace_path i0 := text0]> disk) Hne')
      as (disk' & Hloop & Hkeep & Hfiles).
    exists disk'. split; [| split].
    + replace (2 * i0 + 2) with (2 * Datatypes.S i0) by lia.
      rewrite <- Hloop. f_equal. apply imap_ext. intros i b _. simpl.
      do 2 f_equal. lia.
    + intros q Hq. rewrite Hkeep.
      * apply lookup_insert_ne. specialize (Hq 0). rewrite Nat.add_0_r in Hq.
        intros Heq. apply Hq; [simpl; lia | done].
      * intros i Hi. replace (Datatypes.S i0 + i) with (i0 + Datatypes.S i) by lia.
        apply Hq. simpl. lia.
    + intros Hinj [|i] b Hlook; simpl in Hlook.
      * injection Hlook as <-. rewrite Nat.add_0_r. exists text0. split.
        -- done.
        -- rewrite Hkeep; [apply lookup_insert_eq |].
          intros i _ Heq. apply Hinj in Heq. lia.
      * destruct (Hfiles Hinj i b Hlook) as (text & Htext' & Hdisk).
        replace (i0 + Datatypes.S i) with (Datatypes.S i0 + i) by lia.
        by exists text.
Qed.

(** The loop over any groups that are not empty and get different paths:
    it ends without an exception, leaves every other path alone and
    leaves, at the path of each group, the text of that group. *)
Lemma export_loop_files (groups : list (Z * list row)) : ∀ j0 disk,
  Forall (λ g, g.2 ≠ []) groups →
  (∀ j j' g g', groups !! j = Some g → groups !! j' = Some g' →
     file_path (j0 + j) g.1 = file_path (j0 + j') g'.1 → j = j') →
  ∃ disk',
    export_loop repr round4 dir strftime (2 * j0) groups disk = (disk', Ok ()) ∧
    (∀ q, (∀ j g, groups !! j = Some g → q ≠ file_path (j0 + j) g.1) →
       disk' !! q = disk !! q) ∧
    (∀ j g, groups !! j = Some g →
       ∃ text,
         export_text repr round4 g.1 g.2 (strftime (2 * (j0 + j) + 1)) = Ok text ∧
         disk' !! file_path (j0 + j) g.1 = Some text).
Proof.
  induction groups as [|[idx trace] groups IH]; intros j0 disk Hne Hapart.
  - exists disk. split; [done |]. split; [done |]. by intros j g.
  - inversion Hne as [|? ? Htrace Hne']; subst. simpl in Htrace.
    destruct trace as [|r0 rest]; [done |].
    pose proof (export_text_pieces repr round4 idx r0 rest
                  (strftime (2 * j0 + 1))) as Htext.
    set (text0 := _ +:+ _) in Htext.
    rewrite (export_loop_cons _ _ _ _ _ text0 Htext).
    fold (file_path j0 idx).
    destruct (IH (Datatypes.S j0) (<[file_path j0 idx := text0]> disk) Hne')
      as (disk' & Hloop & Hkeep & Hfiles).
    { intros j j' g g' Hj Hj' Heq.
      assert (Datatypes.S j = Datatypes.S j') as [= ->]; [| done].
      apply (Hapart (Datatypes.S j) (Datatypes.S j') g g'); [done | done |].
      by replace (j0 + Datatypes.S j) with (Datatypes.S j0 + j) by lia;
         replace (j0 + Datatypes.S j') with (Datatypes.S j0 + j') by lia. }
    assert (Hfirst : ∀ j g, groups !! j = Some g →
              file_path j0 idx ≠ file_path (Datatypes.S j0 + j) g.1).
    { intros j g Hj Heq.
      assert (0 = Datatypes.S j) as [=].
      apply (Hapart 0 (Datatypes.S j) (idx, r0 :: rest) g); [done | done |].
      rewrite Nat.add_0_r.
      by replace (j0 + Datatypes.S j) with (Datatypes.S j0 + j) by lia. }
    exists disk'. split; [| split].
    + by replace (2 * j0 + 2) with (2 * Datatypes.S j0) by lia.
    + intros q Hq. rewrite Hkeep.
      * apply lookup_insert_ne. intros Heq.
        apply (Hq 0 (idx, r0 :: rest)); [done |]. by rewrite Nat.add_0_r.
      * intros j g Hj.
        replace (Datatypes.S j0 + j) with (j0 + Datatypes.S j) by lia.
        by apply Hq.
    + intros [|j] g Hj; simpl in Hj.
      * injection Hj as <-. rewrite Nat.add_0_r. exists text0.
        split; [done |]. rewrite Hkeep; [apply lookup_insert_eq |].
        intros j g Hj. by apply Hfirst.
      * destruct (Hfiles j g Hj) as (text & Htext' & Hdisk).
        replace (j0 + Datatypes.S j) with (Datatypes.S j0 + j) by lia.
        by exists text.
Qed.

End ExportLoopFacts.

Lemma concat_empty_blocks {R : Type} (blocks : list (list R)) :
  Forall (λ b, b = []) blocks → concat blocks = [].
Proof. induction 1 as [|b blocks -> _ IH]; [done | exact IH]. Qed.

Lemma one_line_repr_fraction (q : Qc) : Spec.one_line (Examples.repr_fraction q).
Proof.
  unfold Examples.repr_fraction.
  apply one_line_app; [apply one_line_str_int |].
  apply (one_line_app "/"); [by apply one_line_check | apply one_line_str_int].
Qed.

Lemma one_line_clock (k : nat) : Spec.one_line (Examples.clock k).
Proof. unfold Examples.clock. destruct (Nat.even k); by apply one_line_check. Qed.

(** The stamps that the still clock gives for file names have one length. *)
Lemma clock_stamps (j k : nat) :
  String.length (Examples.clock (2 * j)) = String.length (Examples.clock (2 * k)).
Proof. unfold Examples.clock. by rewrite !Nat.even_mul. Qed.



(** ** What the export writes *)

Section WrittenFacts.
Import Algorithms Main.
Context {R : Type}.

Lemma add_to_group_nonempty (k : Z) (r : R) (gs : list (Z * list R)) :
  Forall (λ g, g.2 ≠ []) gs → Forall (λ g, g.2 ≠ []) (add_to_group k r gs).
Proof.
  induction 1 as [|[k' rs] gs Hg Hgs IH]; simpl.
  - by repeat constructor.
  - repeat case_decide; repeat constructor; simpl in *; try done.
    by destruct rs.
Qed.

(** No group of [groupby] is empty. *)
Lemma groupby_nonempty (keys : list Z) (rows : list R) :
  Forall (λ g, g.2 ≠ []) (groupby keys rows).
Proof.
  unfold groupby. generalize (zip keys rows). intros krs.
  assert (Hacc : Forall (λ g : Z * list R, g.2 ≠ []) []) by constructor.
  revert Hacc. generalize (@nil (Z * list R)).
  induction krs as [|[k r] krs IH]; intros acc Hacc; simpl; [done |].
  apply IH. by apply add_to_group_nonempty.
Qed.

Lemma add_to_group_keys (k : Z) (r : R) (gs : list (Z * list R)) (k' : Z) :
  k' ∈ (add_to_group k r gs).*1 ↔ k' = k ∨ k' ∈ gs.*1.
Proof.
  induction gs as [|[k0 rs] gs IH]; simpl.
  - rewrite elem_of_cons. by rewrite elem_of_nil.
  - repeat case_decide; subst; simpl;
      rewrite ?fmap_cons, !elem_of_cons, ?IH; simpl; tauto.
Qed.

(** The keys of the groups stay in strictly increasing order. *)
Lemma add_to_group_sorted (k : Z) (r : R) (gs : list (Z * list R)) :
  StronglySorted Z.lt gs.*1 → StronglySorted Z.lt (add_to_group k r gs).*1.
Proof.
  induction gs as [|[k0 rs] gs IH]; simpl; intros Hs.
  - by repeat constructor.
  - inversion Hs as [|? ? Hs' Hk0]; subst.
    destruct (decide (k = k0)) as [->|Hne]; [by constructor |].
    destruct (decide (k < k0)%Z) as [Hlt|Hge]; simpl.
    + constructor; [by constructor |]. constructor; [done |].
      eapply Forall_impl; [exact Hk0 |]. intros z Hz. simpl in Hz. lia.
    + constructor; [by apply IH |].
      apply Forall_forall. intros z Hz.
      apply add_to_group_keys in Hz as [-> | Hz]; [lia |].
      by eapply Forall_forall in Hk0.
Qed.

Lemma groupby_sorted (keys : list Z) (rows : list R) :
  StronglySorted Z.lt (groupby keys rows).*1.
Proof.
  unfold groupby. generalize (zip keys rows). intros krs.
  assert (Hacc : StronglySorted Z.lt (@nil (Z * list R)).*1) by constructor.
  revert Hacc. generalize (@nil (Z * list R)).
  induction krs as [|[k r] krs IH]; intros acc Hacc; simpl; [done |].
  apply IH. by apply add_to_group_sorted.
Qed.

(** Two groups of [groupby] with one key are one group. *)
Lemma groupby_key_inj (keys : list Z) (rows : list R) j j' g g' :
  groupby keys rows !! j = Some g → groupby keys rows !! j' = Some g' →
  g.1 = g'.1 → j = j'.
Proof.
  intros Hj Hj' Hkey.
  assert (Hnodup : NoDup (groupby keys rows).*1).
  { pose proof (groupby_sorted keys rows) as Hs.
    induction Hs as [|z l Hl IH Hz]; constructor; [| done].
    intros Hin. eapply Forall_forall in Hz; [| done]. lia. }
  eapply (NoDup_lookup _ j j' g.1); [done | |].
  - by rewrite list_lookup_fmap, Hj.
  - by rewrite list_lookup_fmap, Hj', Hkey.
Qed.

Lemma add_to_group_rows (k : Z) (r : R) (gs : list (Z * list R)) (x : R) :
  x ∈ concat (add_to_group k r gs).*2 ↔ x = r ∨ x ∈ concat gs.*2.
Proof.
  induction gs as [|[k0 rs] gs IH]; simpl.
  - rewrite !elem_of_cons, elem_of_nil. tauto.
  - repeat case_decide; simpl;
      rewrite ?elem_of_app, ?elem_of_cons, ?IH, ?elem_of_app, ?elem_of_nil;
      tauto.
Qed.

(** Every row is in a group and the groups hold rows only. *)
Lemma groupby_rows (keys : list Z) (rows : list R) (x : R) :
  length keys = length rows →
  (x ∈ rows ↔ x ∈ concat (groupby keys rows).*2).
Proof.
  intros Hlen. unfold groupby.
  rewrite <- (snd_zip keys rows) at 1 by lia.
  generalize (zip keys rows). intros krs.
  assert (Hgen : ∀ acc : list (Z * list R),
    x ∈ concat (fold_left (λ gs kr, add_to_group kr.1 kr.2 gs) krs acc).*2
    ↔ x ∈ krs.*2 ∨ x ∈ concat acc.*2).
  { induction krs as [|[k r] krs IH]; intros acc; simpl.
    - rewrite elem_of_nil. tauto.
    - rewrite IH, add_to_group_rows, elem_of_cons. tauto. }
  rewrite Hgen. simpl. rewrite elem_of_nil. tauto.
Qed.

End WrittenFacts.

(** C2. When the generator returns a table and a folder is chosen,
    [export_traces_to_ascii] ends without an exception and, for every
    group of the table (every row of the table is in one), leaves at the
    path of that group a text of five header lines (the exporter's name,
    the date, the movie placeholder, the key of the group, the bleach
    frame of its first row), an empty line, the line of the eight
    tab-separated column names, and one line per row of the group with
    eight tab-separated values: three zeros, then the intensities, S and
    E of that row as [.round(4)] returns them; the text ends with a
    newline, and no other path is touched. The stamps of the file names
    are of one length, as those of [%Y%m%d_%H%M] are, and [.round(4)]
    leaves zero as it is. *)
Theorem export_text_layout
    (generate_traces : Algorithms.arguments → Utils.rng →
                       result (list Algorithms.row) * Utils.rng)
    (repr : Qc → string) (round4 : Qc → Qc) (dir : string)
    (strftime : nat → string) (w : Main.window) (g g' : Utils.rng)
    (disk : gmap string string) (t : list Algorithms.row) :
  (∀ q, Spec.one_line (repr q)) → (∀ k, Spec.one_line (strftime k)) →
  (∀ j k, String.length (strftime (2 * j)) = String.length (strftime (2 * k))) →
  round4 0%Qc = 0%Qc →
  generate_traces
    (Main.set_traces_arguments (Main.inputs w)
       (Main.inputNumberOfTraces (Main.widgets w))) g = (Ok t, g') →
  let groups :=
    Main.groupby
      (Main.positional_index (length t) (Main.inputTraceLength (Main.widgets w)))
      t in
  ∃ disk',
    Main.export_traces_to_ascii generate_traces repr round4 (Some dir) strftime
      w g disk = (Main.with_traces w t, g', disk', Ok ()) ∧
    (∀ r, r ∈ t ↔ r ∈ concat groups.*2) ∧
    (∀ j idx trace, groups !! j = Some (idx, trace) →
       ∃ r0 text,
         head trace = Some r0 ∧
         disk' !! Spec.file_path dir strftime j idx = Some text ∧
         Spec.split_lines text =
           ["Simulated trace exported by Fiddler";
            "Date: " +:+ strftime (2 * j + 1);
            "Movie filename: None";
            "FRET pair #" +:+ Main.str_int idx;
            "Bleaches at " +:+ Main.str_optional (Algorithms.fb r0);
            "";
            String.concat Main.tab
              ["D-Dexc-bg"; "A-Dexc-bg"; "A-Aexc-bg"; "D-Dexc-rw"; "A-Dexc-rw";
               "A-Aexc-rw"; "S"; "E"]] ++
           ((λ r, String.concat Main.tab
                    (repr <$> [0%Qc; 0%Qc; 0%Qc;
                               round4 (Algorithms.DD r);
                               round4 (Algorithms.DA r);
                               round4 (Algorithms.AA r);
                               round4 (Algorithms.S r);
                               round4 (Algorithms.E r)]))
            <$> trace) ++ [""]) ∧
    (∀ q, (∀ j idx trace, groups !! j = Some (idx, trace) →
             q ≠ Spec.file_path dir strftime j idx) →
          disk' !! q = disk !! q).
Proof.
  intros Hrepr Hclock Hstamps Hzero Hgen groups.
  destruct (export_loop_files repr round4 dir strftime groups 0 disk)
    as (disk' & Hloop & Hkeep & Hfiles).
  { apply groupby_nonempty. }
  { intros j j' grp grp' Hj Hj' Heq. simpl in Heq.
    apply file_path_inj in Heq; [| apply Hstamps].
    by eapply groupby_key_inj. }
  exists disk'. split; [| split; [| split]].
  - unfold Main.export_traces_to_ascii, Main.set_traces. rewrite Hgen.
    cbn [Main.traces Main.with_traces Main.widgets]. fold groups.
    change (2 * 0) with 0 in Hloop. by rewrite Hloop.
  - intros r. apply groupby_rows.
    unfold Main.positional_index. by rewrite length_fmap, length_seq.
  - intros j idx trace Hj.
    destruct (Hfiles j (idx, trace) Hj) as (text & Htext & Hdisk).
    cbn [fst snd] in Htext, Hdisk. change (0 + j) with j in Htext, Hdisk.
    destruct trace as [|r0 rest].
    { pose proof (groupby_nonempty
                    (Main.positional_index (length t)
                       (Main.inputTraceLength (Main.widgets w))) t) as Hne.
      eapply Forall_lookup_1 in Hne; [| exact Hj]. done. }
    exists r0, text. split; [done |]. split; [exact Hdisk |].
    destruct (export_text_lines repr round4 idx r0 rest (strftime (2 * j + 1))
                Hrepr (Hclock _) Hzero) as (text' & Htext' & Hlines).
    rewrite Htext in Htext'. by injection Htext' as <-.
  - intros q Hq. apply Hkeep. intros j [idx trace] Hj. by apply (Hq j idx trace).
Qed.

(** The window of the sample data exports the sample table, two traces
    of three frames, to [out]: the file of trace 1 is the second file,
    its sixth line is empty and its eighth line is the first frame of
    trace 1, with three zeros in front. *)
Lemma export_text_layout_witness :
  ∃ text,
    (Main.export_traces_to_ascii Examples.sample_table Examples.repr_fraction
       Examples.round4 (Some "out") Examples.clock
       (Examples.window_of Examples.ui0) (Utils.Rng 7 0) ∅).1.2
      !! "out/trace_1_20240101_1200.txt" = Some text ∧
    Spec.split_lines text !! 5 = Some "" ∧
    Spec.split_lines text !! 7 =
      Some (String.concat Main.tab
              ["0/1"; "0/1"; "0/1"; "5/1"; "15/1"; "20/1"; "1/2"; "3/4"]).
Proof.
  destruct (export_text_layout Examples.sample_table Examples.repr_fraction
              Examples.round4 "out" Examples.clock
              (Examples.window_of Examples.ui0) (Utils.Rng 7 0) (Utils.Rng 7 0)
              ∅ Examples.table0)
    as (disk' & Hexport & _ & Hfiles & _).
  - exact one_line_repr_fraction.
  - exact one_line_clock.
  - exact clock_stamps.
  - exact round4_zero.
  - reflexivity.
  - destruct (Hfiles 1 1%Z (drop 3 Examples.table0) eq_refl)
      as (r0 & text & Hr0 & Hdisk & Hlines).
    exists text. rewrite Hexport. split; [exact Hdisk |].
    rewrite Hlines. injection Hr0 as <-. split; [reflexivity |].
    vm_compute. reflexivity.
Defined.

(** * Further properties of the code *)

(** ** [min_none] on any list *)

Section MinNoneFacts.
Import Py.

Lemma min_loop_numbers (xs : list Z) : ∀ c : Z,
  ∃ m : Z,
    min_loop (Some c) (Some <$> xs) = Ok (Some m) ∧
    m ∈ c :: xs ∧ ∀ y, y ∈ c :: xs → (m ≤ y)%Z.
Proof.
  induction xs as [|x xs IH]; intros c; simpl.
  - exists c. split; [done |]. split; [by left |].
    intros y Hy. apply list_elem_of_singleton in Hy. lia.
  - destruct (Z.ltb_spec x c) as [Hlt|Hge].
    + destruct (IH x) as (m & Hm & Hin & Hle). exists m.
      split; [done |]. split; [by right |].
      intros y Hy. apply elem_of_cons in Hy as [-> | Hy]; [| by apply Hle].
      specialize (Hle x (list_elem_of_here _ _)). lia.
    + destruct (IH c) as (m & Hm & Hin & Hle). exists m.
      split; [done |]. split.
      * apply elem_of_cons in Hin as [-> | Hin]; [by left | by do 2 right].
      * intros y Hy. rewrite !elem_of_cons in Hy.
        destruct Hy as [-> | [-> | Hy]].
        -- apply Hle. by left.
        -- specialize (Hle c (list_elem_of_here _ _)). lia.
        -- apply Hle. by right.
Qed.

Lemma min_loop_none (rest : list (option Z)) : ∀ cur,
  None ∈ cur :: rest →
  min_loop cur rest = Raise TypeError ∨ min_loop cur rest = Ok None.
Proof.
  induction rest as [|item rest IH]; intros cur Hin; simpl.
  - apply list_elem_of_singleton in Hin as <-. by right.
  - destruct item as [x|], cur as [c|]; simpl; try by left.
    apply IH. rewrite !elem_of_cons in Hin. rewrite elem_of_cons.
    destruct Hin as [? | [? | ?]]; [done | done | by right].
Qed.

Lemma all_numbers (ls : list (option Z)) :
  None ∉ ls → ∃ xs : list Z, ls = Some <$> xs.
Proof.
  induction ls as [|[x|] ls IH]; intros Hnone.
  - by exists [].
  - destruct IH as [xs ->].
    + intros Hin. apply Hnone. by right.
    + by exists (x :: xs).
  - exfalso. apply Hnone. by left.
Qed.

Lemma min_none_with_none (ls : list (option Z)) :
  None ∈ ls → Utils.min_none ls = Ok None.
Proof.
  intros Hin. destruct ls as [|x rest]; [by apply elem_of_nil in Hin |].
  unfold Utils.min_none. simpl.
  by destruct (min_loop_none rest x Hin) as [-> | ->].
Qed.

Lemma min_none_of_numbers (x : Z) (xs : list Z) :
  ∃ m : Z,
    Utils.min_none (Some <$> x :: xs) = Ok (Some m) ∧
    m ∈ x :: xs ∧ ∀ y, y ∈ x :: xs → (m ≤ y)%Z.
Proof.
  destruct (min_loop_numbers xs x) as (m & Hm & Hin & Hle).
  exists m. split; [| done]. unfold Utils.min_none.
  change (min (Some <$> x :: xs)) with (min_loop (Some x) (Some <$> xs)).
  by rewrite Hm.
Qed.

End MinNoneFacts.

(** X1. On a non-empty list of numbers, none of them [None], [min_none]
    returns the minimum: an element of the list that no element is
    below. *)
Theorem min_none_minimum (xs : list Z) :
  xs ≠ [] →
  ∃ m : Z,
    Utils.min_none (Some <$> xs) = Ok (Some m) ∧
    m ∈ xs ∧ ∀ y, y ∈ xs → (m ≤ y)%Z.
Proof.
  intros Hne. destruct xs as [|x xs]; [done |]. apply min_none_of_numbers.
Qed.

(** Three bleach frames. *)
Lemma min_none_minimum_witness :
  ∃ m : Z,
    Utils.min_none (Some <$> [7; 3; 9]%Z) = Ok (Some m) ∧
    m ∈ [7; 3; 9]%Z ∧ ∀ y, y ∈ [7; 3; 9]%Z → (m ≤ y)%Z.
Proof. apply (min_none_minimum [7; 3; 9]%Z). discriminate. Defined.

(** X2. [min_none] returns [None] exactly when some element of the list is
    [None], and it raises exactly on the empty list, a [ValueError]: the
    [TypeError] of the comparison never escapes. *)
Theorem min_none_outcome (ls : list (option Z)) :
  (Utils.min_none ls = Ok None ↔ None ∈ ls) ∧
  (∀ e, Utils.min_none ls = Raise e ↔ ls = [] ∧ e = ValueError).
Proof.
  destruct (decide (None ∈ ls)) as [Hin|Hnot].
  - pose proof (min_none_with_none ls Hin) as Hmin. rewrite Hmin.
    split; [done |]. intros e. split; [done |].
    intros [-> _]. by apply elem_of_nil in Hin.
  - destruct (all_numbers ls Hnot) as [[|x xs] ->].
    + split; [split; [done | by intros ?%elem_of_nil] |].
      intros e. simpl. split; [by intros [= <-] | by intros [_ ->]].
    + destruct (min_none_of_numbers x xs) as (m & Hm & _). rewrite Hm.
      split; [split; [done | by intros ?%Hnot] |].
      intros e. split; [done | by intros [? _]].
Qed.

(** ** [count_adjacent_values] as a run-length coding *)

Section RunLengthFacts.
Context {A : Type} `{EqDecision A}.
Import Utils Spec.

Lemma constant_replicate (k : A) (g : list A) :
  Forall (λ x, x = k) g → replicate (length g) k = g.
Proof. induction 1 as [|x g -> _ IH]; simpl; by f_equal. Qed.

(** Every run starts on its value, and the values with the lengths give
    the array back. *)
Lemma runs_values (gs : list (A * list A)) : ∀ k0 (pre : list A),
  runs_from k0 gs →
  Forall2 (λ s v, (pre ++ concat (map snd gs)) !! s = Some v)
    (prefix_sums (length pre) (lens gs)) (map fst gs) ∧
  decode (zip (map fst gs) (lens gs)) = concat (map snd gs).
Proof.
  induction gs as [|[k g] gs IH]; intros k0 pre Hr; [inversion Hr |].
  destruct (runs_from_head _ _ _ _ Hr) as (_ & Hne & Hall).
  assert (Hhead : (pre ++ concat (map snd ((k, g) :: gs))) !! length pre = Some k).
  { simpl. rewrite lookup_app_r by lia. rewrite Nat.sub_diag.
    destruct g as [|x g]; [done |]. by inversion Hall; subst. }
  assert (Htail :
    Forall2 (λ s v, (pre ++ concat (map snd ((k, g) :: gs))) !! s = Some v)
      (prefix_sums (length pre + length g) (lens gs)) (map fst gs) ∧
    decode (zip (map fst gs) (lens gs)) = concat (map snd gs)).
  { inversion Hr as [|? ? k' ? _ _ _ Hr']; subst; [by split; constructor |].
    destruct (IH k' (pre ++ g) Hr') as [Hs Hd]. split; [| done].
    simpl. by rewrite length_app, <- app_assoc in Hs. }
  destruct Htail as [Hs Hd]. split.
  - simpl. by constructor.
  - change (replicate (length g) k ++ decode (zip (map fst gs) (lens gs))
            = g ++ concat (map snd gs)).
    by rewrite Hd, constant_replicate.
Qed.

Lemma count_adjacent_values_values (arr : list A) :
  Forall2 (λ s v, arr !! s = Some v)
    (prefix_sums 0 (lens (groupby arr))) (map fst (groupby arr)) ∧
  decode (zip (map fst (groupby arr)) (lens (groupby arr))) = arr.
Proof.
  destruct arr as [|x l]; [by split; constructor |].
  destruct (groupby_runs x l) as [Hr Hc].
  destruct (runs_values _ x [] Hr) as [Hs Hd].
  rewrite Hc in Hs, Hd. done.
Qed.

(** The starts with the lengths, one after the other: each start plus its
    length is the next start, and the last one is the total. *)
Lemma prefix_sums_ends (ls : list nat) : ∀ n,
  prefix_sums n ls ++ [n + sum_list ls] =
  n :: ((λ sl : nat * nat, sl.1 + sl.2) <$> zip (prefix_sums n ls) ls).
Proof.
  induction ls as [|l ls IH]; intros n; simpl.
  - by rewrite Nat.add_0_r.
  - f_equal. rewrite <- IH. by rewrite Nat.add_assoc.
Qed.

End RunLengthFacts.

(** X3. The result of [count_adjacent_values] is a run-length coding of
    the array: reading the array at the starts gives one value per run,
    and these values, each repeated as often as its length says, are the
    array again. For the empty array both lists are empty. *)
Theorem count_adjacent_values_decode {A : Type} `{EqDecision A} (arr : list A) :
  ∃ values : list A,
    Forall2 (λ s v, arr !! s = Some v) (Utils.count_adjacent_values arr).1 values ∧
    Spec.decode (zip values (Utils.count_adjacent_values arr).2) = arr ∧
    (arr = [] → Utils.count_adjacent_values arr = ([], [])).
Proof.
  rewrite count_adjacent_values_groups. simpl.
  exists (map fst (Utils.groupby arr)).
  destruct (count_adjacent_values_values arr) as [Hs Hd].
  split; [done |]. split; [done |]. by intros ->.
Qed.

(** ** [plot_category]: what is drawn, and which exception when *)

Section TraverseFacts.
Context {A B : Type} (f : A → result B).

Lemma traverse_Ok (l : list A) :
  (∀ x, x ∈ l → ∃ y, f x = Ok y) →
  ∃ ys, Py.traverse f l = Ok ys ∧ Forall2 (λ x y, f x = Ok y) l ys.
Proof.
  induction l as [|x l IH]; intros Hall; simpl.
  - exists []. split; [done | constructor].
  - destruct (Hall x) as [y Hy]; [by left |].
    destruct IH as (ys & Hys & HF); [intros; apply Hall; by right |].
    exists (y :: ys). rewrite Hy. simpl. rewrite Hys. simpl.
    split; [done | by constructor].
Qed.

Lemma traverse_Raise (l : list A) (e : exn) :
  (∀ x, x ∈ l → f x = Raise e ∨ ∃ y, f x = Ok y) →
  (∃ x, x ∈ l ∧ f x = Raise e) →
  Py.traverse f l = Raise e.
Proof.
  induction l as [|x l IH]; intros Hall (x0 & Hin & Hx0).
  - by apply elem_of_nil in Hin.
  - simpl. destruct (Hall x) as [Hx | [y Hy]]; [by left | by rewrite Hx |].
    rewrite Hy. simpl. rewrite IH; [done | intros; apply Hall; by right |].
    apply elem_of_cons in Hin as [-> | Hin]; [congruence | by exists x0].
Qed.

Lemma traverse_inv (l : list A) :
  match Py.traverse f l with
  | Ok ys => Forall2 (λ x y, f x = Ok y) l ys
  | Raise e => ∃ x, x ∈ l ∧ f x = Raise e
  end.
Proof.
  induction l as [|x l IH]; simpl; [constructor |].
  destruct (f x) as [y|e] eqn:Hx; simpl.
  - destruct (Py.traverse f l) as [ys|e]; simpl.
    + by constructor.
    + destruct IH as (x0 & Hin & Hx0). exists x0. split; [by right | done].
  - exists x. split; [by left | done].
Qed.

End TraverseFacts.

Section PlotFacts.
Import Utils Spec.

(** The body of the loop [for idx, ln in zip(adjs, lns)]. *)
Local Abbreviation draw y alpha :=
  (λ il : nat * nat,
     let '(idx, ln) := il in
     Py.bind (index y idx) (λ label,
     Py.bind (index (seq 0 (length y)) idx) (λ x,
     Py.bind (getitem colors label) (λ c,
     Ok (Span x (x + ln) alpha c))))).

Lemma colors_lookup_is_Some (n : Z) : is_Some (colors !! n) ↔ known_label n.
Proof.
  unfold known_label. split.
  - intros [name Hn]. unfold colors in Hn. simpl in Hn.
    repeat (apply lookup_insert_Some in Hn as [[<- _]|[_ Hn]]; [lia |]).
    by rewrite lookup_empty in Hn.
  - intros Hn.
    assert (n = 0 ∨ n = 1 ∨ n = 2 ∨ n = 3 ∨ n = 4 ∨ n = 5 ∨ n = 6 ∨
            n = 7 ∨ n = 8)%Z as Hcases by lia.
    repeat (destruct Hcases as [->|Hcases]; [by eexists |]).
    subst. by eexists.
Qed.

(** Labels that all have a colour are no more than the colours. *)
Lemma palette_size (y : list Z) :
  Forall known_label y → ¬ size colors < size (list_to_set y : gset Z).
Proof.
  intros Hknown.
  assert (Hsub : (list_to_set y : gset Z) ⊆ dom colors).
  { intros v Hv. apply elem_of_list_to_set in Hv. apply elem_of_dom.
    apply colors_lookup_is_Some. by eapply Forall_forall in Hknown. }
  apply subseteq_size in Hsub. rewrite size_dom in Hsub. lia.
Qed.

Lemma plot_category_unfold (y : list Z) (alpha : Qc) :
  plot_category (Categorical y) alpha =
  if decide (size colors < size (list_to_set y : gset Z)) then Raise ValueError
  else
    Py.bind (Py.traverse (draw y alpha)
               (zip (prefix_sums 0 (lens (groupby y))) (lens (groupby y))))
      (λ sp,
    Py.bind (index y 0) (λ y0,
    Py.bind (getitem cls y0) (λ l,
    Py.bind (getitem colors y0) (λ c,
    Ok (Drawing sp l c))))).
Proof.
  unfold plot_category. cbn [class_labels Py.bind].
  by rewrite count_adjacent_values_groups.
Qed.

Lemma draw_run (y : list Z) (alpha : Qc) (s l : nat) (v : Z) :
  y !! s = Some v →
  draw y alpha (s, l) =
  Py.bind (getitem colors v) (λ c, Ok (Span s (s + l) alpha c)).
Proof.
  intros Hv. cbv beta iota. unfold index. rewrite Hv. cbn [Py.bind].
  rewrite lookup_seq_lt by (eapply lookup_lt_Some; eauto). done.
Qed.

(** Every run of the labels has its start and its label. *)
Lemma runs_of_labels (y : list Z) (sl : nat * nat) :
  sl ∈ zip (prefix_sums 0 (lens (groupby y))) (lens (groupby y)) →
  ∃ v, y !! sl.1 = Some v.
Proof.
  intros Hin. apply list_elem_of_lookup in Hin as [i Hi].
  apply lookup_zip_with_Some in Hi as (s & l & -> & Hs & _).
  destruct (count_adjacent_values_values y) as [Hvals _].
  destruct (Forall2_lookup_l _ _ _ _ _ Hvals Hs) as (v & _ & Hv).
  by exists v.
Qed.

(** Every label of the array is the label of a run. *)
Lemma label_of_run (y : list Z) (v : Z) :
  v ∈ y →
  ∃ sl, sl ∈ zip (prefix_sums 0 (lens (groupby y))) (lens (groupby y)) ∧
        y !! sl.1 = Some v.
Proof.
  intros Hin. destruct y as [|y0 l0]; [by apply elem_of_nil in Hin |].
  destruct (groupby_runs y0 l0) as [Hr Hc].
  destruct (count_adjacent_values_values (y0 :: l0)) as [Hvals _].
  set (gs := groupby (y0 :: l0)) in *.
  assert (Hkey : ∃ i g, gs !! i = Some (v, g)).
  { rewrite <- Hc in Hin. clear Hc Hvals. revert Hin Hr. generalize y0.
    induction gs as [|[k g] gs IH]; intros k0 Hin Hr; [inversion Hr |].
    destruct (runs_from_head _ _ _ _ Hr) as (_ & _ & Hall).
    simpl in Hin. apply elem_of_app in Hin as [Hin | Hin].
    - eapply Forall_forall in Hall; [| done]. subst. by exists 0, g.
    - inversion Hr as [|? ? k' ? _ _ _ Hr']; subst;
        [by apply elem_of_nil in Hin |].
      destruct (IH k' Hin Hr') as (i & g' & Hi). by exists (Datatypes.S i), g'. }
  destruct Hkey as (i & g & Hi).
  assert (Hv : map fst gs !! i = Some v).
  { change (map fst gs) with (fst <$> gs). by rewrite list_lookup_fmap, Hi. }
  destruct (Forall2_lookup_r _ _ _ _ _ Hvals Hv) as (s & Hs & Hys).
  exists (s, length g). split; [| done].
  apply list_elem_of_lookup. exists i.
  apply lookup_zip_with_Some. exists s, (length g).
  split; [done |]. split; [done |].
  unfold lens. change (map ?f gs) with (f <$> gs).
  by rewrite list_lookup_fmap, Hi.
Qed.

(** Known labels: every run is drawn and the legend is found. *)
Lemma plot_category_drawn (y0 : Z) (l0 : list Z) (alpha : Qc) :
  Forall known_label (y0 :: l0) →
  ∃ sp l c,
    plot_category (Categorical (y0 :: l0)) alpha = Ok (Drawing sp l c) ∧
    cls !! y0 = Some l ∧ colors !! y0 = Some c ∧
    Forall2 (λ sl s, draw (y0 :: l0) alpha sl = Ok s)
      (zip (prefix_sums 0 (lens (groupby (y0 :: l0))))
           (lens (groupby (y0 :: l0)))) sp.
Proof.
  intros Hknown. rewrite plot_category_unfold.
  rewrite decide_False by by apply palette_size.
  destruct (traverse_Ok (draw (y0 :: l0) alpha)
              (zip (prefix_sums 0 (lens (groupby (y0 :: l0))))
                   (lens (groupby (y0 :: l0))))) as (sp & Hsp & HF).
  { intros [s l] Hin. destruct (runs_of_labels _ _ Hin) as [v Hv].
    rewrite (draw_run _ _ _ _ v Hv).
    assert (Hcol : is_Some (colors !! v)).
    { apply colors_lookup_is_Some. eapply Forall_forall in Hknown; [done |].
      by eapply list_elem_of_lookup_2. }
    destruct Hcol as [c Hc]. unfold getitem. rewrite Hc. by eexists. }
  inversion Hknown as [|? ? Hy0 _]; subst.
  destruct (proj2 (cls_lookup_is_Some y0) Hy0) as [l Hl].
  destruct (proj2 (colors_lookup_is_Some y0) Hy0) as [c Hc].
  exists sp, l, c. rewrite Hsp. unfold getitem, index. simpl.
  rewrite Hl, Hc. done.
Qed.

(** A label without colour among no more than nine: the loop ends in a
    [KeyError]. *)
Lemma plot_category_unknown (y : list Z) (alpha : Qc) :
  ¬ size colors < size (list_to_set y : gset Z) →
  Exists (λ v, ¬ known_label v) y →
  plot_category (Categorical y) alpha = Raise KeyError.
Proof.
  intros Hsize Hex. rewrite plot_category_unfold.
  rewrite decide_False by done.
  rewrite (traverse_Raise _ _ KeyError); [done | |].
  - intros [s l] Hin. destruct (runs_of_labels _ _ Hin) as [v Hv].
    rewrite (draw_run _ _ _ _ v Hv). unfold getitem.
    destruct (colors !! v); [right; by eexists | by left].
  - apply Exists_exists in Hex as (v & Hin & Hv).
    destruct (label_of_run y v Hin) as ([s l] & Hsl & Hys).
    exists (s, l). split; [done |]. rewrite (draw_run _ _ _ _ v Hys).
    unfold getitem. destruct (colors !! v) as [c|] eqn:Hc; [| done].
    exfalso. apply Hv. apply colors_lookup_is_Some. by eexists.
Qed.

(** Which way [plot_category] ends on categorical labels. *)
Lemma plot_category_cases (y : list Z) (alpha : Qc) :
  (y = [] → plot_category (Categorical y) alpha = Raise IndexError) ∧
  (size colors < size (list_to_set y : gset Z) →
   plot_category (Categorical y) alpha = Raise ValueError) ∧
  (¬ size colors < size (list_to_set y : gset Z) →
   Exists (λ v, ¬ known_label v) y →
   plot_category (Categorical y) alpha = Raise KeyError) ∧
  (y ≠ [] → Forall known_label y →
   ∃ d, plot_category (Categorical y) alpha = Ok d).
Proof.
  split; [by intros -> |]. split.
  { intros Hsize. rewrite plot_category_unfold. by rewrite decide_True. }
  split; [apply plot_category_unknown |].
  intros Hne Hknown. destruct y as [|y0 l0]; [done |].
  destruct (plot_category_drawn y0 l0 alpha Hknown) as (sp & l & c & Hd & _).
  by eexists.
Qed.

(** Categorical labels that are not empty never end in an [IndexError]. *)
Lemma plot_category_no_IndexError (y : list Z) (alpha : Qc) :
  y ≠ [] → plot_category (Categorical y) alpha ≠ Raise IndexError.
Proof.
  intros Hne.
  destruct (plot_category_cases y alpha) as (_ & Hvalue & Hkey & Hok).
  destruct (decide (size colors < size (list_to_set y : gset Z))) as [Hs|Hs].
  { by rewrite Hvalue. }
  destruct (decide (Forall known_label y)) as [Hk|Hk].
  - destruct (Hok Hne Hk) as [d ->]. done.
  - rewrite Hkey; [done | done |].
    apply not_Forall_Exists in Hk; [exact Hk | apply _].
Qed.

End PlotFacts.

Section DrawingFacts.
Import Utils Spec.

Lemma draw_inv (y : list Z) (alpha : Qc) (s l : nat) (sp : span) :
  (λ il : nat * nat,
     let '(idx, ln) := il in
     Py.bind (index y idx) (λ label,
     Py.bind (index (seq 0 (length y)) idx) (λ x,
     Py.bind (getitem colors label) (λ c,
     Ok (Span x (x + ln) alpha c))))) (s, l) = Ok sp →
  ∃ v c, y !! s = Some v ∧ colors !! v = Some c ∧ sp = Span s (s + l) alpha c.
Proof.
  cbv beta iota. unfold index.
  destruct (y !! s) as [v|] eqn:Hv; [| done]. cbn [Py.bind].
  rewrite lookup_seq_lt by (eapply lookup_lt_Some; eauto).
  unfold getitem. destruct (colors !! v) as [c|] eqn:Hc; [| done].
  simpl. intros [= <-]. by exists v, c.
Qed.

Lemma Forall2_fmap_eq {X Y Z' : Type} (f : X → Z') (g : Y → Z')
    (l : list X) (k : list Y) :
  Forall2 (λ x y, f x = g y) l k → f <$> l = g <$> k.
Proof. intros HF. apply list_eq_Forall2, Forall2_fmap. done. Qed.

Lemma Forall2_Forall_right {X Y : Type} (Q : Y → Prop)
    (l : list X) (k : list Y) :
  Forall2 (λ _ y, Q y) l k → Forall Q k.
Proof. induction 1; by constructor. Qed.

Lemma argmax_from_zeros (m : nat) : ∀ best besti i rest,
  (0 ≤ best)%Z →
  argmax_from best besti i (replicate m 0%Z ++ rest) =
  argmax_from best besti (i + m) rest.
Proof.
  induction m as [|m IH]; intros best besti i rest Hbest; simpl.
  - by rewrite Nat.add_0_r.
  - destruct (Z.ltb_spec best 0); [lia |].
    rewrite IH by done. f_equal. lia.
Qed.

Lemma argmax_one_hot (n k : nat) :
  k < n → argmax (one_hot n k) = Ok (Z.of_nat k).
Proof.
  intros Hk. unfold one_hot. rewrite insert_replicate_lt by done.
  destruct k as [|k]; simpl.
  - rewrite <- (app_nil_r (replicate _ _)).
    by rewrite argmax_from_zeros.
  - rewrite argmax_from_zeros by done. simpl.
    rewrite <- (app_nil_r (replicate _ _)).
    by rewrite argmax_from_zeros.
Qed.

Lemma class_labels_one_hot (n : nat) (ks : list nat) :
  Forall (λ k, k < n) ks →
  class_labels (OneHot (one_hot n <$> ks)) = Ok (Z.of_nat <$> ks).
Proof.
  unfold class_labels. induction 1 as [|k ks Hk _ IH]; [done |].
  change (Py.traverse argmax (one_hot n <$> k :: ks))
    with (Py.bind (argmax (one_hot n k)) (λ y,
          Py.bind (Py.traverse argmax (one_hot n <$> ks)) (λ ys, Ok (y :: ys)))).
  rewrite argmax_one_hot by done. cbn [Py.bind]. by rewrite IH.
Qed.

End DrawingFacts.

(** X4. For categorical labels that are not empty and all have a colour
    (codes 0 to 8), [plot_category] raises nothing and shades one span per
    run of [count_adjacent_values]: the spans start at 0, each ends where
    the next begins, the last ends at the length of the array, each has
    the [alpha] of the call and the colour of the label at its start, and
    the legend shows the name and the colour of the first label. *)
Theorem plot_category_spans (y : list Z) (alpha : Qc) :
  y ≠ [] → Forall Spec.known_label y →
  ∃ sp y0 l c,
    Utils.plot_category (Utils.Categorical y) alpha = Ok (Utils.Drawing sp l c) ∧
    y !! 0 = Some y0 ∧ Utils.cls !! y0 = Some l ∧ Utils.colors !! y0 = Some c ∧
    (Utils.xmin <$> sp, (λ s, Utils.xmax s - Utils.xmin s) <$> sp)
      = Utils.count_adjacent_values y ∧
    (Utils.xmin <$> sp) ++ [length y] = 0 :: (Utils.xmax <$> sp) ∧
    Forall (λ s, Utils.span_alpha s = alpha ∧
                 ∃ v, y !! Utils.xmin s = Some v ∧
                      Utils.colors !! v = Some (Utils.facecolor s)) sp.
Proof.
  intros Hne Hknown. destruct y as [|y0 l0]; [done |]. clear Hne.
  destruct (plot_category_drawn y0 l0 alpha Hknown) as (sp & l & c & Hd & Hl & Hc & HF).
  exists sp, y0, l, c. do 4 (split; [done |]).
  rewrite count_adjacent_values_groups.
  destruct (groupby_runs y0 l0) as [_ Hcat].
  set (y := y0 :: l0) in *. set (ls := Spec.lens (Utils.groupby y)) in *.
  assert (HQ : Forall2 (λ (sl : nat * nat) s,
            ∃ v c', y !! sl.1 = Some v ∧ Utils.colors !! v = Some c' ∧
                    s = Utils.Span sl.1 (sl.1 + sl.2) alpha c')
            (zip (Spec.prefix_sums 0 ls) ls) sp).
  { eapply Forall2_impl; [exact HF |]. intros [s n] s0 Hs0. by apply draw_inv. }
  assert (Hmin : (zip (Spec.prefix_sums 0 ls) ls).*1 = Utils.xmin <$> sp).
  { apply Forall2_fmap_eq. eapply Forall2_impl; [exact HQ |].
    by intros sl s (v & c' & _ & _ & ->). }
  assert (Hwidth : (zip (Spec.prefix_sums 0 ls) ls).*2
                   = (λ s, Utils.xmax s - Utils.xmin s) <$> sp).
  { apply Forall2_fmap_eq. eapply Forall2_impl; [exact HQ |].
    intros sl s (v & c' & _ & _ & ->). simpl. lia. }
  assert (Hmax : (λ sl : nat * nat, sl.1 + sl.2) <$> zip (Spec.prefix_sums 0 ls) ls
                 = Utils.xmax <$> sp).
  { apply Forall2_fmap_eq. eapply Forall2_impl; [exact HQ |].
    by intros sl s (v & c' & _ & _ & ->). }
  rewrite fst_zip in Hmin by (by rewrite length_prefix_sums).
  rewrite snd_zip in Hwidth by (by rewrite length_prefix_sums).
  split; [by rewrite <- Hmin, <- Hwidth |]. split.
  - rewrite <- Hmin, <- Hmax, <- prefix_sums_ends. do 2 f_equal.
    unfold ls. by rewrite sum_lens_concat, Hcat.
  - eapply Forall2_Forall_right, Forall2_impl; [exact HQ |].
    intros sl s (v & c' & Hv & Hc' & ->). simpl. split; [done |]. by exists v.
Qed.

(** The labels of a two-state trace that bleaches. *)
Lemma plot_category_spans_witness :
  let y := [5; 5; 5; 0; 0]%Z in
  ∃ sp y0 l c,
    Utils.plot_category (Utils.Categorical y) 1%Qc = Ok (Utils.Drawing sp l c) ∧
    y !! 0 = Some y0 ∧ Utils.cls !! y0 = Some l ∧ Utils.colors !! y0 = Some c ∧
    (Utils.xmin <$> sp, (λ s, Utils.xmax s - Utils.xmin s) <$> sp)
      = Utils.count_adjacent_values y ∧
    (Utils.xmin <$> sp) ++ [length y] = 0 :: (Utils.xmax <$> sp) ∧
    Forall (λ s, Utils.span_alpha s = 1%Qc ∧
                 ∃ v, y !! Utils.xmin s = Some v ∧
                      Utils.colors !! v = Some (Utils.facecolor s)) sp.
Proof.
  apply (plot_category_spans [5; 5; 5; 0; 0]%Z 1%Qc); [done |].
  unfold Spec.known_label. repeat constructor; lia.
Defined.

(** X5. How [plot_category] ends on categorical labels: an empty array is
    an [IndexError] (the legend reads the first label); more than nine
    distinct labels are the [ValueError]; no more than nine, one of them
    outside 0 to 8, are a [KeyError] of the colour lookup; otherwise
    nothing is raised. *)
Theorem plot_category_outcome (y : list Z) (alpha : Qc) :
  (y = [] → Utils.plot_category (Utils.Categorical y) alpha = Raise IndexError) ∧
  (size Utils.colors < size (list_to_set y : gset Z) →
   Utils.plot_category (Utils.Categorical y) alpha = Raise ValueError) ∧
  (¬ size Utils.colors < size (list_to_set y : gset Z) →
   Exists (λ v, ¬ Spec.known_label v) y →
   Utils.plot_category (Utils.Categorical y) alpha = Raise KeyError) ∧
  (y ≠ [] → Forall Spec.known_label y →
   ∃ d, Utils.plot_category (Utils.Categorical y) alpha = Ok d).
Proof. apply plot_category_cases. Qed.

(** A label 9 in a trace of two labels has no colour. *)
Lemma plot_category_outcome_witness :
  Utils.plot_category (Utils.Categorical [5; 5; 9]%Z) 1%Qc = Raise KeyError.
Proof.
  destruct (plot_category_outcome [5; 5; 9]%Z 1%Qc) as (_ & _ & Hkey & _).
  apply Hkey.
  - vm_compute. lia.
  - do 2 apply Exists_cons_tl. apply Exists_cons_hd.
    unfold Spec.known_label. lia.
Defined.

(** X6. One-hot coded labels are drawn as the categorical labels they
    code: for rows of width [n] that each have their single 1 at the
    position of the class, [plot_category] gives what it gives on the list
    of these positions. *)
Theorem plot_category_one_hot (n : nat) (ks : list nat) (alpha : Qc) :
  Forall (λ k, k < n) ks →
  Utils.plot_category (Utils.OneHot (Spec.one_hot n <$> ks)) alpha =
  Utils.plot_category (Utils.Categorical (Z.of_nat <$> ks)) alpha.
Proof.
  intros Hks. unfold Utils.plot_category.
  by rewrite class_labels_one_hot.
Qed.

(** Three frames over nine classes. *)
Lemma plot_category_one_hot_witness :
  Utils.plot_category (Utils.OneHot (Spec.one_hot 9 <$> [5; 5; 0])) 1%Qc =
  Utils.plot_category (Utils.Categorical (Z.of_nat <$> [5; 5; 0])) 1%Qc.
Proof. apply (plot_category_one_hot 9 [5; 5; 0] 1%Qc). repeat constructor; lia. Defined.

(** ** Labels that are categories *)

Section CategoryFacts.
Import Algorithms Utils Spec.

Lemma category_code_inj (K K' : nat) (c c' : category) :
  category_of K c → category_of K' c' →
  category_code c = category_code c' → c = c'.
Proof. destruct c, c'; simpl; intros; try done; try lia. f_equal. lia. Qed.

Lemma category_of_previewable (K : nat) (c : category) :
  K ≤ 5 → category_of K c → previewable c.
Proof. destruct c; simpl; try done. lia. Qed.

Lemma previewable_known (c : category) :
  previewable c → known_label (category_code c).
Proof. unfold known_label. destruct c; simpl; lia. Qed.

Lemma cls_category (c : category) :
  previewable c → cls !! category_code c = Some (category_name c).
Proof.
  destruct c as [| | | |k]; try reflexivity. simpl. intros Hk.
  assert (k = 1 ∨ k = 2 ∨ k = 3 ∨ k = 4 ∨ k = 5) as Hcases by lia.
  repeat (destruct Hcases as [->|Hcases]; [reflexivity |]).
  by subst.
Qed.

Lemma known_label_category (n : Z) :
  known_label n ↔ ∃ c, previewable c ∧ category_code c = n.
Proof.
  unfold known_label. split.
  - intros Hn. destruct (decide (n ≤ 3)%Z).
    + assert (n = 0 ∨ n = 1 ∨ n = 2 ∨ n = 3)%Z as [-> | [-> | [-> | ->]]] by lia.
      * by exists Bleached.
      * by exists Aggregate.
      * by exists Noisy.
      * by exists Scramble.
    + exists (State (Z.to_nat (n - 3))). simpl. lia.
  - intros [[| | | |k] [Hk <-]]; simpl in *; lia.
Qed.

(** The rows of a labelled trace with their categories. *)
Lemma labelled_categories (K : nat) (t : list row) :
  labelled K t →
  ∃ cs, Forall2 (λ r c, category_of K c ∧ label r = category_code c) t cs.
Proof.
  induction 1 as [|r t (c & Hc & Hl) _ (cs & Hcs)]; [by exists [] |].
  exists (c :: cs). by constructor.
Qed.

Lemma categories_codes (K : nat) (t : list row) (cs : list category) :
  Forall2 (λ r c, category_of K c ∧ label r = category_code c) t cs →
  Forall (category_of K) cs ∧ label <$> t = category_code <$> cs.
Proof.
  intros HF. split.
  - induction HF as [|r c t cs [Hc _] _ IH]; by constructor.
  - apply Forall2_fmap_eq. eapply Forall2_impl; [exact HF |]. by intros r c [_ ?].
Qed.

(** What is drawn for the codes of a list of categories: the spans tile
    the frames, each covers frames of one category and has the colour of
    that category, and the legend names the category of the first
    frame. *)
Lemma plot_category_categories (cs : list category) (alpha : Qc) :
  cs ≠ [] → Forall previewable cs →
  ∃ sp c0 col,
    head cs = Some c0 ∧
    plot_category (Categorical (category_code <$> cs)) alpha
      = Ok (Drawing sp (category_name c0) col) ∧
    colors !! category_code c0 = Some col ∧
    (xmin <$> sp) ++ [length cs] = 0 :: (xmax <$> sp) ∧
    Forall (λ s, xmin s < xmax s ∧
                 ∃ c, (∀ j, xmin s ≤ j < xmax s → cs !! j = Some c) ∧
                      colors !! category_code c = Some (facecolor s)) sp.
Proof.
  intros Hne Hprev. destruct cs as [|c0 cs']; [done |]. clear Hne.
  set (cs := c0 :: cs') in *.
  assert (Hknown : Forall known_label (category_code c0 :: (category_code <$> cs'))).
  { change (Forall known_label (category_code <$> cs)).
    apply Forall_fmap. eapply Forall_impl; [exact Hprev |].
    intros c. apply previewable_known. }
  destruct (plot_category_drawn _ _ alpha Hknown) as (sp & l & col & Hd & Hl & Hc & HF).
  assert (Hc0 : previewable c0) by (by inversion Hprev).
  rewrite (cls_category c0 Hc0) in Hl. injection Hl as <-.
  exists sp, c0, col. do 3 (split; [done |]).
  destruct (groupby_runs (category_code c0) (category_code <$> cs')) as [Hr Hcat].
  set (y := category_code c0 :: (category_code <$> cs')) in *.
  set (ls := lens (groupby y)) in *.
  assert (Hy : y = category_code <$> cs) by done.
  assert (Hlook := λ i s', runs_lookup (groupby y) (category_code c0) [] i s' Hr).
  cbn [length app] in Hlook. rewrite Hcat in Hlook. fold ls in Hlook.
  assert (HQ : Forall2 (λ (sl : nat * nat) s,
            ∃ v c', y !! sl.1 = Some v ∧ colors !! v = Some c' ∧
                    s = Span sl.1 (sl.1 + sl.2) alpha c')
            (zip (prefix_sums 0 ls) ls) sp).
  { eapply Forall2_impl; [exact HF |]. intros [s n] s0 Hs0. by apply draw_inv. }
  split.
  - assert (Hmin : (zip (prefix_sums 0 ls) ls).*1 = xmin <$> sp).
    { apply Forall2_fmap_eq. eapply Forall2_impl; [exact HQ |].
      by intros sl s (v & c' & _ & _ & ->). }
    assert (Hmax : (λ sl : nat * nat, sl.1 + sl.2) <$> zip (prefix_sums 0 ls) ls
                   = xmax <$> sp).
    { apply Forall2_fmap_eq. eapply Forall2_impl; [exact HQ |].
      by intros sl s (v & c' & _ & _ & ->). }
    rewrite fst_zip in Hmin by (by rewrite length_prefix_sums).
    rewrite <- Hmin, <- Hmax, <- prefix_sums_ends. do 2 f_equal.
    unfold ls. rewrite sum_lens_concat, Hcat. unfold y, cs. simpl.
    by rewrite length_fmap.
  - apply Forall_lookup. intros i s Hs.
    destruct (Forall2_lookup_r _ _ _ _ _ HQ Hs)
      as ([st n] & Hzip & v & c' & Hv & Hcol & ->).
    apply lookup_zip_with_Some in Hzip as (st' & n' & [= <- <-] & Hst & Hn).
    destruct (Hlook i st Hst) as (k & n' & Hn' & Hpos & Hrun & _).
    rewrite Hn in Hn'. injection Hn' as <-. cbn [fst snd] in *.
    assert (v = k) as ->.
    { specialize (Hrun 0 Hpos). rewrite Nat.add_0_r in Hrun. congruence. }
    cbn [xmin xmax facecolor]. split; [lia |].
    assert (Hcode : ∀ j, j < n → ∃ c, cs !! (st + j) = Some c ∧ category_code c = k).
    { intros j Hj. specialize (Hrun j Hj). rewrite Hy, list_lookup_fmap in Hrun.
      destruct (cs !! (st + j)) as [c|]; [| done].
      exists c. split; [done |]. by injection Hrun. }
    destruct (Hcode 0 Hpos) as (c & Hc0' & Hck). rewrite Nat.add_0_r in Hc0'.
    exists c. split; [| by rewrite Hck].
    intros j Hj. destruct (Hcode (j - st) ltac:(lia)) as (cj & Hcj & Hcjk).
    replace (st + (j - st)) with j in Hcj by lia. rewrite Hcj. f_equal.
    apply (category_code_inj 5 5); [| | congruence].
    + eapply Forall_lookup_1 in Hprev; [exact Hprev | exact Hcj].
    + eapply Forall_lookup_1 in Hprev; [exact Hprev | exact Hc0'].
Qed.

(** What is drawn for the label column of a labelled trace. *)
Lemma plot_category_labelled (K : nat) (trace : list row) (alpha : Qc) :
  K ≤ 5 → trace ≠ [] → labelled K trace →
  ∃ cs sp c0 col,
    Forall2 (λ r c, category_of K c ∧ label r = category_code c) trace cs ∧
    head cs = Some c0 ∧
    plot_category (Categorical (label <$> trace)) alpha
      = Ok (Drawing sp (category_name c0) col) ∧
    colors !! category_code c0 = Some col ∧
    (xmin <$> sp) ++ [length trace] = 0 :: (xmax <$> sp) ∧
    Forall (λ s, xmin s < xmax s ∧
                 ∃ c, (∀ j, xmin s ≤ j < xmax s → cs !! j = Some c) ∧
                      colors !! category_code c = Some (facecolor s)) sp.
Proof.
  intros HK Hne Hlab.
  destruct (labelled_categories K trace Hlab) as [cs HF].
  destruct (categories_codes K trace cs HF) as [Hcs Heq].
  assert (Hprev : Forall previewable cs).
  { eapply Forall_impl; [exact Hcs |]. intros c. by apply category_of_previewable. }
  assert (Hcs_ne : cs ≠ []).
  { intros ->. apply Forall2_nil_inv_r in HF. done. }
  destruct (plot_category_categories cs alpha Hcs_ne Hprev)
    as (sp & c0 & col & Hhead & Hplot & Hcol & Htile & Hspans).
  exists cs, sp, c0, col. rewrite Heq, (Forall2_length _ _ _ HF). done.
Qed.

(** The preview of a trace that is there, in a table labelled as the
    data model says with at most five states. *)
Lemma preview_labelled (K : nat) (t : list row) (i : nat) :
  K ≤ 5 → labelled K t → Exists (λ r, name r = i) t →
  ∃ panel r0 c0,
    head (filter (λ r, name r = i) t) = Some r0 ∧
    category_of K c0 ∧ label r0 = category_code c0 ∧
    Main.preview t i = Ok panel ∧
    legend_label (Main.categories panel) = category_name c0.
Proof.
  intros HK Hlab Hex.
  assert (Hlab' : labelled K (filter (λ r, name r = i) t)).
  { unfold labelled in *. apply Forall_forall. intros r Hr.
    apply list_elem_of_filter in Hr as [_ Hr]. by eapply Forall_forall in Hlab. }
  unfold Main.preview.
  destruct (filter (λ r, name r = i) t) as [|r0 trace] eqn:Hf.
  { apply Exists_exists in Hex as (r & Hr & Hn).
    assert (r ∈ filter (λ r, name r = i) t) as Hin by (by apply list_elem_of_filter).
    rewrite Hf in Hin. by apply elem_of_nil in Hin. }
  destruct (plot_category_labelled K (r0 :: trace) (Q2Qc (4 # 10)))
    as (cs & sp & c0 & col & HF & Hhead & Hplot & _); [done | done | done |].
  rewrite Hplot. cbn [fmap list_fmap index lookup list_lookup Py.bind].
  inversion HF as [|? c0' ? cs' [Hc0 Hl0] _]; subst.
  injection Hhead as <-.
  eexists _, r0, c0'. split; [done |]. split; [done |].
  split; [done |]. split; [reflexivity | done].
Qed.

End CategoryFacts.



(** X25. In a table whose labels are the codes of categories of traces
    with at most five states, the preview of every trace that has rows
    succeeds, the labels being read by position, and its legend names
    the category of the first frame of that trace. *)
Theorem preview_of_labelled_table (K : nat) (t : list Algorithms.row) (i : nat) :
  K ≤ 5 → Spec.labelled K t → Exists (λ r, Algorithms.name r = i) t →
  ∃ panel r0 c0,
    head (filter (λ r, Algorithms.name r = i) t) = Some r0 ∧
    Spec.category_of K c0 ∧ Algorithms.label r0 = Spec.category_code c0 ∧
    Main.preview t i = Ok panel ∧
    Utils.legend_label (Main.categories panel) = Spec.category_name c0.
Proof. apply preview_labelled. Qed.

(** The sample table holds two traces of two states, every frame in the
    second state: the preview of trace 1 succeeds and its legend reads
    [2-state]. *)
Lemma preview_of_labelled_table_witness :
  ∃ panel,
    Main.preview Examples.table0 1 = Ok panel ∧
    Utils.legend_label (Main.categories panel) = "2-state".
Proof.
  destruct (preview_of_labelled_table 2 Examples.table0 1)
    as (panel & r0 & c0 & Hr0 & _ & Hl & Hp & Hleg).
  - lia.
  - unfold Spec.labelled, Examples.table0.
    repeat (constructor;
            [exists (Spec.State 2); split; [simpl; lia | reflexivity] |]).
    constructor.
  - do 3 apply Exists_cons_tl. by apply Exists_cons_hd.
  - exists panel. split; [exact Hp |]. rewrite Hleg.
    injection Hr0 as <-. destruct c0 as [| | | |k]; try discriminate Hl.
    simpl in Hl. assert (k = 2) as -> by lia. reflexivity.
Defined.

(** ** [numstring_to_ls] on any text *)

Section FractionFacts.
Import Py.

(** What group 1 of a match holds: nothing, or a point and digits. *)
Local Abbreviation fraction_group grp :=
  (grp = [] ∨ ∃ fp, grp = dot :: fp ∧ Spec.digits fp).

Lemma match_fraction_group s grp rest :
  match_fraction s = (grp, rest) → fraction_group grp.
Proof.
  destruct s as [|c s]; simpl; [intros [= <- <-]; by left |].
  destruct (Ascii.eqb c dot) eqn:Hc; [| intros [= <- <-]; by left].
  apply Ascii.eqb_eq in Hc as ->.
  destruct (span is_digit s) as [ds r] eqn:Hspan.
  pose proof (span_all _ _ _ _ Hspan) as Hds.
  destruct ds as [|d ds]; intros [= <- <-]; [by left |].
  right. exists (d :: ds). by repeat split.
Qed.

Lemma match_number_group s grp rest :
  match_number s = Some (grp, rest) → fraction_group grp.
Proof.
  unfold match_number.
  destruct (span is_digit s) as [[|d ds] r1]; [done |].
  destruct (match_fraction r1) as [g r2] eqn:Hf.
  destruct (span is_space r2) as [ws r3].
  intros [= <- <-]. by eapply match_fraction_group.
Qed.

Lemma findall_no_match c s :
  match_number (c :: s) = None → findall (c :: s) = findall s.
Proof.
  intros Hm. unfold findall at 1. cbn [length findall_fuel]. rewrite Hm.
  by apply findall_fuel_enough.
Qed.

Lemma findall_groups (s : list ascii) :
  Forall (λ grp, fraction_group grp) (findall s).
Proof.
  remember (length s) as n eqn:Hn. revert s Hn.
  induction n as [n IH] using lt_wf_ind. intros s ->.
  destruct s as [|c s]; [constructor |].
  destruct (match_number (c :: s)) as [[grp rest]|] eqn:Hm.
  - rewrite (findall_match _ _ _ Hm).
    constructor; [by eapply match_number_group |].
    apply match_number_shorter in Hm. by eapply IH.
  - rewrite findall_no_match by done. eapply IH; [| done]. simpl. lia.
Qed.

Lemma digit_value_range c : is_digit c = true → (0 ≤ digit_value c ≤ 9)%Z.
Proof.
  unfold is_digit, digit_value. rewrite andb_true_iff, !Nat.leb_le. lia.
Qed.

Lemma digits_value_bound (ds : list ascii) : ∀ acc : Z,
  Forall (λ c, is_digit c = true) ds → (0 ≤ acc)%Z →
  (0 ≤ fold_left (λ acc c, 10 * acc + digit_value c) ds acc
     < (acc + 1) * 10 ^ Z.of_nat (length ds))%Z.
Proof.
  induction ds as [|c ds IH]; intros acc Hds Hacc.
  - simpl. lia.
  - inversion Hds as [|? ? Hc Hds']; subst.
    pose proof (digit_value_range c Hc) as Hd.
    destruct (IH (10 * acc + digit_value c)%Z Hds' ltac:(lia)) as [Hlo Hhi].
    cbn [fold_left length]. rewrite Nat2Z.inj_succ, Z.pow_succ_r by lia.
    split; [done |].
    assert (0 < 10 ^ Z.of_nat (length ds))%Z by (apply Z.pow_pos_nonneg; lia).
    nia.
Qed.

(** A fraction group denotes a number from 0 up to, not including, 1. *)
Lemma decimal_fraction_range fp :
  Spec.digits fp → (0 ≤ decimal [] fp)%Qc ∧ (decimal [] fp < 1)%Qc.
Proof.
  intros [_ Hfp].
  destruct (digits_value_bound fp 0 Hfp ltac:(lia)) as [Hlo Hhi].
  assert (Hscale : (0 < 10 ^ Z.of_nat (length fp))%Z)
    by (apply Z.pow_pos_nonneg; lia).
  unfold decimal, Qcle, Qclt. cbn [this Q2Qc]. rewrite ?Qred_correct.
  unfold Qle, Qlt. cbn [Qnum Qden]. rewrite Z2Pos.id by done.
  change (digits_value []) with 0%Z. unfold digits_value. lia.
Qed.

Lemma float_group grp :
  fraction_group grp →
  (grp = [] ∧ float grp = Raise ValueError) ∨
  (∃ v, float grp = Ok v ∧ (0 ≤ v)%Qc ∧ (v < 1)%Qc).
Proof.
  intros [-> | (fp & -> & Hfp)]; [by left |].
  right. exists (decimal [] fp). split; [by apply float_fraction |].
  by apply decimal_fraction_range.
Qed.

Lemma numstring_to_ls_cases (s : string) :
  match Utils.numstring_to_ls s with
  | Ok vs => ([] ∉ findall (list_ascii_of_string s)) ∧
             Forall (λ v, (0 ≤ v)%Qc ∧ (v < 1)%Qc) vs
  | Raise e => [] ∈ findall (list_ascii_of_string s) ∧ e = ValueError
  end.
Proof.
  unfold Utils.numstring_to_ls.
  pose proof (findall_groups (list_ascii_of_string s)) as Hgroups.
  induction Hgroups as [|grp groups Hgrp _ IH]; cbn [traverse].
  - split; [by intros ?%elem_of_nil | constructor].
  - destruct (float_group grp Hgrp) as [[Hnil Hf] | (v & Hf & Hv)];
      rewrite Hf; cbn [bind].
    { split; [rewrite Hnil; by left | done]. }
    destruct (traverse float groups) as [vs|e]; cbn [bind].
    + destruct IH as [Hnot Hvs]. split; [| by constructor].
      intros [<- | Hin]%elem_of_cons; [by cbv in Hf | done].
    + destruct IH as [Hin ->]. split; [by right | done].
Qed.

(** The first number of the text is an integer that no fraction follows. *)
Lemma findall_integer pre ip rest :
  Spec.digit_free pre → Spec.digits ip →
  (∀ c r, rest = c :: r → is_digit c = false ∧ c ≠ dot) →
  ∃ groups, findall (pre ++ ip ++ rest) = [] :: groups.
Proof.
  intros Hpre [Hne Hip] Hrest. rewrite findall_skip by done.
  destruct (span is_space rest) as [ws r3] eqn:Hws.
  exists (findall r3). apply findall_match. unfold match_number.
  rewrite (span_run is_digit ip)
    by (done || (intros c r Hr; by destruct (Hrest c r Hr))).
  destruct ip as [|d ip]; [done |].
  assert (Hfrac : match_fraction rest = ([], rest)).
  { destruct rest as [|c r]; [done |]. simpl.
    destruct (Hrest c r eq_refl) as [_ Hdot].
    by apply Ascii.eqb_neq in Hdot as ->. }
  by rewrite Hfrac, Hws.
Qed.

End FractionFacts.

(** The coarse rounding of the samples keeps the order and leaves 0 and 1
    as they are. *)
Lemma snap_rounding : Spec.rounding Examples.snap.
Proof.
  unfold Spec.rounding, Examples.snap. split; [| split].
  - intros x y Hxy. repeat case_decide; try done.
    + destruct (Qclt_le_dec y 1) as [Hy|Hy]; [| done].
      exfalso. match goal with H : ¬ _ |- _ => apply H end.
      split; [| done]. eapply Qclt_le_trans; [| exact Hxy]. tauto.
    + apply Qclt_le_weak. eapply Qcle_lt_trans; [exact Hxy | tauto].
  - rewrite decide_False; [done |]. by intros [? _].
  - rewrite decide_False; [done |]. intros [_ Hlt]. by apply Qclt_not_eq in Hlt.
Qed.

(** X7. Whatever the text, the decimal that each number returned by
    [numstring_to_ls] is read from is at least 0 and below 1, since only
    the fraction group of a match is converted and the integer part is
    lost; so the float that Python returns for it, the nearest double, is
    between 0 and 1, both included (1.0 is reached when the fraction is
    nearer to 1 than to the double below it). *)
Theorem numstring_to_ls_range (s : string) (vs : list Qc) (rnd : Qc → Qc) :
  Utils.numstring_to_ls s = Ok vs →
  Spec.rounding rnd →
  Forall (λ v, ((0 ≤ v)%Qc ∧ (v < 1)%Qc) ∧
               ((0 ≤ rnd v)%Qc ∧ (rnd v ≤ 1)%Qc)) vs.
Proof.
  intros Hs (Hmono & Hzero & Hone).
  pose proof (numstring_to_ls_cases s) as Hcases.
  rewrite Hs in Hcases. destruct Hcases as [_ Hvs].
  eapply Forall_impl; [exact Hvs |]. intros v [Hlo Hhi].
  split; [done |]. split.
  - rewrite <- Hzero. by apply Hmono.
  - rewrite <- Hone. apply Hmono. by apply Qclt_le_weak.
Qed.

(** The state mean 12.96 is read as 0.96, which the coarse rounding of
    the samples takes to 1. *)
Lemma numstring_to_ls_range_witness :
  Forall (λ v, ((0 ≤ v)%Qc ∧ (v < 1)%Qc) ∧
               ((0 ≤ Examples.snap v)%Qc ∧ (Examples.snap v ≤ 1)%Qc))
    [Q2Qc (24 # 25)].
Proof.
  apply (numstring_to_ls_range "12.96" [Q2Qc (24 # 25)] Examples.snap);
    [compute_done | exact snap_rounding].
Defined.

(** X8. [numstring_to_ls] raises exactly when the fraction group of some
    match is empty, that is when a number of the text is matched without
    a fraction, and the exception is then the [ValueError] of [float]; a
    text without any digit gives the empty list. *)
Theorem numstring_to_ls_raises (s : string) :
  (∀ e, Utils.numstring_to_ls s = Raise e →
        e = ValueError ∧ [] ∈ Py.findall (list_ascii_of_string s)) ∧
  ([] ∈ Py.findall (list_ascii_of_string s) →
   Utils.numstring_to_ls s = Raise ValueError) ∧
  (Spec.digit_free (list_ascii_of_string s) → Utils.numstring_to_ls s = Ok []).
Proof.
  pose proof (numstring_to_ls_cases s) as Hcases.
  split; [| split].
  - intros e He. rewrite He in Hcases. by destruct Hcases.
  - intros Hin. destruct (Utils.numstring_to_ls s) as [vs|e].
    + by destruct Hcases.
    + by destruct Hcases as [_ ->].
  - intros Hfree. unfold Utils.numstring_to_ls.
    rewrite <- (app_nil_r (list_ascii_of_string s)).
    by rewrite findall_skip.
Qed.

(** The text [3 states] has a number without fraction; the text [none]
    has no digit. *)
Lemma numstring_to_ls_raises_witness :
  Utils.numstring_to_ls "3 states" = Raise ValueError ∧
  Utils.numstring_to_ls "none" = Ok [].
Proof.
  split.
  - destruct (numstring_to_ls_raises "3 states") as (_ & Hraise & _).
    apply Hraise. vm_compute. by left.
  - destruct (numstring_to_ls_raises "none") as (_ & _ & Hnone).
    apply Hnone. unfold Spec.digit_free. by repeat constructor.
Defined.

(** X9. A text whose first number is an integer makes [numstring_to_ls]
    raise [ValueError]: after a lead without digits come digits and then
    the end of the text or a character that is neither a digit nor the
    point. *)
Theorem numstring_to_ls_integer (pre ip rest : list ascii) :
  Spec.digit_free pre → Spec.digits ip →
  (∀ c r, rest = c :: r → Py.is_digit c = false ∧ c ≠ Py.dot) →
  Utils.numstring_to_ls (string_of_list_ascii (pre ++ ip ++ rest))
  = Raise ValueError.
Proof.
  intros Hpre Hip Hrest. unfold Utils.numstring_to_ls.
  rewrite list_ascii_of_string_of_list_ascii.
  by destruct (findall_integer pre ip rest Hpre Hip Hrest) as [groups ->].
Qed.

(** The text [= 2 x 3]. *)
Lemma numstring_to_ls_integer_witness :
  Utils.numstring_to_ls "= 2 x 3" = Raise ValueError.
Proof.
  apply (numstring_to_ls_integer
           (list_ascii_of_string "= ") (list_ascii_of_string "2")
           (list_ascii_of_string " x 3")).
  - unfold Spec.digit_free. by repeat constructor.
  - split; [done | by repeat constructor].
  - intros c r [= <- _]. by split.
Defined.

(** ** [values_from_gui], [refresh_ui] and [refresh_plots] *)

Section WindowFacts.
Import Algorithms Main.

Lemma values_from_gui_Ok (u : ui) (old : Inputs) (i : Inputs) :
  values_from_gui u old = (i, Ok ()) →
  n_examples i = (examplesComboBox u ^ 2)%Z ∧
  ∀ old', values_from_gui u old' = (i, Ok ()).
Proof.
  unfold values_from_gui.
  destruct (checkBoxRandomState u);
    [| destruct (Utils.numstring_to_ls (inputFretStateMeans u)) as [ls|e]];
    simpl; intros [= <-]; done.
Qed.

Lemma values_from_gui_Raise (u : ui) (old : Inputs) (i : Inputs) (e : exn) :
  values_from_gui u old = (i, Raise e) →
  checkBoxRandomState u = false ∧ e = ValueError ∧
  Utils.numstring_to_ls (inputFretStateMeans u) = Raise ValueError ∧
  i = MkInputs (examplesComboBox u ^ 2) (inputNumberOfTraces u)
        (inputTraceLength u) (max_random_states old) (donor_lifetime old)
        (acceptor_lifetime old) (inputMaxAggregateSize u)
        (inputAggregateProbability u) (inputScrambleProbability u)
        (blinking_prob old) (transition_prob old) (scaling_factor old)
        (aa_mismatch old) (bleed_through old) (noise old) (fret_means old).
Proof.
  unfold values_from_gui.
  destruct (checkBoxRandomState u); [done |].
  pose proof (numstring_to_ls_cases (inputFretStateMeans u)) as Hcases.
  destruct (Utils.numstring_to_ls (inputFretStateMeans u)) as [ls|e'];
    simpl; [done |].
  destruct Hcases as [_ ->]. by intros [= <- <-].
Qed.

Lemma lo_or_pair_agree (c : bool) (lo hi hi' : Qc) :
  (negb c = true → hi = hi') → lo_or_pair c lo hi = lo_or_pair c lo hi'.
Proof. destruct c; simpl; [done |]. by intros ->. Qed.

Lemma lifetime_agree (c : bool) (x x' : Z) :
  (negb c = true → x = x') →
  (if c then None else Some x) = (if c then None else Some x').
Proof. destruct c; simpl; [done |]. by intros ->. Qed.

Lemma preview_loop_Ok (t : list row) (panels : list nat) : ∀ fig fig',
  preview_loop t panels fig = (fig', Ok ()) →
  ∃ new, fig' = fig ++ new ∧ Forall2 (λ i p, preview t i = Ok p) panels new.
Proof.
  induction panels as [|i panels IH]; intros fig fig'; simpl.
  - intros [= <-]. exists []. split; [by rewrite app_nil_r | constructor].
  - destruct (preview t i) as [sp|e] eqn:Hi; [| done].
    intros Hloop. destruct (IH _ _ Hloop) as (new & -> & HF).
    exists (sp :: new). split; [by rewrite <- app_assoc | by constructor].
Qed.

Lemma filter_nil_Forall {X : Type} (P : X → Prop) `{∀ x, Decision (P x)}
    (l : list X) :
  filter P l = [] ↔ Forall (λ x, ¬ P x) l.
Proof.
  induction l as [|x l IH].
  - split; [constructor | done].
  - rewrite filter_cons. destruct (decide (P x)) as [Hx|Hx].
    + split; [done |]. by inversion 1.
    + rewrite IH. split; [by constructor | by inversion 1].
Qed.

Lemma preview_IndexError (t : list row) (i : nat) :
  preview t i = Raise IndexError ↔ Forall (λ r, name r ≠ i) t.
Proof.
  rewrite <- (filter_nil_Forall (λ r, name r = i)).
  unfold preview. destruct (filter (λ r, name r = i) t) as [|r trace] eqn:Hf.
  - done.
  - split; [| done]. intros Hraise. exfalso.
    cbn [fmap list_fmap Utils.index lookup list_lookup Py.bind] in Hraise.
    revert Hraise.
    assert (Hne : label <$> r :: trace ≠ [])
      by (intros Hn; apply fmap_nil_inv in Hn; discriminate).
    pose proof (plot_category_no_IndexError _ (Q2Qc (4 # 10)) Hne) as Hplot.
    destruct (Utils.plot_category _ _) as [cat|e]; simpl; [done |].
    intros [= ->]. done.
Qed.

Lemma insert_unique_sorted (x : Qc) (l : list Qc) :
  StronglySorted Qclt l → StronglySorted Qclt (insert_unique x l).
Proof.
  induction 1 as [|y l Hl IH Hy]; simpl.
  - by repeat constructor.
  - destruct (decide (x = y)) as [->|Hxy]; [by constructor |].
    destruct (decide (x < y)%Qc) as [Hlt|Hge].
    + constructor; [by constructor |]. constructor; [done |].
      eapply Forall_impl; [exact Hy |]. intros z Hz. simpl in Hz.
      by eapply Qclt_trans.
    + constructor; [done |].
      apply Forall_forall. intros z Hz.
      apply elem_of_insert_unique in Hz as [-> | Hz].
      * apply Qcnot_lt_le in Hge. apply Qcle_lt_or_eq in Hge as [? | ?]; [done |].
        congruence.
      * by eapply Forall_forall in Hy.
Qed.

Lemma np_unique_sorted (l : list Qc) : StronglySorted Qclt (np_unique l).
Proof.
  unfold np_unique. induction l as [|x l IH]; simpl; [constructor |].
  by apply insert_unique_sorted.
Qed.

Lemma filter_sorted (P : Qc → Prop) `{∀ x, Decision (P x)} (l : list Qc) :
  StronglySorted Qclt l → StronglySorted Qclt (filter P l).
Proof.
  induction 1 as [|y l Hl IH Hy]; [constructor |].
  rewrite filter_cons. destruct (decide (P y)); [| done].
  constructor; [done |]. apply Forall_forall. intros z Hz.
  apply list_elem_of_filter in Hz as [_ Hz]. by eapply Forall_forall in Hy.
Qed.

Lemma sorted_NoDup (l : list Qc) : StronglySorted Qclt l → NoDup l.
Proof.
  induction 1 as [|y l Hl IH Hy]; constructor; [| done].
  intros Hin. eapply Forall_forall in Hy; [| done].
  by apply Qclt_not_eq in Hy.
Qed.

End WindowFacts.

(** X10. When [values_from_gui] succeeds, the inputs it leaves are a
    function of the widgets alone: whatever the inputs were before, the
    result is the same, so nothing of an earlier reading survives. *)
Theorem values_from_gui_fresh (u : Main.ui) (old : Main.Inputs) (i : Main.Inputs) :
  Main.values_from_gui u old = (i, Ok ()) →
  ∀ old', Main.values_from_gui u old' = (i, Ok ()).
Proof. intros Hv. by apply (values_from_gui_Ok u old i). Qed.

(** The sample widgets, read over blank inputs and over their own
    reading. *)
Lemma values_from_gui_fresh_witness :
  let i := (Main.values_from_gui Examples.ui0 Examples.blank).1 in
  Main.values_from_gui Examples.ui0 i = (i, Ok ()).
Proof.
  intros i. apply (values_from_gui_fresh Examples.ui0 Examples.blank i).
  compute_done.
Defined.

(** X11. [values_from_gui] fails only when the box for random states is
    not ticked and [numstring_to_ls] rejects the text of the state means,
    with its [ValueError]; the inputs are then half refreshed: the numbers
    of examples and traces, the trace length, the aggregate size and the
    aggregation and scramble probabilities are those of the widgets, all
    other inputs are still the earlier ones. *)
Theorem values_from_gui_failure (u : Main.ui) (old i : Main.Inputs) (e : exn) :
  Main.values_from_gui u old = (i, Raise e) →
  Main.checkBoxRandomState u = false ∧ e = ValueError ∧
  Utils.numstring_to_ls (Main.inputFretStateMeans u) = Raise ValueError ∧
  i = Main.MkInputs (Main.examplesComboBox u ^ 2) (Main.inputNumberOfTraces u)
        (Main.inputTraceLength u) (Main.max_random_states old)
        (Main.donor_lifetime old) (Main.acceptor_lifetime old)
        (Main.inputMaxAggregateSize u) (Main.inputAggregateProbability u)
        (Main.inputScrambleProbability u) (Main.blinking_prob old)
        (Main.transition_prob old) (Main.scaling_factor old)
        (Main.aa_mismatch old) (Main.bleed_through old) (Main.noise old)
        (Main.fret_means old).
Proof. apply values_from_gui_Raise. Qed.

(** The sample widgets with the state means [2 3]: the blank inputs keep
    their state means and get the four examples of the widgets. *)
Lemma values_from_gui_failure_witness :
  let u := Examples.with_means "2 3" Examples.ui0 in
  let i := (Main.values_from_gui u Examples.blank).1 in
  Main.checkBoxRandomState u = false ∧
  Main.fret_means i = Algorithms.RandomMeans ∧
  Main.n_examples i = 4%Z.
Proof.
  intros u i.
  destruct (values_from_gui_failure u Examples.blank i ValueError)
    as (Hbox & _ & _ & Hi); [compute_done |].
  split; [exact Hbox |]. rewrite Hi. by split.
Defined.

(** X12. What [values_from_gui] collects does not depend on the boxes
    that [refresh_ui] disables (save [inputMaxRandomStates], which is read
    whether enabled or not): two states of the widgets that agree on the
    check boxes, on the boxes that are always enabled, on
    [inputMaxRandomStates] and on every governed box that [refresh_ui]
    leaves enabled give the same inputs and the same outcome. *)
Theorem disabled_boxes_not_read (u1 u2 : Main.ui) (old : Main.Inputs) :
  Spec.same_enabled_input u1 u2 →
  Main.values_from_gui u1 old = Main.values_from_gui u2 old.
Proof.
  destruct u1, u2. unfold Spec.same_enabled_input, Main.refresh_ui.
  cbn -[negb]. intros (Hfree & Hboxes & Hlo & Hd & Ha & Ht & Hm & Hn & Hmm & Hs & Hb).
  destruct Hfree as (-> & -> & -> & -> & -> & -> & -> & ->).
  destruct Hboxes as (-> & -> & -> & -> & -> & -> & -> & ->).
  destruct Hlo as (-> & -> & -> & -> & ->).
  unfold Main.values_from_gui. cbn -[negb Z.pow Utils.numstring_to_ls].
  rewrite (lifetime_agree _ _ _ Hd), (lifetime_agree _ _ _ Ha).
  rewrite (lo_or_pair_agree _ _ _ _ Ht), (lo_or_pair_agree _ _ _ _ Hn).
  rewrite (lo_or_pair_agree _ _ _ _ Hmm), (lo_or_pair_agree _ _ _ _ Hs).
  rewrite (lo_or_pair_agree _ _ _ _ Hb).
  match goal with |- context [if ?c then Ok Algorithms.RandomMeans else _] =>
    destruct c; [done |] end.
  by rewrite (Hm eq_refl).
Qed.

(** In the sample widgets the lifetimes are random and four of the ranges
    are fixed: other numbers in the boxes these settings disable change
    nothing. *)
Lemma disabled_boxes_not_read_witness :
  Main.values_from_gui Examples.ui0 Examples.blank =
  Main.values_from_gui
    (Examples.with_upper_boxes 999 (Q2Qc (1 # 2)) Examples.ui0) Examples.blank.
Proof.
  apply (disabled_boxes_not_read Examples.ui0
           (Examples.with_upper_boxes 999 (Q2Qc (1 # 2)) Examples.ui0)).
  unfold Spec.same_enabled_input. simpl.
  repeat split; (reflexivity || discriminate).
Defined.

(** X13. When [refresh_plots] succeeds, the widgets are untouched, the
    number of examples is the square of the entry of the examples box and
    no more than the number of traces, the table held is the one the
    generator returned when asked for as many traces as examples, with
    the inputs now held, and the figure has one panel per example, the
    [i]-th being the preview of the trace named [i]. *)
Theorem refresh_plots_success
    (gen : Algorithms.arguments → Utils.rng →
           result (list Algorithms.row) * Utils.rng)
    (w w' : Main.window) (g g' : Utils.rng) :
  Main.refresh_plots gen w g = (w', g', Ok ()) →
  let n := Main.n_examples (Main.inputs w') in
  Main.widgets w' = Main.widgets w ∧
  n = (Main.examplesComboBox (Main.widgets w) ^ 2)%Z ∧
  (n ≤ Main.n_traces (Main.inputs w'))%Z ∧
  gen (Main.set_traces_arguments (Main.inputs w') n) g = (Ok (Main.traces w'), g') ∧
  length (Main.figure w') = Z.to_nat n ∧
  ∀ i panel, Main.figure w' !! i = Some panel →
             Main.preview (Main.traces w') i = Ok panel.
Proof.
  unfold Main.refresh_plots.
  destruct (Main.values_from_gui _ _) as [i [[]|e]] eqn:Hv; [| done].
  apply values_from_gui_Ok in Hv as [Hn _].
  unfold Main.set_traces. cbn [Main.with_inputs Main.inputs].
  assert (Hex : Main.n_examples (Main.at_least_examples i) = Main.n_examples i).
  { unfold Main.at_least_examples. by case_decide. }
  assert (Hle : (Main.n_examples (Main.at_least_examples i)
                 ≤ Main.n_traces (Main.at_least_examples i))%Z).
  { unfold Main.at_least_examples. case_decide; simpl; lia. }
  destruct (gen _ g) as [[t|e] g1] eqn:Hgen; [| done].
  cbn [Main.with_traces Main.inputs Main.traces Main.widgets Main.figure].
  destruct (Main.preview_loop _ _ _) as [fig r] eqn:Hloop.
  intros [= <- <- ->]. simpl.
  apply preview_loop_Ok in Hloop as (new & -> & HF). simpl.
  split; [done |]. split; [by rewrite Hex |]. split; [done |].
  split; [done |]. split.
  - by rewrite <- (Forall2_length _ _ _ HF), length_seq.
  - intros k panel Hk.
    destruct (Forall2_lookup_r _ _ _ _ _ HF Hk) as (j & Hj & Hp).
    apply lookup_seq in Hj as [-> _]. done.
Qed.

(** One example, drawn from the sample table. *)
Lemma refresh_plots_success_witness :
  let w := Examples.window_of (Examples.with_examples 1 Examples.ui0) in
  let w' := (Main.refresh_plots Examples.sample_table w (Utils.Rng 7 0)).1.1 in
  length (Main.figure w') = 1 ∧ Main.traces w' = Examples.table0.
Proof.
  intros w w'.
  destruct (refresh_plots_success Examples.sample_table w w'
              (Utils.Rng 7 0) (Utils.Rng 7 0))
    as (_ & Hn & _ & _ & Hlen & _); [compute_done |].
  split; [by rewrite Hlen, Hn | reflexivity].
Defined.

(** X14. The preview of the trace named [i] raises [IndexError] exactly
    when the table has no row of that name (the bleach frame is read from
    the first row); whatever the rows of a trace that is there hold, the
    preview does not end in an [IndexError]. *)
Theorem preview_missing_trace (t : list Algorithms.row) (i : nat) :
  Main.preview t i = Raise IndexError ↔
  Forall (λ r, Algorithms.name r ≠ i) t.
Proof. apply preview_IndexError. Qed.

(** X15. The true FRET states of a preview panel come in strictly
    increasing order, so each state gets its line once. *)
Theorem fret_states_increasing (trace : list Algorithms.row) :
  StronglySorted Qclt (Main.fret_states trace) ∧
  NoDup (Main.fret_states trace).
Proof.
  assert (Hs : StronglySorted Qclt (Main.fret_states trace)).
  { unfold Main.fret_states. apply filter_sorted, np_unique_sorted. }
  split; [done | by apply sorted_NoDup].
Qed.

(** ** The export on any table *)

Section ChunkFacts.
Import Main Spec.
Context {R : Type}.

Lemma chunked_nonempty (L : nat) (blocks : list (list R)) :
  0 < L → chunked L blocks → Forall (λ b, b ≠ []) blocks.
Proof.
  intros HL. induction blocks as [|b blocks IH]; intros Hc; [constructor |].
  assert (Hb : b ≠ []).
  { destruct blocks; simpl in Hc; destruct b; simpl in *; (done || lia). }
  constructor; [done |]. destruct blocks as [|b' blocks']; [constructor |].
  apply IH. by destruct Hc.
Qed.

(** Row numbers divided by [L] number the pieces, also when the last
    piece is short. *)
Lemma positional_index_chunked (L : nat) (blocks : list (list R)) : ∀ i0,
  0 < L → chunked L blocks →
  (λ p, (Z.of_nat (i0 * L + p) / Z.of_nat L)%Z)
    <$> seq 0 (length (concat blocks))
  = block_keys i0 blocks.
Proof.
  induction blocks as [|b blocks IH]; intros i0 HL Hc; [done |].
  assert (Hb : length b ≤ L) by (destruct blocks; simpl in Hc; lia).
  rewrite block_keys_cons. simpl concat. rewrite length_app.
  rewrite seq_app, fmap_app. f_equal.
  - apply list_eq. intros j. rewrite list_lookup_fmap.
    destruct (decide (j < length b)) as [Hj|Hj].
    + rewrite lookup_seq_lt, lookup_replicate_2 by done. simpl. f_equal.
      rewrite Nat2Z.inj_add, Nat2Z.inj_mul, Z.add_comm, Z.div_add by lia.
      rewrite Z.div_small by lia. lia.
    + rewrite lookup_seq_ge by lia. simpl. symmetry.
      apply lookup_replicate_None. lia.
  - destruct blocks as [|b' blocks']; [done |].
    destruct Hc as [HbL Hc]. rewrite <- IH by done.
    generalize (length (concat (b' :: blocks'))). intros n.
    change (0 + length b) with (length b).
    replace (seq (length b) n) with (Nat.add (length b) <$> seq 0 n)
      by (rewrite fmap_add_seq; f_equal; lia).
    rewrite <- list_fmap_compose.
    apply list_fmap_ext. intros _ p _. simpl. do 2 f_equal. lia.
Qed.

(** Every table can be cut into pieces of [L] rows. *)
Lemma chunks_exist (L : nat) (t : list R) :
  0 < L → ∃ blocks, t = concat blocks ∧ chunked L blocks.
Proof.
  intros HL. remember (length t) as n eqn:Hn. revert t Hn.
  induction n as [n IH] using lt_wf_ind. intros t ->.
  destruct (decide (length t ≤ L)) as [Hle|Hgt].
  - destruct t as [|r t]; [by exists [] |].
    exists [r :: t]. split; [simpl; by rewrite app_nil_r |]. simpl in *. lia.
  - destruct (IH (length (drop L t))) with (t := drop L t)
      as (blocks & Hcat & Hch); [rewrite length_drop; lia | done |].
    exists (take L t :: blocks). split.
    + simpl. by rewrite <- Hcat, take_drop.
    + destruct blocks as [|b' blocks'].
      * apply (f_equal length) in Hcat. rewrite length_drop in Hcat.
        simpl in Hcat. lia.
      * split; [rewrite length_take; lia | done].
Qed.

Lemma groupby_chunked (L : nat) (blocks : list (list R)) :
  0 < L → chunked L blocks →
  groupby (positional_index (length (concat blocks)) (Z.of_nat L))
    (concat blocks)
  = imap (λ i b, (Z.of_nat i, b)) blocks.
Proof.
  intros HL Hc.
  assert (Hpos : positional_index (length (concat blocks)) (Z.of_nat L)
                 = block_keys 0 blocks).
  { by rewrite <- (positional_index_chunked L blocks 0). }
  unfold groupby. rewrite Hpos.
  by rewrite (fold_blocks blocks 0 [])
    by (constructor || by eapply chunked_nonempty).
Qed.

Lemma positional_index_zero (len : nat) :
  positional_index len 0 = replicate len 0%Z.
Proof.
  unfold positional_index.
  transitivity (replicate (length (seq 0 len)) 0%Z);
    [| by rewrite length_seq].
  apply const_fmap. intros p x _. apply Z.div_0_r.
Qed.

Lemma groupby_zero (t : list R) :
  t ≠ [] → groupby (positional_index (length t) 0) t = [(0%Z, t)].
Proof.
  intros Ht. rewrite positional_index_zero. unfold groupby.
  by rewrite (fold_block t [] 0%Z) by (done || constructor).
Qed.

End ChunkFacts.

Section ExportOutcomeFacts.
Import Algorithms Main Spec.
Context (repr : Qc → string) (round4 : Qc → Qc).
Context (dir : string) (strftime : nat → string).

(** The loop over groups that are not empty never raises and never
    removes a file. *)
Lemma export_loop_total (groups : list (Z * list row)) : ∀ k disk,
  Forall (λ g, g.2 ≠ []) groups →
  ∃ disk',
    export_loop repr round4 dir strftime k groups disk = (disk', Ok ()) ∧
    ∀ p, is_Some (disk !! p) → is_Some (disk' !! p).
Proof.
  induction groups as [|[idx trace] groups IH]; intros k disk Hne.
  - by exists disk.
  - inversion Hne as [|? ? Htrace Hne']; subst. simpl in Htrace.
    destruct trace as [|r0 rest]; [done |].
    pose proof (export_text_pieces repr round4 idx r0 rest (strftime (k + 1))) as Htext.
    set (text0 := _ +:+ _) in Htext.
    rewrite (export_loop_cons repr round4 dir strftime k idx _ groups disk text0 Htext).
    destruct (IH (k + 2) (<[os_path_join dir
                ("trace_" +:+ str_int idx +:+ "_" +:+ strftime k +:+ ".txt")
              := text0]> disk) Hne') as (disk' & Hloop & Hkeep).
    exists disk'. split; [exact Hloop |]. intros p Hp. apply Hkeep.
    apply lookup_insert_is_Some.
    destruct (decide (os_path_join dir
                ("trace_" +:+ str_int idx +:+ "_" +:+ strftime k +:+ ".txt") = p));
      [by left | by right].
Qed.

End ExportOutcomeFacts.

(** X16. Whatever the table holds, for a trace length [L > 0] in the
    widget the exporter's groups are the table cut by position into
    pieces of [L] rows, the last piece shorter when [L] does not divide
    the number of rows: group [i] is the [i]-th piece, the names of the
    rows play no part. *)
Theorem export_cuts_by_position {R : Type} (L : nat) (t : list R) :
  0 < L →
  ∃ blocks,
    t = concat blocks ∧ Spec.chunked L blocks ∧
    Main.groupby (Main.positional_index (length t) (Z.of_nat L)) t
    = imap (λ i b, (Z.of_nat i, b)) blocks.
Proof.
  intros HL. destruct (chunks_exist L t HL) as (blocks & -> & Hc).
  exists blocks. split; [done |]. split; [done |]. by apply groupby_chunked.
Qed.

(** The sample table, two traces of three frames, with 4 in the widget:
    a group of four rows and a group of two. *)
Lemma export_cuts_by_position_witness :
  ∃ blocks,
    Examples.table0 = concat blocks ∧ Spec.chunked 4 blocks ∧
    Main.groupby (Main.positional_index (length Examples.table0) (Z.of_nat 4))
      Examples.table0
    = imap (λ i b, (Z.of_nat i, b)) blocks.
Proof. apply (export_cuts_by_position 4 Examples.table0). lia. Defined.

(** X17. With 0 in the trace-length widget the whole table is one group:
    when the generator returns rows and a folder is chosen, the export
    writes a single file, numbered 0, that holds every row. *)
Theorem export_zero_trace_length
    (gen : Algorithms.arguments → Utils.rng →
           result (list Algorithms.row) * Utils.rng)
    (repr : Qc → string) (round4 : Qc → Qc) (dir : string) (strftime : nat → string)
    (w : Main.window) (g g' : Utils.rng) (disk : gmap string string)
    (t : list Algorithms.row) :
  Main.inputTraceLength (Main.widgets w) = 0%Z →
  gen (Main.set_traces_arguments (Main.inputs w)
         (Main.inputNumberOfTraces (Main.widgets w))) g = (Ok t, g') →
  t ≠ [] →
  ∃ text,
    Main.export_text repr round4 0 t (strftime 1) = Ok text ∧
    Main.export_traces_to_ascii gen repr round4 (Some dir) strftime w g disk =
    (Main.with_traces w t, g',
     <[Main.os_path_join dir ("trace_0_" +:+ strftime 0 +:+ ".txt") := text]> disk,
     Ok ()).
Proof.
  intros HL Hgen Ht. destruct t as [|r0 rest]; [done |].
  pose proof (export_text_pieces repr round4 0 r0 rest (strftime 1)) as Htext.
  eexists. split; [exact Htext |].
  unfold Main.export_traces_to_ascii, Main.set_traces. rewrite Hgen.
  cbn [Main.traces Main.with_traces Main.widgets]. rewrite HL.
  rewrite groupby_zero by done.
  by rewrite (export_loop_cons repr round4 dir strftime 0 0 _ [] disk _ Htext).
Qed.

(** The sample table exported with 0 in the widget: one file. *)
Lemma export_zero_trace_length_witness :
  ∃ text,
    Main.export_text Examples.repr_fraction Examples.round4 0 Examples.table0 (Examples.clock 1)
    = Ok text ∧
    Main.export_traces_to_ascii Examples.sample_table Examples.repr_fraction Examples.round4
      (Some "out") Examples.clock
      (Examples.window_of (Examples.with_sizes 2 0 Examples.ui0))
      (Utils.Rng 7 0) ∅ =
    (Main.with_traces
       (Examples.window_of (Examples.with_sizes 2 0 Examples.ui0))
       Examples.table0,
     Utils.Rng 7 0,
     <[Main.os_path_join "out" ("trace_0_" +:+ Examples.clock 0 +:+ ".txt")
       := text]> ∅,
     Ok ()).
Proof.
  apply (export_zero_trace_length Examples.sample_table Examples.repr_fraction Examples.round4
           "out" Examples.clock
           (Examples.window_of (Examples.with_sizes 2 0 Examples.ui0))
           (Utils.Rng 7 0) (Utils.Rng 7 0) ∅ Examples.table0);
    [reflexivity | reflexivity | discriminate].
Defined.

(** X18. How [export_traces_to_ascii] ends: the generator is run first,
    with the number of traces of the widget; if it raises, that exception
    is the outcome and window and files are untouched; otherwise the
    window holds the new table and nothing is raised, whatever the table
    holds, and a dismissed dialog leaves the files untouched though the
    table has been replaced. In no case does a file disappear. *)
Theorem export_outcome
    (gen : Algorithms.arguments → Utils.rng →
           result (list Algorithms.row) * Utils.rng)
    (repr : Qc → string) (round4 : Qc → Qc) (outdir : option string) (strftime : nat → string)
    (w : Main.window) (g : Utils.rng) (disk : gmap string string) :
  let run := gen (Main.set_traces_arguments (Main.inputs w)
                    (Main.inputNumberOfTraces (Main.widgets w))) g in
  let '(w', g', disk', r) :=
    Main.export_traces_to_ascii gen repr round4 outdir strftime w g disk in
  g' = run.2 ∧
  (∀ p, is_Some (disk !! p) → is_Some (disk' !! p)) ∧
  match run.1 with
  | Ok t => r = Ok () ∧ w' = Main.with_traces w t ∧ (outdir = None → disk' = disk)
  | Raise e => r = Raise e ∧ w' = w ∧ disk' = disk
  end.
Proof.
  intros run. unfold Main.export_traces_to_ascii, Main.set_traces.
  fold run. destruct run as [[t|e] g1]; [| done].
  cbn [Main.traces Main.with_traces Main.widgets].
  destruct outdir as [dir|]; [| done].
  destruct (export_loop_total repr round4 dir strftime
              (Main.groupby (Main.positional_index (length t)
                               (Main.inputTraceLength (Main.widgets w))) t)
              0 disk (groupby_nonempty _ _)) as (disk' & -> & Hkeep).
  done.
Qed.

(** X19. Of the widgets, the export reads the number of traces and the
    trace length and nothing else: every other parameter of the
    generation is the one collected at the last refresh, so a window
    whose other widgets have been edited since exports the same files
    and holds the same table afterwards. *)
Theorem export_reads_two_widgets
    (gen : Algorithms.arguments → Utils.rng →
           result (list Algorithms.row) * Utils.rng)
    (repr : Qc → string) (round4 : Qc → Qc) (outdir : option string) (strftime : nat → string)
    (w : Main.window) (u' : Main.ui) (g : Utils.rng) (disk : gmap string string) :
  Main.inputNumberOfTraces u' = Main.inputNumberOfTraces (Main.widgets w) →
  Main.inputTraceLength u' = Main.inputTraceLength (Main.widgets w) →
  let edited := Main.Window u' (Main.inputs w) (Main.traces w) (Main.figure w) in
  let '(w1, g1, disk1, r1) :=
    Main.export_traces_to_ascii gen repr round4 outdir strftime w g disk in
  let '(w2, g2, disk2, r2) :=
    Main.export_traces_to_ascii gen repr round4 outdir strftime edited g disk in
  g1 = g2 ∧ disk1 = disk2 ∧ r1 = r2 ∧
  Main.traces w1 = Main.traces w2 ∧ Main.inputs w1 = Main.inputs w2.
Proof.
  intros Hn HL edited.
  unfold Main.export_traces_to_ascii, Main.set_traces, edited.
  cbn [Main.inputs Main.widgets]. rewrite Hn.
  destruct (gen _ g) as [[t|e] g1]; [| done].
  cbn [Main.traces Main.with_traces Main.widgets Main.inputs]. rewrite HL.
  destruct outdir as [dir|]; [| done].
  by destruct (Main.export_loop _ _ _ _ _ _) as [disk' r].
Qed.

(** The sample window after other state means have been typed: the
    export still uses the means of the last refresh. *)
Lemma export_reads_two_widgets_witness :
  let w := Examples.window_of Examples.ui0 in
  let edited := Main.Window (Examples.with_means "0.1 0.5 0.9" Examples.ui0)
                  (Main.inputs w) (Main.traces w) (Main.figure w) in
  let '(w1, g1, disk1, r1) :=
    Main.export_traces_to_ascii Examples.sample_table Examples.repr_fraction Examples.round4
      (Some "out") Examples.clock w (Utils.Rng 7 0) ∅ in
  let '(w2, g2, disk2, r2) :=
    Main.export_traces_to_ascii Examples.sample_table Examples.repr_fraction Examples.round4
      (Some "out") Examples.clock edited (Utils.Rng 7 0) ∅ in
  g1 = g2 ∧ disk1 = disk2 ∧ r1 = r2 ∧
  Main.traces w1 = Main.traces w2 ∧ Main.inputs w1 = Main.inputs w2.
Proof.
  apply (export_reads_two_widgets Examples.sample_table Examples.repr_fraction Examples.round4
           (Some "out") Examples.clock (Examples.window_of Examples.ui0)
           (Examples.with_means "0.1 0.5 0.9" Examples.ui0) (Utils.Rng 7 0) ∅);
    reflexivity.
Defined.

(** ** ui/ui_build.py *)

Section UiBuildFacts.
Import UiBuild Spec.

Lemma rstrip_all (chars : list ascii) (t : string) :
  Forall (λ c, c ∈ chars) (list_ascii_of_string t) → rstrip chars t = "".
Proof.
  induction t as [|c t IH]; simpl; [done |].
  intros Hall. inversion Hall as [|? ? Hc Ht]; subst.
  by rewrite IH, bool_decide_true.
Qed.

Lemma rstrip_app (chars : list ascii) (s t : string) :
  Forall (λ c, c ∈ chars) (list_ascii_of_string t) →
  rstrip chars (s +:+ t) = rstrip chars s.
Proof.
  intros Hall. induction s as [|c s IH].
  - change ("" +:+ t) with t. by rewrite rstrip_all.
  - rewrite string_app_cons. cbn [rstrip]. by rewrite IH.
Qed.

Lemma rstrip_fixed (chars : list ascii) (s : string) :
  rstrip chars s = s ↔
  match last (list_ascii_of_string s) with
  | Some c => c ∉ chars
  | None => True
  end.
Proof.
  induction s as [|c s IH]; [done |].
  cbn [rstrip list_ascii_of_string].
  destruct s as [|c' s'].
  - simpl. case_bool_decide; split; (done || tauto).
  - change (last (c :: list_ascii_of_string (String c' s')))
      with (last (list_ascii_of_string (String c' s'))).
    rewrite <- IH. destruct (rstrip chars (String c' s')) as [|a r].
    + split; [| done]. by case_bool_decide.
    + split; [by intros [= -> ->] | by intros ->].
Qed.

(** What [rstrip] leaves is the beginning of the text. *)
Lemma rstrip_prefix (chars : list ascii) (s : string) :
  ∃ rest, s = rstrip chars s +:+ rest.
Proof.
  induction s as [|c s [rest IH]]; [by exists "" |].
  cbn [rstrip]. destruct (rstrip chars s) as [|a r].
  - case_bool_decide; [by exists (String c s) |].
    exists s. by rewrite string_app_cons.
  - exists rest. rewrite string_app_cons. by rewrite <- IH.
Qed.

Lemma command_for_inj (a rest : string) :
  command_for a = command_for (a +:+ rest) → rest = "".
Proof.
  unfold command_for. intros Heq. apply (f_equal String.length) in Heq.
  rewrite !string_length_app in Heq. destruct rest; [done |].
  simpl in Heq. lia.
Qed.

Lemma generatePyFromUi_commands (verbose : bool) (ui_files : list string)
    (exists_ : string → bool) :
  commands (generatePyFromUi verbose ui_files exists_)
  = convert_command <$> filter (λ f, exists_ f = true) ui_files ∧
  printed (generatePyFromUi verbose ui_files exists_)
  = if verbose
    then (λ f, f +:+ " was converted") <$> filter (λ f, exists_ f = true) ui_files
    else [].
Proof.
  unfold generatePyFromUi, commands, printed.
  induction ui_files as [|f files [IHc IHp]]; [by destruct verbose |].
  rewrite filter_cons. cbn [flat_map].
  destruct (exists_ f) eqn:Hf.
  - rewrite decide_True by done. rewrite !omap_app, IHc, IHp.
    by destruct verbose.
  - rewrite decide_False by done. simpl. by rewrite IHc, IHp.
Qed.

End UiBuildFacts.

(** X20. For an interface file [stem.ui], the command that
    [generatePyFromUi] runs is the one for the stem without its trailing
    points, [u]s and [i]s, since [rstrip] takes a set of characters and
    not a suffix: it converts the file that was found exactly when the
    stem does not end in a point, a [u] or an [i]. *)
Theorem convert_command_stem (stem : string) :
  UiBuild.convert_command (stem +:+ ".ui")
  = Spec.command_for (UiBuild.rstrip (list_ascii_of_string ".ui") stem) ∧
  (UiBuild.convert_command (stem +:+ ".ui") = Spec.command_for stem ↔
   Spec.clean_end stem).
Proof.
  assert (Hcmd : UiBuild.convert_command (stem +:+ ".ui")
          = Spec.command_for (UiBuild.rstrip (list_ascii_of_string ".ui") stem)).
  { unfold UiBuild.convert_command, Spec.command_for.
    rewrite rstrip_app; [done |]. simpl.
    repeat (constructor; [rewrite !elem_of_cons; tauto |]). constructor. }
  split; [exact Hcmd |]. rewrite Hcmd.
  unfold Spec.clean_end, Spec.last_char. rewrite <- rstrip_fixed.
  split; [| by intros ->].
  destruct (rstrip_prefix (list_ascii_of_string ".ui") stem) as [rest Hrest].
  intros Heq. rewrite Hrest in Heq at 2.
  apply command_for_inj in Heq. subst rest.
  by rewrite string_app_nil_r in Hrest.
Qed.

(** The file [gui.ui] makes the script convert [g.ui]. *)
Example convert_command_gui :
  UiBuild.convert_command "gui.ui" = "exec python3 -m PyQt5.uic.pyuic g.ui -o g.py -x".
Proof. reflexivity. Qed.

(** X21. [generatePyFromUi] runs one command for each file of the
    listing that exists, in the order of the listing, and nothing for
    the others; [verbose] decides only whether a line is printed for
    each of these files, and the line names the file as it was found. *)
Theorem generatePyFromUi_events (verbose : bool) (ui_files : list string)
    (exists_ : string → bool) :
  Spec.commands (UiBuild.generatePyFromUi verbose ui_files exists_)
  = UiBuild.convert_command <$> filter (λ f, exists_ f = true) ui_files ∧
  Spec.printed (UiBuild.generatePyFromUi verbose ui_files exists_)
  = if verbose
    then (λ f, f +:+ " was converted") <$> filter (λ f, exists_ f = true) ui_files
    else [].
Proof. apply generatePyFromUi_commands. Qed.

(** ** How [refresh_plots] fails *)

Section RefreshFailureFacts.
Import Algorithms Main.

Lemma preview_loop_Raise (t : list row) (panels : list nat) : ∀ fig fig' e,
  preview_loop t panels fig = (fig', Raise e) →
  ∃ before i after new,
    panels = before ++ i :: after ∧ fig' = fig ++ new ∧
    Forall2 (λ j p, preview t j = Ok p) before new ∧
    preview t i = Raise e.
Proof.
  induction panels as [|i panels IH]; intros fig fig' e; simpl; [done |].
  destruct (preview t i) as [sp|e'] eqn:Hi.
  - intros Hloop.
    destruct (IH _ _ _ Hloop) as (before & j & after & new & -> & -> & HF & Hj).
    exists (i :: before), j, after, (sp :: new).
    split; [done |]. split; [by rewrite <- app_assoc |].
    split; [by constructor | done].
  - intros [= <- <-]. exists [], i, panels, [].
    split; [done |]. split; [by rewrite app_nil_r |]. split; [constructor | done].
Qed.

(** The panels that a failing loop over [0 .. n-1] has drawn, and the one
    that failed. *)
Lemma preview_loop_seq_Raise (t : list row) (n : nat) fig' e :
  preview_loop t (seq 0 n) [] = (fig', Raise e) →
  length fig' < n ∧ preview t (length fig') = Raise e ∧
  ∀ k panel, fig' !! k = Some panel → preview t k = Ok panel.
Proof.
  intros Hloop.
  destruct (preview_loop_Raise _ _ _ _ _ Hloop)
    as (before & i & after & new & Hseq & -> & HF & Hi).
  simpl. pose proof (Forall2_length _ _ _ HF) as Hlen.
  assert (Hith : seq 0 n !! length new = Some i).
  { rewrite Hseq, <- Hlen. by rewrite list_lookup_middle. }
  apply lookup_seq in Hith as [-> Hlt]. split; [done |]. split; [done |].
  intros k panel Hk.
  destruct (Forall2_lookup_r _ _ _ _ _ HF Hk) as (j & Hj & Hp).
  assert (Hjk : seq 0 n !! k = Some j).
  { rewrite Hseq. by apply lookup_app_l_Some. }
  by apply lookup_seq in Hjk as [-> _].
Qed.

End RefreshFailureFacts.

(** X22. When [refresh_plots] fails, it is in one of three ways. The
    text of the state means is rejected: a [ValueError], the generator
    has not run, table and figure are the old ones. The generator
    raises: its exception comes out, table and figure are the old ones
    and the inputs are the new ones. A preview raises: the table is the
    new one and the figure holds the panels of the traces before the one
    whose preview raised, fewer than the examples asked for. The widgets
    are never changed. *)
Theorem refresh_plots_failure
    (gen : Algorithms.arguments → Utils.rng →
           result (list Algorithms.row) * Utils.rng)
    (w w' : Main.window) (g g' : Utils.rng) (e : exn) :
  Main.refresh_plots gen w g = (w', g', Raise e) →
  let n := Main.n_examples (Main.inputs w') in
  Main.widgets w' = Main.widgets w ∧
  ((Main.values_from_gui (Main.widgets w) (Main.inputs w)
      = (Main.inputs w', Raise ValueError) ∧
    e = ValueError ∧ g' = g ∧
    Main.traces w' = Main.traces w ∧ Main.figure w' = Main.figure w) ∨
   ((Main.values_from_gui (Main.widgets w) (Main.inputs w)).2 = Ok () ∧
    gen (Main.set_traces_arguments (Main.inputs w') n) g = (Raise e, g') ∧
    Main.traces w' = Main.traces w ∧ Main.figure w' = Main.figure w) ∨
   ((Main.values_from_gui (Main.widgets w) (Main.inputs w)).2 = Ok () ∧
    gen (Main.set_traces_arguments (Main.inputs w') n) g
      = (Ok (Main.traces w'), g') ∧
    length (Main.figure w') < Z.to_nat n ∧
    Main.preview (Main.traces w') (length (Main.figure w')) = Raise e ∧
    ∀ k panel, Main.figure w' !! k = Some panel →
               Main.preview (Main.traces w') k = Ok panel)).
Proof.
  unfold Main.refresh_plots.
  destruct (Main.values_from_gui _ _) as [i [[]|e0]] eqn:Hv.
  - unfold Main.set_traces. cbn [Main.with_inputs Main.inputs].
    destruct (gen _ g) as [[t|e1] g1] eqn:Hgen.
    + cbn [Main.with_traces Main.inputs Main.traces Main.widgets Main.figure].
      destruct (Main.preview_loop _ _ _) as [fig r] eqn:Hloop.
      intros [= <- <- ->]. simpl. split; [done |]. right. right.
      apply preview_loop_seq_Raise in Hloop.
      split; [done |]. split; [done |]. exact Hloop.
    + intros [= <- <- <-]. simpl. split; [done |]. right. left. by repeat split.
  - intros [= <- <- <-]. simpl. split; [done |]. left.
    apply values_from_gui_Raise in Hv as Hcases.
    destruct Hcases as (_ & -> & _). by repeat split.
Qed.

(** The sample window asks for four examples and the sample table has
    two traces: the third preview raises [IndexError] after two panels. *)
Lemma refresh_plots_failure_witness :
  let w := Examples.window_of Examples.ui0 in
  let w' := (Main.refresh_plots Examples.sample_table w (Utils.Rng 7 0)).1.1 in
  length (Main.figure w') = 2 ∧
  Main.preview (Main.traces w') 2 = Raise IndexError.
Proof.
  intros w w'.
  destruct (refresh_plots_failure Examples.sample_table w w'
              (Utils.Rng 7 0) (Utils.Rng 7 0) IndexError)
    as (_ & [(_ & He & _) | [(_ & Hgen & _) | (_ & _ & _ & Hraise & _)]]);
    [compute_done | discriminate He | discriminate Hgen |].
  split; [reflexivity | exact Hraise].
Defined.

(** ** The seed and the entropy *)

Section EntropyFacts.

Lemma int_from_bytes_little_inj (bs1 : list Byte.byte) : ∀ bs2,
  length bs1 = length bs2 →
  Utils.int_from_bytes_little bs1 = Utils.int_from_bytes_little bs2 →
  bs1 = bs2.
Proof.
  induction bs1 as [|b1 bs1 IH]; intros [|b2 bs2] Hlen; try done.
  simpl in *. intros Heq.
  pose proof (Byte.to_N_bounded b1) as Hb1.
  pose proof (Byte.to_N_bounded b2) as Hb2.
  assert (Hb : Byte.to_N b1 = Byte.to_N b2) by lia.
  assert (b1 = b2) as ->.
  { apply (inj Some). by rewrite <- !Byte.of_to_N, Hb. }
  f_equal. apply IH; lia.
Qed.

End EntropyFacts.

(** X23. The seed keeps all the entropy: two calls of [random_seed_mp],
    each on four bytes, leave the generator in the same state exactly
    when the bytes were the same. *)
Theorem random_seed_mp_entropy (v1 v2 : bool) (bs1 bs2 : list Byte.byte)
    (p1 p2 p1' p2' : Utils.process) :
  length bs1 = 4 → length bs2 = 4 →
  Utils.random_seed_mp v1 bs1 p1 = Ok p1' →
  Utils.random_seed_mp v2 bs2 p2 = Ok p2' →
  (Utils.np_random p1' = Utils.np_random p2' ↔ bs1 = bs2).
Proof.
  intros Hl1 Hl2 H1 H2.
  apply random_seed_mp_Ok in H1 as [-> _].
  apply random_seed_mp_Ok in H2 as [-> _].
  split; [| by intros ->].
  intros [= Heq]. apply int_from_bytes_little_inj; [congruence | done].
Qed.

(** The bytes [2a 00 00 00] and [00 2a 00 00] give different seeds. *)
Lemma random_seed_mp_entropy_witness :
  let bs1 := [Byte.x2a; Byte.x00; Byte.x00; Byte.x00] in
  let bs2 := [Byte.x00; Byte.x2a; Byte.x00; Byte.x00] in
  let p := Utils.Process (Utils.Rng 1 5) [] in
  Utils.Rng 42 0 = Utils.Rng 10752 0 ↔ bs1 = bs2.
Proof.
  intros bs1 bs2 p.
  apply (random_seed_mp_entropy false false bs1 bs2 p p
           (Utils.Process (Utils.Rng 42 0) [])
           (Utils.Process (Utils.Rng 10752 0) [])); reflexivity.
Defined.

(** X24. With four bytes of entropy [random_seed_mp] never raises: it
    seeds the generator with their little-endian value, as an explicit
    [np.random.seed] of that number does, and prints the value when
    verbose and nothing otherwise; two verbose re-seedings whose last
    printed lines are the same leave the generator in the same state. *)
Theorem random_seed_mp_logged (verbose : bool) (bs : list Byte.byte)
    (p : Utils.process) :
  length bs = 4 →
  let seed_val := Utils.int_from_bytes_little bs in
  Utils.np_random_seed seed_val = Ok (Utils.Rng seed_val 0) ∧
  Utils.random_seed_mp verbose bs p =
    Ok (Utils.Process (Utils.Rng seed_val 0)
          (Utils.stdout p ++
           (if verbose then ["Random seed value: " +:+ pretty seed_val]
            else []))) ∧
  ∀ bs2 p2 p1' p2',
    Utils.random_seed_mp true bs p = Ok p1' →
    Utils.random_seed_mp true bs2 p2 = Ok p2' →
    last (Utils.stdout p1') = last (Utils.stdout p2') →
    Utils.np_random p1' = Utils.np_random p2'.
Proof.
  intros Hlen seed_val.
  pose proof (int_from_bytes_little_bounds bs) as Hb. rewrite Hlen in Hb.
  assert (Hseed : Utils.np_random_seed seed_val = Ok (Utils.Rng seed_val 0)).
  { apply np_random_seed_Ok. split; [| done]. subst seed_val.
    change (256 ^ Z.of_nat 4)%Z with (2 ^ 32)%Z in Hb. lia. }
  split; [done |]. split.
  - unfold Utils.random_seed_mp. fold seed_val.
    rewrite Hseed. simpl. destruct verbose; by rewrite ?app_nil_r.
  - intros bs2 p2 p1' p2' H1 H2 Hlast.
    apply random_seed_mp_Ok in H1 as [Hg1 Hout1].
    apply random_seed_mp_Ok in H2 as [Hg2 Hout2].
    rewrite Hout1, Hout2, !last_snoc in Hlast.
    apply (inj Some), seed_line_inj in Hlast.
    by rewrite Hg1, Hg2, Hlast.
Qed.

(** The bytes [2a 00 00 00] seed the generator with 42 and print it. *)
Lemma random_seed_mp_logged_witness :
  Utils.random_seed_mp true [Byte.x2a; Byte.x00; Byte.x00; Byte.x00]
    (Utils.Process (Utils.Rng 1 5) ["started"])
  = Ok (Utils.Process (Utils.Rng 42 0) ["started"; "Random seed value: 42"]).
Proof.
  destruct (random_seed_mp_logged true [Byte.x2a; Byte.x00; Byte.x00; Byte.x00]
              (Utils.Process (Utils.Rng 1 5) ["started"]) eq_refl)
    as (_ & Hrun & _).
  exact Hrun.
Defined.
